(** * MancalaAI: the board engine and the adversarial search, verified

    A shallow embedding of [src/mancala_ai/game.py] (class [MancalaGame]) and
    [src/mancala_ai/ai.py] ([minimax_search], [alpha_beta_search], class
    [MancalaAI]).

    - Python integers are [Z]; lists of integers are [list Z] read and
      written through [Py.getitem] / [Py.setitem], which raise [IndexError]
      out of range and wrap negative indices the way Python does.
    - A method that mutates [self] is a computation in the monad [M]
      (state: the object, result: a value, a raised exception, or an
      exhausted loop budget).
    - [float] appears in the search only as [-inf] and [+inf]; scores are
      integers, so search values live in [ext] (integers with two
      infinities). *)

From stdpp Require Import base list gmap strings pretty.
From Stdlib Require Import ZArith Lia.

Local Open Scope Z_scope.

(** ** Python list primitives *)

Module Py.

Definition len (l : list Z) : Z := Z.of_nat (length l).

(** Index normalisation of [l[i]]: a negative index counts from the end. *)
Definition norm_index (l : list Z) (i : Z) : option nat :=
  if 0 <=? i then (if i <? len l then Some (Z.to_nat i) else None)
  else if 0 <=? i + len l then Some (Z.to_nat (i + len l)) else None.

Definition getitem (l : list Z) (i : Z) : option Z :=
  match norm_index l i with Some k => l !! k | None => None end.

Definition setitem (l : list Z) (i v : Z) : option (list Z) :=
  match norm_index l i with Some k => Some (<[k:=v]> l) | None => None end.

(** Bound normalisation of [l[a:b]]: clamp instead of raising. *)
Definition clamp (l : list Z) (i : Z) : Z :=
  if i <? 0 then Z.max 0 (i + len l) else Z.min i (len l).

Definition slice (l : list Z) (a b : Z) : list Z :=
  take (Z.to_nat (clamp l b - clamp l a)) (drop (Z.to_nat (clamp l a)) l).

Definition sum (l : list Z) : Z := foldr Z.add 0 l.

(** [range(a, b)] *)
Definition range (a b : Z) : list Z :=
  map (λ k : nat, a + Z.of_nat k) (seq 0 (Z.to_nat (b - a))).

End Py.

(** ** The game object *)

(** The dataclass fields that carry state.  The [rng] field only serves
    [get_random_move]; the six index-cache fields are set once in
    [__post_init__] from [pits_per_player] and never assigned again, so
    they are the functions [_p1_pits_start] ... [_p2_mancala] below. *)
Record MancalaGame := mkGame {
  pits_per_player : Z;
  stones_per_pit : Z;
  board : list Z;
  current_player : Z;
  moves_history : list (Z * Z)
}.

Definition set_board (b : list Z) (g : MancalaGame) : MancalaGame :=
  mkGame (pits_per_player g) (stones_per_pit g) b (current_player g) (moves_history g).
Definition set_current_player (p : Z) (g : MancalaGame) : MancalaGame :=
  mkGame (pits_per_player g) (stones_per_pit g) (board g) p (moves_history g).
Definition set_moves_history (h : list (Z * Z)) (g : MancalaGame) : MancalaGame :=
  mkGame (pits_per_player g) (stones_per_pit g) (board g) (current_player g) h.

Definition board_size_of (g : MancalaGame) : Z := (pits_per_player g + 1) * 2.
Definition _p1_pits_start (g : MancalaGame) : Z := 0.
Definition _p1_pits_end (g : MancalaGame) : Z := pits_per_player g - 1.
Definition _p1_mancala (g : MancalaGame) : Z := pits_per_player g.
Definition _p2_pits_start (g : MancalaGame) : Z := pits_per_player g + 1.
Definition _p2_pits_end (g : MancalaGame) : Z := board_size_of g - 2.
Definition _p2_mancala (g : MancalaGame) : Z := board_size_of g - 1.

(** ** Exceptions, outcomes and the method monad

    [NoSuchObject] is not a Python exception: it is what reading a
    reference outside the object store (below) gives, which no Python
    program can hold. *)

Inductive exn :=
| ValueError (msg : string)
| IndexError
| ZeroDivisionError
| NoSuchObject.

Inductive outcome (A : Type) :=
| Return (a : A)
| Raise (e : exn)
| OutOfFuel.
Arguments Return {A} a.
Arguments Raise {A} e.
Arguments OutOfFuel {A}.

Definition M (A : Type) : Type := MancalaGame → outcome A * MancalaGame.

Definition ret {A} (a : A) : M A := λ g, (Return a, g).
Definition raise {A} (e : exn) : M A := λ g, (Raise e, g).
Definition out_of_fuel {A} : M A := λ g, (OutOfFuel, g).
Definition bind {A B} (c : M A) (k : A → M B) : M B :=
  λ g, match c g with
       | (Return a, g') => k a g'
       | (Raise e, g') => (Raise e, g')
       | (OutOfFuel, g') => (OutOfFuel, g')
       end.
Definition get : M MancalaGame := λ g, (Return g, g).
Definition modify (f : MancalaGame → MancalaGame) : M unit := λ g, (Return tt, f g).

Notation "'let!' x ':=' c 'in' k" := (bind c (λ x, k))
  (at level 10, x name, c at level 100, k at level 200).
Notation "c ';;' k" := (bind c (λ _, k))
  (at level 100, k at level 200, right associativity).

(** [self.board[i]] and [self.board[i] = v] *)
Definition board_get (i : Z) : M Z :=
  λ g, match Py.getitem (board g) i with
       | Some v => (Return v, g)
       | None => (Raise IndexError, g)
       end.
Definition board_set (i v : Z) : M unit :=
  λ g, match Py.setitem (board g) i v with
       | Some b => (Return tt, set_board b g)
       | None => (Raise IndexError, g)
       end.

(** [for x in xs: body x] *)
Fixpoint for_each {A} (xs : list A) (body : A → M unit) : M unit :=
  match xs with
  | [] => ret tt
  | x :: rest => body x ;; for_each rest body
  end.

(** ** [MancalaGame] methods *)

(** [__post_init__] on a freshly built dataclass instance. *)
Definition new_game (pits stones : Z) : outcome MancalaGame :=
  if pits <? 1 then Raise (ValueError "pits_per_player must be at least 1")
  else if stones <? 0 then Raise (ValueError "stones_per_pit cannot be negative")
  else
    let g0 := mkGame pits stones [] 1 [] in
    let board_size := (pits + 1) * 2 in
    let g1 := set_board (replicate (Z.to_nat board_size) stones) g0 in
    match (board_set (_p1_mancala g1) 0 ;; board_set (_p2_mancala g1) 0) g1 with
    | (Return _, g) => Return g
    | (Raise e, _) => Raise e
    | (OutOfFuel, _) => OutOfFuel
    end.

Definition p1_score (g : MancalaGame) : outcome Z := fst (board_get (_p1_mancala g) g).
Definition p2_score (g : MancalaGame) : outcome Z := fst (board_get (_p2_mancala g) g).

Definition p1_pits (g : MancalaGame) : list Z :=
  Py.slice (board g) (_p1_pits_start g) (_p1_pits_end g + 1).
Definition p2_pits (g : MancalaGame) : list Z :=
  Py.slice (board g) (_p2_pits_start g) (_p2_pits_end g + 1).

Definition is_valid_move (pit : Z) : M bool :=
  let! g := get in
  if negb ((1 <=? pit) && (pit <=? pits_per_player g)) then ret false
  else
    let pit_index :=
      if current_player g =? 1 then _p1_pits_start g + (pit - 1)
      else _p2_pits_start g + (pit - 1) in
    let! v := board_get pit_index in
    ret (v >? 0).

Definition is_terminal (g : MancalaGame) : bool :=
  let p1_empty := Py.sum (p1_pits g) =? 0 in
  let p2_empty := Py.sum (p2_pits g) =? 0 in
  p1_empty || p2_empty.

Definition _get_opposite_pit (g : MancalaGame) (pit_index : Z) : Z :=
  2 * pits_per_player g - pit_index.

Definition _is_on_player_side (g : MancalaGame) (pit_index player : Z) : bool :=
  if player =? 1 then (_p1_pits_start g <=? pit_index) && (pit_index <=? _p1_pits_end g)
  else (_p2_pits_start g <=? pit_index) && (pit_index <=? _p2_pits_end g).

(** The [while stones > 0] loop of [_distribute_stones]; every iteration,
    also one that only skips the opponent's store, uses one unit of
    [fuel]. *)
Fixpoint distribute_loop (fuel : nat) (board_size opponent_mancala : Z)
    (current_index stones : Z) {struct fuel} : M Z :=
  if stones >? 0 then
    match fuel with
    | O => out_of_fuel
    | S fuel' =>
        if board_size =? 0 then raise ZeroDivisionError
        else
          let current_index := (current_index + 1) `mod` board_size in
          if current_index =? opponent_mancala then
            distribute_loop fuel' board_size opponent_mancala current_index stones
          else
            let! v := board_get current_index in
            board_set current_index (v + 1) ;;
            distribute_loop fuel' board_size opponent_mancala current_index (stones - 1)
    end
  else ret current_index.

(** The loop budget is twice the number of stones in hand: the loop
    skips at most once between two stones, so the budget is never
    exhausted ([distribute_stones_spec]). *)
Definition _distribute_stones (pit_index player_mancala opponent_mancala : Z) : M Z :=
  let! g := get in
  let board_size := Py.len (board g) in
  let! stones := board_get pit_index in
  board_set pit_index 0 ;;
  distribute_loop (Z.to_nat (2 * stones)) board_size opponent_mancala pit_index stones.

Definition sweep_pit (mancala i : Z) : M unit :=
  let! m := board_get mancala in
  let! v := board_get i in
  board_set mancala (m + v) ;;
  board_set i 0.

Definition _sweep_remaining_stones : M unit :=
  let! g := get in
  for_each (Py.range (_p1_pits_start g) (_p1_pits_end g + 1)) (sweep_pit (_p1_mancala g)) ;;
  for_each (Py.range (_p2_pits_start g) (_p2_pits_end g + 1)) (sweep_pit (_p2_mancala g)).

(** The capture block of [play] (the [if] after the sowing):
    [and] evaluates its right operand only when the left one holds. *)
Definition capture_block (final_index player_mancala : Z) : M unit :=
  let! g := get in
  let! landed_alone :=
    (if _is_on_player_side g final_index (current_player g)
     then let! v := board_get final_index in ret (v =? 1)
     else ret false) in
  if landed_alone : bool then
    let opposite_index := _get_opposite_pit g final_index in
    let! takes :=
      (if (0 <=? opposite_index) && (opposite_index <? Py.len (board g))
       then let! o := board_get opposite_index in ret (o >? 0)
       else ret false) in
    if takes : bool then
      let! o := board_get opposite_index in
      let captured := o + 1 in
      board_set opposite_index 0 ;;
      board_set final_index 0 ;;
      let! m := board_get player_mancala in
      board_set player_mancala (m + captured)
    else ret tt
  else ret tt.

(** The end-of-game block of [play]. *)
Definition sweep_block (player_pits : Z * Z) : M unit :=
  let! g := get in
  if (Py.sum (Py.slice (board g) (fst player_pits) (snd player_pits + 1)) =? 0)
     || is_terminal g
  then _sweep_remaining_stones
  else ret tt.

(** The turn block of [play]. *)
Definition turn_block (final_index player_mancala : Z) : M unit :=
  let! g := get in
  if negb (final_index =? player_mancala) && negb (is_terminal g)
  then modify (set_current_player (if current_player g =? 1 then 2 else 1))
  else ret tt.

Definition play (pit : Z) : M bool :=
  let! g := get in
  if is_terminal g then raise (ValueError "Game is already over")
  else
    let! valid := is_valid_move pit in
    if negb valid then raise (ValueError ("Invalid move: pit " +:+ pretty pit))
    else
      modify (λ g, set_moves_history (moves_history g ++ [(current_player g, pit)]) g) ;;
      let! g := get in
      let '(pit_index, player_mancala, opponent_mancala, player_pits) :=
        if current_player g =? 1
        then (_p1_pits_start g + (pit - 1), _p1_mancala g, _p2_mancala g,
              (_p1_pits_start g, _p1_pits_end g))
        else (_p2_pits_start g + (pit - 1), _p2_mancala g, _p1_mancala g,
              (_p2_pits_start g, _p2_pits_end g)) in
      let! final_index := _distribute_stones pit_index player_mancala opponent_mancala in
      capture_block final_index player_mancala ;;
      sweep_block player_pits ;;
      turn_block final_index player_mancala ;;
      ret true.

Definition get_valid_moves (g : MancalaGame) : outcome (list Z) :=
  (fix go (pits : list Z) : outcome (list Z) :=
     match pits with
     | [] => Return []
     | pit :: rest =>
         match fst (is_valid_move pit g) with
         | Return ok =>
             match go rest with
             | Return ms => Return (if ok then pit :: ms else ms)
             | other => other
             end
         | Raise e => Raise e
         | OutOfFuel => OutOfFuel
         end
     end) (Py.range 1 (pits_per_player g + 1)).

Definition get_winner (g : MancalaGame) : outcome (option Z) :=
  if negb (is_terminal g) then Return None
  else
    match p1_score g, p2_score g with
    | Return s1, Return s2 =>
        Return (Some (if s1 >? s2 then 1 else if s2 >? s1 then 2 else 0))
    | Raise e, _ => Raise e
    | OutOfFuel, _ => OutOfFuel
    | _, Raise e => Raise e
    | _, OutOfFuel => OutOfFuel
    end.

(** ** Search values: integers with [-np.inf] and [np.inf] *)

Inductive ext := NegInf | Fin (z : Z) | PosInf.

Definition ext_lt (a b : ext) : bool :=
  match a, b with
  | NegInf, NegInf => false
  | NegInf, _ => true
  | Fin _, NegInf => false
  | Fin x, Fin y => x <? y
  | Fin _, PosInf => true
  | PosInf, _ => false
  end.
Definition ext_le (a b : ext) : bool := negb (ext_lt b a).

(** Python's [max(v, x)] and [min(v, x)]: the first argument wins ties. *)
Definition ext_max (v x : ext) : ext := if ext_lt v x then x else v.
Definition ext_min (v x : ext) : ext := if ext_lt x v then x else v.

(** ** The monad the search runs in

    The search only sequences calls of the game's methods, so it is written
    once over any monad with a way to give up when the budget of call
    frames is spent.  [outcome] (exceptions, no store) and [H] (exceptions
    and a store of game objects) are its two instances. *)

Class SearchMonad (T : Type → Type) := {
  sret : ∀ {A}, A → T A;
  sbind : ∀ {A B}, T A → (A → T B) → T B;
  sfuel : ∀ {A}, T A
}.

Notation "'let?' x ':=' c 'in' k" := (sbind c (λ x, k))
  (at level 10, x name, c at level 100, k at level 200).

Definition obind {A B} (c : outcome A) (k : A → outcome B) : outcome B :=
  match c with
  | Return a => k a
  | Raise e => Raise e
  | OutOfFuel => OutOfFuel
  end.

#[global] Instance outcome_monad : SearchMonad outcome :=
  {| sret := @Return; sbind := @obind; sfuel := @OutOfFuel |}.

(** ** The adversarial-game interface (class [Game]) *)

Class Game (T : Type → Type) (St A : Type) := {
  actions : St → T (list A);
  result : St → A → T St;
  utility : St → Z → T Z;
  terminal_test : St → T bool;
  to_move : St → T Z
}.

Section Search.
Context {T : Type → Type} {MT : SearchMonad T} {St A : Type} {G : Game T St A}.

(** *** [alpha_beta_search] *)

Section AlphaBeta.
Variable cutoff_test : St → Z → T bool.
Variable eval_fn : St → T Z.

(** The [for action in game.actions(state)] loops of the two inner
    functions; [child] is the recursive call on the successor. *)
Fixpoint ab_max_loop (child : St → ext → ext → T ext) (state : St)
    (acts : list A) (v alpha beta : ext) : T ext :=
  match acts with
  | [] => sret v
  | action :: rest =>
      let? s' := result state action in
      let? x := child s' alpha beta in
      let v := ext_max v x in
      if ext_le beta v then sret v
      else ab_max_loop child state rest v (ext_max alpha v) beta
  end.

Fixpoint ab_min_loop (child : St → ext → ext → T ext) (state : St)
    (acts : list A) (v alpha beta : ext) : T ext :=
  match acts with
  | [] => sret v
  | action :: rest =>
      let? s' := result state action in
      let? x := child s' alpha beta in
      let v := ext_min v x in
      if ext_le v alpha then sret v
      else ab_min_loop child state rest v alpha (ext_min beta v)
  end.

(** One unit of [fuel] per call frame. *)
Fixpoint ab_max_value (fuel : nat) (state : St) (alpha beta : ext)
    (current_depth : Z) {struct fuel} : T ext :=
  match fuel with
  | O => sfuel
  | S fuel' =>
      let? stop := cutoff_test state current_depth in
      if stop : bool then let? e := eval_fn state in sret (Fin e)
      else
        let? acts := actions state in
        ab_max_loop (λ s a b, ab_min_value fuel' s a b (current_depth + 1))
          state acts NegInf alpha beta
  end
with ab_min_value (fuel : nat) (state : St) (alpha beta : ext)
    (current_depth : Z) {struct fuel} : T ext :=
  match fuel with
  | O => sfuel
  | S fuel' =>
      let? stop := cutoff_test state current_depth in
      if stop : bool then let? e := eval_fn state in sret (Fin e)
      else
        let? acts := actions state in
        ab_min_loop (λ s a b, ab_max_value fuel' s a b (current_depth + 1))
          state acts PosInf alpha beta
  end.

(** The root loop: [beta] stays [np.inf], [best_score] is the alpha
    passed down. *)
Fixpoint ab_root_loop (fuel : nat) (state : St) (acts : list A)
    (best_score : ext) (best_action : option A) : T (option A) :=
  match acts with
  | [] => sret best_action
  | action :: rest =>
      let? s' := result state action in
      let? v := ab_min_value fuel s' best_score PosInf 1 in
      if ext_lt best_score v
      then ab_root_loop fuel state rest v (Some action)
      else ab_root_loop fuel state rest best_score best_action
  end.
End AlphaBeta.

(** [lambda s, d: d >= depth or game.terminal_test(s)] *)
Definition default_cutoff_test (depth : Z) (s : St) (d : Z) : T bool :=
  if d >=? depth then sret true else terminal_test s.

Definition alpha_beta_search (fuel : nat) (state : St) (depth : Z)
    (cutoff_test : option (St → Z → T bool))
    (eval_fn : option (St → T Z)) : T (option A) :=
  let? player := to_move state in
  let cutoff_test :=
    match cutoff_test with Some f => f | None => default_cutoff_test depth end in
  let eval_fn :=
    match eval_fn with Some f => f | None => λ s, utility s player end in
  let? acts := actions state in
  ab_root_loop cutoff_test eval_fn fuel state acts NegInf None.

(** *** [minimax_search] *)

Section Minimax.
Variable depth : Z.
Variable player : Z.

Fixpoint mm_max_loop (child : St → T ext) (state : St)
    (acts : list A) (v : ext) : T ext :=
  match acts with
  | [] => sret v
  | action :: rest =>
      let? s' := result state action in
      let? x := child s' in
      mm_max_loop child state rest (ext_max v x)
  end.

Fixpoint mm_min_loop (child : St → T ext) (state : St)
    (acts : list A) (v : ext) : T ext :=
  match acts with
  | [] => sret v
  | action :: rest =>
      let? s' := result state action in
      let? x := child s' in
      mm_min_loop child state rest (ext_min v x)
  end.

Fixpoint mm_max_value (fuel : nat) (state : St) (current_depth : Z)
    {struct fuel} : T ext :=
  match fuel with
  | O => sfuel
  | S fuel' =>
      let? stop := default_cutoff_test depth state current_depth in
      if stop : bool then let? e := utility state player in sret (Fin e)
      else
        let? acts := actions state in
        mm_max_loop (λ s, mm_min_value fuel' s (current_depth + 1)) state acts NegInf
  end
with mm_min_value (fuel : nat) (state : St) (current_depth : Z)
    {struct fuel} : T ext :=
  match fuel with
  | O => sfuel
  | S fuel' =>
      let? stop := default_cutoff_test depth state current_depth in
      if stop : bool then let? e := utility state player in sret (Fin e)
      else
        let? acts := actions state in
        mm_min_loop (λ s, mm_max_value fuel' s (current_depth + 1)) state acts PosInf
  end.

Fixpoint mm_root_loop (fuel : nat) (state : St) (acts : list A)
    (best_action : option A) (best_value : ext) : T (option A) :=
  match acts with
  | [] => sret best_action
  | action :: rest =>
      let? s' := result state action in
      let? value := mm_min_value fuel s' 1 in
      if ext_lt best_value value
      then mm_root_loop fuel state rest (Some action) value
      else mm_root_loop fuel state rest best_action best_value
  end.
End Minimax.

Definition minimax_search (fuel : nat) (state : St) (depth : Z) : T (option A) :=
  let? player := to_move state in
  let? acts := actions state in
  mm_root_loop depth player fuel state acts None NegInf.

(** The value the root loop of [minimax_search] backs up for [move]. *)
Definition backed_up_value (fuel : nat) (state : St) (depth : Z) (move : A) : T ext :=
  let? player := to_move state in
  let? s' := result state move in
  mm_min_value depth player fuel s' 1.

End Search.

(** ** [GameState] and the object store

    [GameState] is an immutable named tuple whose [board] field refers to a
    mutable [MancalaGame] object.  [GameState.t loc] has the reference
    (an address in the store), [GameState.t MancalaGame] the object's
    contents in its place.  A game object owns its two lists
    ([copy.deepcopy] copies them with the object), so the store holds
    them by value. *)

Module GameState.
Record t (B : Type) := mk {
  to_move : Z;
  utility : Z;
  board : B;
  moves : list Z
}.
Arguments mk {B} _ _ _ _.
Arguments to_move {B} _.
Arguments utility {B} _.
Arguments board {B} _.
Arguments moves {B} _.
End GameState.

Abbreviation loc := positive.
Abbreviation store := (gmap positive MancalaGame).

Definition H (A : Type) : Type := store → outcome A * store.

Definition hbind {A B} (c : H A) (k : A → H B) : H B :=
  λ h, match c h with
       | (Return a, h') => k a h'
       | (Raise e, h') => (Raise e, h')
       | (OutOfFuel, h') => (OutOfFuel, h')
       end.

#[global] Instance store_monad : SearchMonad H :=
  {| sret := λ A a h, (Return a, h);
     sbind := @hbind;
     sfuel := λ A h, (OutOfFuel, h) |}.

(** Call a method on the object at [l]; the object is updated in place. *)
Definition on_object {A} (l : loc) (m : M A) : H A :=
  λ h, match h !! l with
       | Some g => let '(r, g') := m g in (r, <[l:=g']> h)
       | None => (Raise NoSuchObject, h)
       end.

(** [MancalaGame.copy]: [copy.deepcopy(self)], a new object with the same
    contents at an address not in use. *)
Definition copy (l : loc) : H loc :=
  λ h, match h !! l with
       | Some g => let l' := fresh (dom h) in (Return l', <[l':=g]> h)
       | None => (Raise NoSuchObject, h)
       end.

(** ** [MancalaAI] *)

Module MancalaAI.

(** The method bodies, as computations on the game object they read or
    change. *)

Definition lift {A} (f : MancalaGame → outcome A) : M A := λ g, (f g, g).

Definition terminal_test_body : M bool := lift (λ g, Return (is_terminal g)).

Definition actions_body : M (list Z) :=
  let! stop := terminal_test_body in
  if stop : bool then ret [] else lift get_valid_moves.

Definition _calculate_utility : M Z :=
  let! s1 := lift p1_score in
  let! s2 := lift p2_score in
  ret (s1 - s2).

Definition utility_body (player : Z) : M Z :=
  let! s1 := lift p1_score in
  let! s2 := lift p2_score in
  let util := s1 - s2 in
  ret (if player =? 1 then util else - util).

(** What [result] does with [new_game] once it is copied: play, then
    read the fields of the new [GameState] in keyword order. *)
Definition result_body (move : Z) : M (Z * Z * list Z) :=
  play move ;;
  let! g := get in
  let! u := _calculate_utility in
  let! ms := lift get_valid_moves in
  ret (current_player g, u, ms).

(** The class over the object store, as the program runs. *)
#[global] Instance game : Game H (GameState.t loc) Z := {|
  actions state := on_object (GameState.board state) actions_body;
  result state move :=
    let? new_game := copy (GameState.board state) in
    let? f := on_object new_game (result_body move) in
    sret (GameState.mk f.1.1 f.1.2 new_game f.2);
  utility state player := on_object (GameState.board state) (utility_body player);
  terminal_test state := on_object (GameState.board state) terminal_test_body;
  to_move state := sret (GameState.to_move state)
|}.

(** The same class on states that carry the object's contents: a copy
    is the contents themselves. *)
#[global] Instance game_by_value : Game outcome (GameState.t MancalaGame) Z := {|
  actions state := fst (actions_body (GameState.board state));
  result state move :=
    match result_body move (GameState.board state) with
    | (Return f, new_game) => Return (GameState.mk f.1.1 f.1.2 new_game f.2)
    | (Raise e, _) => Raise e
    | (OutOfFuel, _) => OutOfFuel
    end;
  utility state player := fst (utility_body player (GameState.board state));
  terminal_test state := fst (terminal_test_body (GameState.board state));
  to_move state := Return (GameState.to_move state)
|}.

(** [__post_init__]: the initial state, its game object at a new
    address. *)
Definition initial (pits stones : Z) : H (GameState.t loc) :=
  λ h, match new_game pits stones with
       | Return g =>
           match get_valid_moves g with
           | Return ms =>
               let l := fresh (dom h) in
               (Return (GameState.mk 1 0 l ms), <[l:=g]> h)
           | Raise e => (Raise e, h)
           | OutOfFuel => (OutOfFuel, h)
           end
       | Raise e => (Raise e, h)
       | OutOfFuel => (OutOfFuel, h)
       end.

Definition initial_by_value (pits stones : Z) : outcome (GameState.t MancalaGame) :=
  match new_game pits stones with
  | Return g =>
      match get_valid_moves g with
      | Return ms => Return (GameState.mk 1 0 g ms)
      | Raise e => Raise e
      | OutOfFuel => OutOfFuel
      end
  | Raise e => Raise e
  | OutOfFuel => OutOfFuel
  end.

End MancalaAI.

Section Movers.
Context {T : Type → Type} {MT : SearchMonad T} {St : Type} {G : Game T St Z}.

Definition get_alpha_beta_move (fuel : nat) (state : St) (depth : Z) : T (option Z) :=
  let? root_player := to_move state in
  let cutoff_test := λ (s : St) (current_depth : Z),
    if current_depth >=? depth then sret true else terminal_test s in
  let eval_fn := λ s : St, utility s root_player in
  alpha_beta_search fuel state depth (Some cutoff_test) (Some eval_fn).

Definition get_minimax_move (fuel : nat) (state : St) (depth : Z) : T (option Z) :=
  minimax_search fuel state depth.
End Movers.

(** ** [MancalaGame.get_random_move] and the random playout

    The [rng] field is not part of [MancalaGame] above, so the generator
    of the object ([None] or a [random.Random]) is passed beside it,
    together with the generator of the [random] module.  [choice] is
    [random.Random.choice] (and [random.choice]): it is given a generator
    and a list, and returns an element and the generator's next state. *)

Section Random.
Variable R : Type.
Variable choice : R → list Z → outcome Z * R.

Definition get_random_move (rng : option R) (global_rng : R) (g : MancalaGame)
    : outcome (option Z) * (option R * R) :=
  match get_valid_moves g with
  | Return valid_moves =>
      match valid_moves with
      | [] => (Return None, (rng, global_rng))
      | _ :: _ =>
          match rng with
          | Some r =>
              match choice r valid_moves with
              | (Return x, r') => (Return (Some x), (Some r', global_rng))
              | (Raise e, r') => (Raise e, (Some r', global_rng))
              | (OutOfFuel, r') => (OutOfFuel, (Some r', global_rng))
              end
          | None =>
              match choice global_rng valid_moves with
              | (Return x, r') => (Return (Some x), (None, r'))
              | (Raise e, r') => (Raise e, (None, r'))
              | (OutOfFuel, r') => (OutOfFuel, (None, r'))
              end
          end
      end
  | Raise e => (Raise e, (rng, global_rng))
  | OutOfFuel => (OutOfFuel, (rng, global_rng))
  end.

(** The [while not game.is_terminal()] loop of [run_random_vs_random]
    ([experiments/benchmark.py]); one unit of [fuel] per iteration.  It
    returns the number of moves played. *)
Fixpoint random_playout (fuel : nat) (rng : option R) (global_rng : R)
    (game : MancalaGame) (moves : Z) {struct fuel}
    : outcome Z * (option R * R) * MancalaGame :=
  if negb (is_terminal game) then
    match fuel with
    | O => (OutOfFuel, (rng, global_rng), game)
    | S fuel' =>
        match get_random_move rng global_rng game with
        | (Return None, rs) => (Return moves, rs, game)
        | (Return (Some move), rs) =>
            match play move game with
            | (Return _, game') => random_playout fuel' (fst rs) (snd rs) game' (moves + 1)
            | (Raise e, game') => (Raise e, rs, game')
            | (OutOfFuel, game') => (OutOfFuel, rs, game')
            end
        | (Raise e, rs) => (Raise e, rs, game)
        | (OutOfFuel, rs) => (OutOfFuel, rs, game)
        end
    end
  else (Return moves, (rng, global_rng), game).

End Random.

(** ** The default [Game.terminal_test] and the search of [src/MancalaAI.py] *)

Section MoreSearch.
Context {T : Type → Type} {MT : SearchMonad T} {St A : Type} {G : Game T St A}.

(** [Game.terminal_test]: [not self.actions(state)]. *)
Definition Game_terminal_test (state : St) : T bool :=
  let? acts := actions state in
  sret (match acts with [] => true | _ :: _ => false end).

(** [get_basic_minimax_move] of [src/MancalaAI.py]: its loops are those of
    [minimax_search]; its cutoff is [depth > plie_lim]. *)
Section Basic.
Variable plie_lim : Z.
Variable player : Z.

Fixpoint basic_max_value (fuel : nat) (state : St) (depth : Z) {struct fuel} : T ext :=
  match fuel with
  | O => sfuel
  | S fuel' =>
      let? stop := (if depth >? plie_lim then sret true else terminal_test state) in
      if stop : bool then let? e := utility state player in sret (Fin e)
      else
        let? acts := actions state in
        mm_max_loop (λ s, basic_min_value fuel' s (depth + 1)) state acts NegInf
  end
with basic_min_value (fuel : nat) (state : St) (depth : Z) {struct fuel} : T ext :=
  match fuel with
  | O => sfuel
  | S fuel' =>
      let? stop := (if depth >? plie_lim then sret true else terminal_test state) in
      if stop : bool then let? e := utility state player in sret (Fin e)
      else
        let? acts := actions state in
        mm_min_loop (λ s, basic_max_value fuel' s (depth + 1)) state acts PosInf
  end.

Fixpoint basic_root_loop (fuel : nat) (state : St) (acts : list A)
    (best_action : option A) (best_value : ext) : T (option A) :=
  match acts with
  | [] => sret best_action
  | action :: rest =>
      let? s' := result state action in
      let? value := basic_min_value fuel s' 1 in
      if ext_lt best_value value
      then basic_root_loop fuel state rest (Some action) value
      else basic_root_loop fuel state rest best_action best_value
  end.
End Basic.

Definition get_basic_minimax_move (fuel : nat) (state : St) (plie_lim : Z) : T (option A) :=
  let? player := to_move state in
  let? acts := actions state in
  basic_root_loop plie_lim player fuel state acts None NegInf.

End MoreSearch.

(** ** The game loop of [run_ai_vs_random] and [run_benchmark]

    The [while not ai.terminal_test(state)] loop of
    [experiments/benchmark.py] and of [cli.py], on states by value.
    Player 1 moves by search, player 2 by [get_random_move]; the game
    objects [MancalaAI] builds have no generator of their own, so the
    random player draws with the generator of the [random] module.  The
    clock readings the source takes around the calls enter neither the
    loop's control nor the count [moves], and are left out.  One unit of
    [fuel] per iteration; every search gets [search_fuel] call frames. *)

Section AiLoop.
Variable R : Type.
Variable choice : R → list Z → outcome Z * R.
Variable use_alpha_beta : bool.
Variable depth : Z.
Variable search_fuel : nat.

Definition get_move (state : GameState.t MancalaGame) : outcome (option Z) :=
  if use_alpha_beta then get_alpha_beta_move search_fuel state depth
  else get_minimax_move search_fuel state depth.

Fixpoint ai_vs_random_loop (fuel : nat) (global_rng : R)
    (state : GameState.t MancalaGame) (moves : Z) {struct fuel}
    : outcome Z * R * GameState.t MancalaGame :=
  match terminal_test state with
  | Return true => (Return moves, global_rng, state)
  | Return false =>
      match fuel with
      | O => (OutOfFuel, global_rng, state)
      | S fuel' =>
          match to_move state with
          | Return current_player =>
              let '(move, global_rng') :=
                if current_player =? 1 then (get_move state, global_rng)
                else
                  let '(m, rs) :=
                    get_random_move R choice None global_rng (GameState.board state) in
                  (m, snd rs) in
              match move with
              | Return None => (Return moves, global_rng', state)
              | Return (Some m) =>
                  match result state m with
                  | Return state' =>
                      ai_vs_random_loop fuel' global_rng' state' (moves + 1)
                  | Raise e => (Raise e, global_rng', state)
                  | OutOfFuel => (OutOfFuel, global_rng', state)
                  end
              | Raise e => (Raise e, global_rng', state)
              | OutOfFuel => (OutOfFuel, global_rng', state)
              end
          | Raise e => (Raise e, global_rng, state)
          | OutOfFuel => (OutOfFuel, global_rng, state)
          end
      end
  | Raise e => (Raise e, global_rng, state)
  | OutOfFuel => (OutOfFuel, global_rng, state)
  end.

End AiLoop.

(** ** Concrete games *)

(** The standard game, as [MancalaGame()] builds it. *)
Definition game_6x4 : MancalaGame :=
  mkGame 6 4 [4;4;4;4;4;4;0;4;4;4;4;4;4;0] 1 [].

(** The initial state of [MancalaAI(3, 2)], by value. *)
Definition state_3x2 : GameState.t MancalaGame :=
  GameState.mk 1 0 (mkGame 3 2 [2;2;2;0;2;2;2;0] 1 []) [1;2;3].

(** The initial 3x2 state over a store that holds its game object. *)
Definition store_3x2 : store := {[1%positive := mkGame 3 2 [2;2;2;0;2;2;2;0] 1 []]}.
Definition root_3x2 : GameState.t loc := GameState.mk 1 0 1%positive [1; 2; 3].

(** A finished 3-pit game. *)
Definition finished_3x1 : GameState.t MancalaGame :=
  GameState.mk 1 5 (mkGame 3 2 [0; 0; 0; 10; 0; 0; 0; 5] 1 []) [].

(** ** Vocabulary of the statements about the game *)

(** Well-formed game objects: the shape [__post_init__] builds and [play]
    keeps. *)
Definition wf (g : MancalaGame) : Prop :=
  1 <= pits_per_player g ∧
  Py.len (board g) = board_size_of g ∧
  Forall (λ v, 0 <= v) (board g).

(** The mover's indices, as [play] selects them. *)
Definition mover_pit_index (g : MancalaGame) (pit : Z) : Z :=
  if current_player g =? 1 then _p1_pits_start g + (pit - 1)
  else _p2_pits_start g + (pit - 1).
Definition mover_mancala (g : MancalaGame) : Z :=
  if current_player g =? 1 then _p1_mancala g else _p2_mancala g.
Definition opponent_mancala (g : MancalaGame) : Z :=
  if current_player g =? 1 then _p2_mancala g else _p1_mancala g.
Definition mover_pits (g : MancalaGame) : Z * Z :=
  if current_player g =? 1 then (_p1_pits_start g, _p1_pits_end g)
  else (_p2_pits_start g, _p2_pits_end g).

(** The cell at index [i], [0] outside the board. *)
Definition cell (b : list Z) (i : Z) : Z :=
  if 0 <=? i then default 0 (b !! Z.to_nat i) else 0.

(** The stones in the cells [a], ..., [c - 1]. *)
Definition range_sum (b : list Z) (a c : Z) : Z :=
  Py.sum (map (cell b) (Py.range a c)).

(** The test of the capture block of [play], on the board as sown. *)
Definition captures (g : MancalaGame) (final_index : Z) : bool :=
  _is_on_player_side g final_index (current_player g)
  && (cell (board g) final_index =? 1)
  && (cell (board g) (_get_opposite_pit g final_index) >? 0).

(** The board after a capture at [final_index]. *)
Definition capture_board (g : MancalaGame) (final_index : Z) : list Z :=
  let opposite_index := _get_opposite_pit g final_index in
  let b1 := <[Z.to_nat final_index:=0]> (<[Z.to_nat opposite_index:=0]> (board g)) in
  <[Z.to_nat (mover_mancala g):=
      cell b1 (mover_mancala g) + (cell (board g) opposite_index + 1)]> b1.

(** The three blocks of [play] after the sowing, as functions of the
    state they start from ([capture_block_spec], [sweep_block_spec] and
    [turn_block_spec] show they are what the blocks compute). *)
Definition capture_stage (final_index : Z) (g : MancalaGame) : MancalaGame :=
  if captures g final_index then set_board (capture_board g final_index) g else g.
Definition sweep_stage (g : MancalaGame) : MancalaGame :=
  if is_terminal g then snd (_sweep_remaining_stones g) else g.
Definition turn_stage (final_index : Z) (g : MancalaGame) : MancalaGame :=
  if negb (final_index =? mover_mancala g) && negb (is_terminal g)
  then set_current_player (if current_player g =? 1 then 2 else 1) g
  else g.

(** The two store indices. *)
Definition is_store (g : MancalaGame) (i : Z) : Prop :=
  i = _p1_mancala g ∨ i = _p2_mancala g.

(** The indices of the pits: every cell but the two stores. *)
Definition is_pit (g : MancalaGame) (i : Z) : Prop :=
  0 <= i < board_size_of g ∧ ¬ is_store g i.

(** The board right after the sowing of [play pit], and the landing
    index. *)
Definition sow (pit : Z) (g : MancalaGame) : outcome Z * MancalaGame :=
  _distribute_stones (mover_pit_index g pit) (mover_mancala g) (opponent_mancala g)
    (set_moves_history (moves_history g ++ [(current_player g, pit)]) g).

(** States a game reaches from its construction by successful [play]
    calls. *)
Inductive reachable (pits stones : Z) : MancalaGame → Prop :=
| reach_new g : new_game pits stones = Return g → reachable pits stones g
| reach_play g pit g' :
    reachable pits stones g → play pit g = (Return true, g') → reachable pits stones g'.

(** ** Vocabulary of the statements about the search *)

(** [x] and [y] are the same value as far as the window from [alpha]
    to [beta] can tell: equal inside it, on the same side outside it. *)
Definition clip (alpha beta z : ext) : ext := ext_max alpha (ext_min beta z).
Definition agree (alpha beta x y : ext) : Prop := clip alpha beta x = clip alpha beta y.

(** What the loop lemmas ask of the recursive calls on the successors of
    [s]: both return, and agree on every non-empty window. *)
Definition children_agree {St A : Type} {G : Game outcome St A}
    (child_ab : St → ext → ext → outcome ext) (child_mm : St → outcome ext)
    (s : St) (acts : list A) : Prop :=
  ∀ a, a ∈ acts →
    ∃ s', result s a = Return s' ∧
      ∀ alpha beta, ∃ x y,
        child_ab s' alpha beta = Return x ∧ child_mm s' = Return y ∧
        (ext_lt alpha beta = true → agree alpha beta x y).

(** Search values read in [Z]: the infinities are sent to [- M] and [M],
    for an [M] beyond the integers at hand ([inb]). *)
Definition emb (M : Z) (a : ext) : Z :=
  match a with NegInf => - M | Fin z => z | PosInf => M end.
Definition inb (M : Z) (a : ext) : Prop :=
  match a with Fin z => - M < z < M | _ => 0 < M end.

(** A method that does not change its object. *)
Definition readonly {X : Type} (m : M X) : Prop := ∀ g, snd (m g) = g.

(** A computation over the store that leaves every object it finds as
    it is (it may add objects), however it ends. *)
Definition extensive {X : Type} (c : H X) : Prop :=
  ∀ (h : store) r h', c h = (r, h') → h ⊆ h'.

(** The state [s] with the contents of its game object, read in [h], in
    place of the reference. *)
Definition contents (h : store) (s : GameState.t loc) : option (GameState.t MancalaGame) :=
  match h !! GameState.board s with
  | Some g => Some (GameState.mk (GameState.to_move s) (GameState.utility s) g (GameState.moves s))
  | None => None
  end.

(** [a] is a move the game offers at [v]. *)
Definition offered {V A : Type} {GV : Game outcome V A} (v : V) (a : A) : Prop :=
  ∃ acts, actions v = Return acts ∧ a ∈ acts.

(** The computation [cH] over the store ends as [cV] does, and keeps the
    objects it found. *)
Definition simulates {X : Type} (cH : H X) (cV : outcome X) (h : store) : Prop :=
  ∃ h', cH h = (cV, h') ∧ h ⊆ h'.

(** ** Vocabulary of further statements *)

(** The place of index [i] on the round the sowing makes: [0] for the
    cell after the opponent's store, up to [2P] for the cell before it. *)
Definition round_pos (g : MancalaGame) (i : Z) : Z :=
  (i - opponent_mancala g - 1) `mod` board_size_of g.

(** The entries of a history: a player, [1] or [2], and one of the pits
    [1], ..., [P]. *)
Definition history_entry_ok (g : MancalaGame) (e : Z * Z) : Prop :=
  (e.1 = 1 ∨ e.1 = 2) ∧ 1 <= e.2 <= pits_per_player g.

(** A list of integers in strictly ascending order. *)
Fixpoint ascending (l : list Z) : Prop :=
  match l with
  | [] => True
  | x :: rest => match rest with [] => True | y :: _ => x < y end ∧ ascending rest
  end.

(** A generator that draws from the list it is given. *)
Definition draws_from_list {R : Type} (choice : R → list Z → outcome Z * R) : Prop :=
  ∀ r l, l ≠ [] → ∃ x r', choice r l = (Return x, r') ∧ x ∈ l.

(** A generator for the examples: it draws the first element. *)
Definition first_choice (r : unit) (l : list Z) : outcome Z * unit :=
  match l with
  | [] => (Raise IndexError, r)
  | x :: _ => (Return x, r)
  end.

(** Play the pits of a list one after the other. *)
Definition replay (pits : list Z) : M unit :=
  for_each pits (λ pit, play pit ;; ret tt).

(** The sowing goes round the board without the opponent's store: a
    circuit of [n - 1] cells.  [ring_pos] is the place of a cell on it,
    counted from the cell after the skipped one; [ring_start] is the
    place the sowing stands at; [visits] is the number of stones a sowing
    of [stones] stones from there drops into cell [i]. *)
Definition ring_pos (n opp i : Z) : Z := (i - opp - 1) `mod` n.
Definition ring_start (n opp cur : Z) : Z :=
  if cur =? opp then -1 else ring_pos n opp cur.
Definition visits (n opp cur stones i : Z) : Z :=
  if i =? opp then 0
  else (stones + (n - 2) - (ring_pos n opp i - ring_start n opp cur - 1) `mod` (n - 1))
         `div` (n - 1).

(** The states the search can come to see: the initial state of
    [MancalaAI] and what [result] makes of them. *)
Inductive built (pits stones : Z) : GameState.t MancalaGame → Prop :=
| built_initial s :
    MancalaAI.initial_by_value pits stones = Return s → built pits stones s
| built_result s a s' :
    built pits stones s → result s a = Return s' → built pits stones s'.

(** The search values that are numbers between [lo] and [hi]. *)
Definition within (lo hi : Z) (x : ext) : Prop := ∃ u, x = Fin u ∧ lo <= u <= hi.

(** Sums over a range of indices. *)
Definition zsum (f : Z → Z) (a c : Z) : Z := Py.sum (map f (Py.range a c)).

(** A measure of how far a game has gone.  Every stone counts with the
    weight of the cell it lies in: the pits of a side weigh [1], ..., [P]
    in the direction of play, and a store weighs [(N + 1) * P], more than
    [N] stones in pits can. *)
Definition weight (P N i : Z) : Z :=
  if (i =? P) || (i =? 2 * P + 1) then (N + 1) * P else i `mod` (P + 1) + 1.
Definition wsum (P N : Z) (b : list Z) : Z :=
  zsum (λ i, weight P N i * cell b i) 0 (2 * P + 2).
Definition progress (g : MancalaGame) : Z :=
  wsum (pits_per_player g) (Py.sum (board g)) (board g).

(** * Proofs *)

(** ** Concrete runs *)

Example new_game_6x4 : new_game 6 4 = Return game_6x4.
Proof. reflexivity. Qed.

Example play_6x4_pit3 :
  play 3 game_6x4 = (Return true, mkGame 6 4 [4;4;0;5;5;5;1;4;4;4;4;4;4;0] 1 [(1,3)]).
Proof. vm_compute. reflexivity. Qed.

Example play_6x4_pit1 :
  play 1 game_6x4 = (Return true, mkGame 6 4 [0;5;5;5;5;4;0;4;4;4;4;4;4;0] 2 [(1,1)]).
Proof. vm_compute. reflexivity. Qed.

Example play_6x4_pit7 :
  play 7 game_6x4 = (Raise (ValueError "Invalid move: pit 7"), game_6x4).
Proof. vm_compute. reflexivity. Qed.

Example initial_3x2 : MancalaAI.initial_by_value 3 2 = Return state_3x2.
Proof. reflexivity. Qed.

(** ** Python list primitives *)

Section PyFacts.
Implicit Types (l : list Z) (i v : Z) (k : nat).

Lemma norm_index_in l i :
  0 <= i < Py.len l → Py.norm_index l i = Some (Z.to_nat i).
Proof.
  intros [H0 H1]. unfold Py.norm_index.
  destruct (Z.leb_spec 0 i); [|lia].
  destruct (Z.ltb_spec i (Py.len l)); [done|lia].
Qed.

Lemma norm_index_lt l i k : Py.norm_index l i = Some k → (k < length l)%nat.
Proof.
  unfold Py.norm_index, Py.len.
  destruct (Z.leb_spec 0 i).
  - destruct (Z.ltb_spec i (Z.of_nat (length l))); [|done]. intros [= <-]. lia.
  - destruct (Z.leb_spec 0 (i + Z.of_nat (length l))); [|done]. intros [= <-]. lia.
Qed.

Lemma getitem_in l i :
  0 <= i < Py.len l → Py.getitem l i = Some (cell l i).
Proof.
  intros Hi. unfold Py.getitem, cell. rewrite norm_index_in by done.
  destruct (Z.leb_spec 0 i); [|lia].
  destruct (lookup_lt_is_Some_2 l (Z.to_nat i)) as [x Hx].
  { unfold Py.len in Hi. lia. }
  by rewrite Hx.
Qed.

Lemma setitem_in l i v :
  0 <= i < Py.len l → Py.setitem l i v = Some (<[Z.to_nat i:=v]> l).
Proof. intros Hi. unfold Py.setitem. by rewrite norm_index_in. Qed.

Lemma len_insert l k v : Py.len (<[k:=v]> l) = Py.len l.
Proof. unfold Py.len. by rewrite length_insert. Qed.

Lemma cell_insert l i j v :
  0 <= i < Py.len l →
  cell (<[Z.to_nat i:=v]> l) j = if i =? j then v else cell l j.
Proof.
  intros Hi. unfold cell. destruct (Z.leb_spec 0 j).
  - destruct (Z.eqb_spec i j) as [->|Hne].
    + rewrite list_lookup_insert_eq; [done|]. unfold Py.len in Hi. lia.
    + rewrite list_lookup_insert_ne; [done|]. lia.
  - destruct (Z.eqb_spec i j); [lia|done].
Qed.

Lemma cell_nonneg l i : Forall (λ v, 0 <= v) l → 0 <= cell l i.
Proof.
  intros Hl. unfold cell. destruct (0 <=? i); [|lia].
  destruct (l !! Z.to_nat i) as [x|] eqn:Hx; simpl; [|lia].
  by eapply (Forall_lookup_1 _ l).
Qed.

Lemma sum_app l1 l2 : Py.sum (l1 ++ l2) = Py.sum l1 + Py.sum l2.
Proof. induction l1 as [|x l1 IH]; simpl; [done|]. unfold Py.sum in *. simpl. lia. Qed.

Lemma sum_insert l k v x :
  l !! k = Some x → Py.sum (<[k:=v]> l) = Py.sum l - x + v.
Proof.
  revert k. induction l as [|y l IH]; intros [|k] Hk; simplify_eq/=.
  - unfold Py.sum. simpl. lia.
  - unfold Py.sum in *. simpl. rewrite (IH _ Hk). lia.
Qed.

Lemma sum_insert_cell l i v :
  0 <= i < Py.len l → Py.sum (<[Z.to_nat i:=v]> l) = Py.sum l - cell l i + v.
Proof.
  intros Hi. destruct (lookup_lt_is_Some_2 l (Z.to_nat i)) as [x Hx].
  { unfold Py.len in Hi. lia. }
  rewrite (sum_insert _ _ _ _ Hx). unfold cell.
  destruct (Z.leb_spec 0 i); [|lia]. by rewrite Hx.
Qed.

Lemma sum_nonneg l : Forall (λ v, 0 <= v) l → 0 <= Py.sum l.
Proof. induction 1; unfold Py.sum in *; simpl; lia. Qed.

Lemma sum_zero_all l :
  Forall (λ v, 0 <= v) l → Py.sum l = 0 → Forall (λ v, v = 0) l.
Proof.
  induction 1 as [|x l Hx Hl IH]; [constructor|].
  unfold Py.sum in *. simpl. intros Hs.
  pose proof (sum_nonneg l Hl) as Hn. unfold Py.sum in Hn.
  constructor; [lia|]. apply IH. lia.
Qed.

Lemma Forall_insert_nonneg l k v :
  Forall (λ v, 0 <= v) l → 0 <= v → Forall (λ v, 0 <= v) (<[k:=v]> l).
Proof. intros Hl Hv. by apply Forall_insert. Qed.

End PyFacts.

(** ** Reading and writing the board *)

Lemma board_get_in g i :
  0 <= i < Py.len (board g) → board_get i g = (Return (cell (board g) i), g).
Proof. intros Hi. unfold board_get. by rewrite getitem_in. Qed.

Lemma board_set_in g i v :
  0 <= i < Py.len (board g) →
  board_set i v g = (Return tt, set_board (<[Z.to_nat i:=v]> (board g)) g).
Proof. intros Hi. unfold board_set. by rewrite setitem_in. Qed.

Lemma set_board_set_board b b' g : set_board b (set_board b' g) = set_board b g.
Proof. done. Qed.

Lemma set_board_id g : set_board (board g) g = g.
Proof. by destruct g. Qed.

Lemma bind_get {B} (k : MancalaGame → M B) g : bind get k g = k g g.
Proof. done. Qed.

Lemma bind_ret {A B} (a : A) (k : A → M B) g : bind (ret a) k g = k a g.
Proof. done. Qed.

Lemma bind_modify {B} f (k : unit → M B) g : bind (modify f) k g = k tt (f g).
Proof. done. Qed.

Lemma bind_board_get {B} i (k : Z → M B) g :
  0 <= i < Py.len (board g) → bind (board_get i) k g = k (cell (board g) i) g.
Proof. intros Hi. unfold bind. by rewrite board_get_in. Qed.

Lemma bind_board_set {B} i v (k : unit → M B) g :
  0 <= i < Py.len (board g) →
  bind (board_set i v) k g = k tt (set_board (<[Z.to_nat i:=v]> (board g)) g).
Proof. intros Hi. unfold bind. by rewrite board_set_in. Qed.

Lemma bind_run {A B} (c : M A) (k : A → M B) g a g' :
  c g = (Return a, g') → bind c k g = k a g'.
Proof. intros Hc. unfold bind. by rewrite Hc. Qed.

(** The next index of the sowing never hits the skipped store twice in a
    row. *)
Lemma next_index_bounds n cur : 1 <= n → 0 <= (cur + 1) `mod` n < n.
Proof. intros. apply Z.mod_pos_bound. lia. Qed.

Lemma next_index_moves n cur : 2 <= n → 0 <= cur < n → (cur + 1) `mod` n ≠ cur.
Proof.
  intros Hn Hc. destruct (Z.eq_dec (cur + 1) n) as [Heq|Hne].
  - rewrite Heq, Z_mod_same_full. lia.
  - rewrite Z.mod_small; lia.
Qed.

(** ** The sowing loop *)

Lemma distribute_loop_spec fuel : ∀ n opp cur stones g,
  n = Py.len (board g) → 2 <= n → 0 <= cur < n →
  2 * stones - (if cur =? opp then 1 else 0) <= Z.of_nat fuel →
  ∃ final b',
    distribute_loop fuel n opp cur stones g = (Return final, set_board b' g) ∧
    Py.len b' = n ∧ 0 <= final < n ∧
    Py.sum b' = Py.sum (board g) + Z.max 0 stones ∧
    (∀ i, cell (board g) i <= cell b' i) ∧
    cell b' opp = cell (board g) opp ∧
    (Forall (λ v, 0 <= v) (board g) → Forall (λ v, 0 <= v) b') ∧
    (0 < stones → final ≠ opp) ∧
    (stones <= 0 → final = cur).
Proof.
  induction fuel as [|fuel IH]; intros n opp cur stones g Hn Hn2 Hcur Hfuel.
  - assert (stones <= 0) as Hs by (destruct (cur =? opp); lia).
    exists cur, (board g). simpl.
    destruct (Z.gtb_spec stones 0); [lia|].
    rewrite set_board_id. repeat split; try done; try lia.
  - simpl. destruct (Z.gtb_spec stones 0) as [Hpos|Hs].
    2:{ exists cur, (board g). rewrite set_board_id.
        repeat split; try done; try lia. }
    destruct (Z.eqb_spec n 0); [lia|].
    pose proof (next_index_bounds n cur ltac:(lia)) as Hnext.
    set (nxt := (cur + 1) `mod` n) in *.
    destruct (Z.eqb_spec nxt opp) as [Heq|Hne].
    + assert (cur ≠ opp) as Hco.
      { intros ->. by apply (next_index_moves n opp). }
      destruct (Z.eqb_spec cur opp); [done|].
      destruct (IH n opp nxt stones g Hn Hn2 Hnext) as (final & b' & Hrun & Hrest).
      { destruct (Z.eqb_spec nxt opp); lia. }
      exists final, b'. split; [done|].
      destruct Hrest as (? & ? & ? & ? & ? & ? & ? & ?).
      repeat split; try done; lia.
    + unfold bind at 1. rewrite board_get_in by lia.
      unfold bind at 1. rewrite board_set_in by lia.
      set (b1 := <[Z.to_nat nxt:=cell (board g) nxt + 1]> (board g)).
      destruct (IH n opp nxt (stones - 1) (set_board b1 g)) as (final & b' & Hrun & Hrest).
      { simpl. unfold b1. by rewrite len_insert. }
      { done. } { done. }
      { destruct (Z.eqb_spec nxt opp); [done|]. destruct (cur =? opp); lia. }
      rewrite set_board_set_board in Hrun. simpl in Hrest.
      exists final, b'. split; [done|].
      destruct Hrest as (Hlen & Hfin & Hsum & Hmono & Hopp & Hnn & Hfo & Hfc).
      repeat split; try done; try lia.
      * rewrite Hsum. unfold b1. rewrite sum_insert_cell by lia. lia.
      * intros i. etrans; [|apply Hmono]. unfold b1.
        rewrite cell_insert by lia. destruct (Z.eqb_spec nxt i); subst; lia.
      * rewrite Hopp. unfold b1. rewrite cell_insert by lia.
        destruct (Z.eqb_spec nxt opp); [done|done].
      * intros Hb. apply Hnn. unfold b1. apply Forall_insert_nonneg; [done|].
        pose proof (cell_nonneg (board g) nxt Hb). lia.
Qed.
Lemma distribute_stones_spec g idx pm opp :
  2 <= Py.len (board g) → 0 <= idx < Py.len (board g) → idx ≠ opp →
  ∃ final b',
    _distribute_stones idx pm opp g = (Return final, set_board b' g) ∧
    Py.len b' = Py.len (board g) ∧ 0 <= final < Py.len (board g) ∧
    (0 <= cell (board g) idx → Py.sum b' = Py.sum (board g)) ∧
    (∀ i, i ≠ idx → cell (board g) i <= cell b' i) ∧
    cell b' opp = cell (board g) opp ∧
    (Forall (λ v, 0 <= v) (board g) → Forall (λ v, 0 <= v) b') ∧
    (0 < cell (board g) idx → final ≠ opp).
Proof.
  intros Hn Hidx Hne. unfold _distribute_stones.
  rewrite bind_get, bind_board_get, bind_board_set by done.
  set (stones := cell (board g) idx).
  set (b0 := <[Z.to_nat idx:=0]> (board g)).
  destruct (distribute_loop_spec (Z.to_nat (2 * stones)) (Py.len (board g)) opp idx stones
              (set_board b0 g)) as (final & b' & Hrun & Hlen & Hfin & Hsum & Hmono & Hopp & Hnn & Hfo & _).
  { simpl. unfold b0. by rewrite len_insert. }
  { done. } { done. }
  { destruct (idx =? opp); lia. }
  rewrite set_board_set_board in Hrun. simpl in *.
  exists final, b'. split; [done|]. repeat split; try done; try lia.
  - intros Hs. rewrite Hsum. unfold b0. rewrite sum_insert_cell by done. fold stones. lia.
  - intros i Hi. etrans; [|apply Hmono]. unfold b0. rewrite cell_insert by done.
    destruct (Z.eqb_spec idx i); [done|lia].
  - rewrite Hopp. unfold b0. rewrite cell_insert by done.
    destruct (Z.eqb_spec idx opp); done.
  - intros Hb. apply Hnn. unfold b0. by apply Forall_insert_nonneg.
Qed.
Lemma bind_assoc {A B C} (c : M A) (f : A → M B) (k : B → M C) g :
  bind (bind c f) k g = bind c (λ x, bind (f x) k) g.
Proof. unfold bind. destruct (c g) as [[a| |] g']; done. Qed.

(** ** The capture block *)

Lemma on_player_side_range g i p :
  _is_on_player_side g i p = true →
  0 <= i <= 2 * pits_per_player g ∧ i ≠ pits_per_player g ∧
  (p = 1 → 0 <= i < pits_per_player g) ∧
  (p ≠ 1 → pits_per_player g < i <= 2 * pits_per_player g) ∨ pits_per_player g < 0.
Proof.
  unfold _is_on_player_side, _p1_pits_start, _p1_pits_end, _p2_pits_start, _p2_pits_end,
    board_size_of.
  destruct (Z.eqb_spec p 1); intros [H1 H2]%andb_true_iff; lia.
Qed.

Lemma capture_block_spec g final :
  wf g → 0 <= final < Py.len (board g) →
  capture_block final (mover_mancala g) g =
    (Return tt, if captures g final then set_board (capture_board g final) g else g).
Proof.
  intros (HP & Hlen & _) Hfin. unfold board_size_of in Hlen.
  unfold capture_block, captures. rewrite bind_get.
  destruct (_is_on_player_side g final (current_player g)) eqn:Hside; simpl.
  2:{ by rewrite bind_ret. }
  rewrite bind_assoc.
  rewrite bind_board_get by done. rewrite !bind_ret.
  destruct (cell (board g) final =? 1) eqn:Hone; simpl; [|done].
  apply on_player_side_range in Hside as [(Hr & Hne & _)|?]; [|lia].
  unfold _get_opposite_pit in *.
  set (opp := 2 * pits_per_player g - final) in *.
  assert (0 <= opp < Py.len (board g)) as Hopp by (unfold opp; lia).
  destruct (Z.leb_spec 0 opp); [|lia].
  destruct (Z.ltb_spec opp (Py.len (board g))); [|lia]. simpl.
  rewrite bind_assoc, bind_board_get by done. rewrite bind_ret.
  destruct (cell (board g) opp >? 0) eqn:Hpos; [|done].
  assert (0 <= mover_mancala g < Py.len (board g)) as Hm.
  { unfold mover_mancala, _p1_mancala, _p2_mancala, board_size_of.
    destruct (current_player g =? 1); lia. }
  rewrite bind_board_get by done.
  rewrite bind_board_set by done.
  rewrite bind_board_set by (simpl; rewrite len_insert; done).
  rewrite bind_board_get by (simpl; rewrite !len_insert; done).
  rewrite board_set_in by (simpl; rewrite !len_insert; done).
  reflexivity.
Qed.
Lemma mover_mancala_range g :
  wf g → 0 <= mover_mancala g < Py.len (board g).
Proof.
  intros (HP & Hlen & _). unfold mover_mancala, _p1_mancala, _p2_mancala.
  rewrite Hlen. unfold board_size_of. destruct (current_player g =? 1); lia.
Qed.

Lemma captures_facts g final :
  wf g → captures g final = true →
  let opp := _get_opposite_pit g final in
  0 <= final < Py.len (board g) ∧ 0 <= opp < Py.len (board g) ∧
  final ≠ opp ∧ final ≠ mover_mancala g ∧ opp ≠ mover_mancala g ∧
  final ≠ opponent_mancala g ∧ opp ≠ opponent_mancala g ∧
  cell (board g) final = 1 ∧ 0 < cell (board g) opp.
Proof.
  intros (HP & Hlen & _) Hc. unfold captures in Hc.
  apply andb_true_iff in Hc as [[Hside Hone]%andb_true_iff Hpos].
  apply on_player_side_range in Hside as [(Hr & Hne & H1 & H2)|?]; [|lia].
  unfold _get_opposite_pit in *. rewrite Hlen.
  unfold mover_mancala, opponent_mancala, _p1_mancala, _p2_mancala, board_size_of.
  destruct (Z.eqb_spec (current_player g) 1) as [Hp|Hp];
    [specialize (H1 Hp)|specialize (H2 Hp)]; lia.
Qed.

Lemma capture_board_cell g final i :
  wf g → captures g final = true →
  cell (capture_board g final) i =
    if i =? mover_mancala g
    then cell (board g) i + cell (board g) (_get_opposite_pit g final) + 1
    else if (i =? final) || (i =? _get_opposite_pit g final) then 0
    else cell (board g) i.
Proof.
  intros Hwf Hc. pose proof (captures_facts g final Hwf Hc) as Hf. simpl in Hf.
  destruct Hf as (Hfin & Hopp & Hne & Hfm & Hom & _ & _ & Hone & Hpos).
  pose proof (mover_mancala_range g Hwf) as Hm.
  unfold capture_board.
  rewrite !cell_insert by (rewrite ?len_insert; lia).
  set (opp := _get_opposite_pit g final) in *. set (mm := mover_mancala g) in *.
  destruct (Z.eqb_spec mm i), (Z.eqb_spec i mm), (Z.eqb_spec final i), (Z.eqb_spec i final),
    (Z.eqb_spec opp i), (Z.eqb_spec i opp), (Z.eqb_spec final mm), (Z.eqb_spec opp mm);
    simpl; try lia; try (subst i; lia).
Qed.

Lemma capture_board_len g final : Py.len (capture_board g final) = Py.len (board g).
Proof. unfold capture_board. by rewrite !len_insert. Qed.

Lemma capture_board_sum g final :
  wf g → captures g final = true → Py.sum (capture_board g final) = Py.sum (board g).
Proof.
  intros Hwf Hc. pose proof (captures_facts g final Hwf Hc) as Hf. simpl in Hf.
  destruct Hf as (Hfin & Hopp & Hne & Hfm & Hom & _ & _ & Hone & Hpos).
  pose proof (mover_mancala_range g Hwf) as Hm.
  unfold capture_board.
  rewrite !sum_insert_cell by (rewrite ?len_insert; lia).
  rewrite !cell_insert by (rewrite ?len_insert; lia).
  set (opp := _get_opposite_pit g final) in *. set (mm := mover_mancala g) in *.
  destruct (Z.eqb_spec final mm), (Z.eqb_spec opp mm), (Z.eqb_spec opp final); lia.
Qed.

Lemma capture_board_nonneg g final :
  wf g → captures g final = true → Forall (λ v, 0 <= v) (capture_board g final).
Proof.
  intros Hwf Hc. pose proof Hwf as (_ & _ & Hnn).
  pose proof (captures_facts g final Hwf Hc) as Hf. simpl in Hf.
  unfold capture_board. repeat apply Forall_insert_nonneg; try done.
  match goal with |- 0 <= cell ?b ?i + _ => pose proof (cell_nonneg b i) as H1 end.
  pose proof (cell_nonneg (board g) (_get_opposite_pit g final) Hnn).
  assert (0 <= cell
    (<[Z.to_nat final:=0]> (<[Z.to_nat (_get_opposite_pit g final):=0]> (board g)))
    (mover_mancala g)); [|lia].
  apply H1. repeat apply Forall_insert_nonneg; done.
Qed.
(** ** Ranges, slices and the sweep *)

Lemma range_nil a c : c <= a → Py.range a c = [].
Proof. intros H. unfold Py.range. by replace (Z.to_nat (c - a)) with 0%nat by lia. Qed.

Lemma range_cons a c : a < c → Py.range a c = a :: Py.range (a + 1) c.
Proof.
  intros H. unfold Py.range.
  replace (Z.to_nat (c - a)) with (S (Z.to_nat (c - (a + 1)))) by lia.
  simpl. f_equal; [lia|]. rewrite <- seq_shift, map_map.
  apply map_ext. intros k. lia.
Qed.

Lemma range_sum_nil b a c : c <= a → range_sum b a c = 0.
Proof. intros H. unfold range_sum. by rewrite range_nil. Qed.

Lemma range_sum_cons b a c :
  a < c → range_sum b a c = cell b a + range_sum b (a + 1) c.
Proof. intros H. unfold range_sum. by rewrite range_cons. Qed.

Lemma range_ind (P : Z → Prop) c :
  (∀ a, c <= a → P a) → (∀ a, a < c → P (a + 1) → P a) → ∀ a, P a.
Proof.
  intros Hnil Hcons a.
  remember (Z.to_nat (c - a)) as n eqn:Hn. revert a Hn.
  induction n as [|n IH]; intros a Hn.
  - apply Hnil. lia.
  - apply Hcons; [lia|]. apply IH. lia.
Qed.

Lemma range_sum_nonneg b a c : Forall (λ v, 0 <= v) b → 0 <= range_sum b a c.
Proof.
  intros Hb. revert a. apply (range_ind _ c); intros a Ha.
  - by rewrite range_sum_nil.
  - intros IH. rewrite range_sum_cons by done.
    pose proof (cell_nonneg b a Hb). lia.
Qed.

Lemma range_sum_zero b a c :
  Forall (λ v, 0 <= v) b → range_sum b a c = 0 → ∀ i, a <= i < c → cell b i = 0.
Proof.
  intros Hb. revert a. apply (range_ind (λ a, range_sum b a c = 0 → ∀ i, a <= i < c → cell b i = 0) c);
    intros a Ha.
  - intros _ i Hi. lia.
  - intros IH. rewrite range_sum_cons by done. intros Hs i Hi.
    pose proof (cell_nonneg b a Hb). pose proof (range_sum_nonneg b (a + 1) c Hb).
    destruct (Z.eq_dec i a) as [->|Hne]; [lia|]. apply IH; lia.
Qed.

Lemma range_sum_all_zero b a c :
  (∀ i, a <= i < c → cell b i = 0) → range_sum b a c = 0.
Proof.
  revert a. apply (range_ind (λ a, (∀ i, a <= i < c → cell b i = 0) → range_sum b a c = 0) c);
    intros a Ha.
  - intros _. by rewrite range_sum_nil.
  - intros IH Hz. rewrite range_sum_cons by done.
    rewrite (Hz a) by lia. rewrite IH; [done|]. intros i Hi. apply Hz. lia.
Qed.

Lemma range_sum_ext b b' a c :
  (∀ i, a <= i < c → cell b i = cell b' i) → range_sum b a c = range_sum b' a c.
Proof.
  revert a. apply (range_ind (λ a, (∀ i, a <= i < c → cell b i = cell b' i) →
                                   range_sum b a c = range_sum b' a c) c); intros a Ha.
  - intros _. rewrite !range_sum_nil by done. done.
  - intros IH Hz. rewrite (range_sum_cons b), (range_sum_cons b') by done.
    rewrite (Hz a) by lia. rewrite IH; [done|]. intros i Hi. apply Hz. lia.
Qed.

(** A slice with bounds inside the list is the cells of the range. *)
Lemma slice_cells b a c :
  0 <= a → a <= c → c <= Py.len b → Py.slice b a c = map (cell b) (Py.range a c).
Proof.
  intros Ha Hac Hc. unfold Py.slice, Py.clamp.
  destruct (Z.ltb_spec a 0); [lia|]. destruct (Z.ltb_spec c 0); [lia|].
  rewrite !Z.min_l by lia. unfold Py.range. rewrite map_map.
  apply list_eq. intros k.
  rewrite list_lookup_fmap.
  destruct (decide (k < Z.to_nat (c - a))%nat) as [Hk|Hk].
  - rewrite lookup_take_lt by done. rewrite lookup_drop.
    rewrite lookup_seq_lt by done. simpl. unfold cell.
    destruct (Z.leb_spec 0 (a + Z.of_nat k)); [|lia].
    replace (Z.to_nat (a + Z.of_nat k)) with (Z.to_nat a + k)%nat by lia.
    destruct (lookup_lt_is_Some_2 b (Z.to_nat a + k)) as [x Hx].
    { unfold Py.len in Hc. lia. }
    by rewrite Hx.
  - rewrite lookup_take_ge by lia. rewrite lookup_seq_ge by lia. done.
Qed.

Lemma slice_sum b a c :
  0 <= a → a <= c → c <= Py.len b → Py.sum (Py.slice b a c) = range_sum b a c.
Proof. intros. unfold range_sum. by rewrite slice_cells. Qed.
Lemma sweep_pit_spec m i g :
  0 <= m < Py.len (board g) → 0 <= i < Py.len (board g) →
  sweep_pit m i g =
    (Return tt,
     set_board (<[Z.to_nat i:=0]>
                  (<[Z.to_nat m:=cell (board g) m + cell (board g) i]> (board g))) g).
Proof.
  intros Hm Hi. unfold sweep_pit.
  rewrite !bind_board_get by done. rewrite bind_board_set by done.
  rewrite board_set_in by (simpl; by rewrite len_insert). done.
Qed.

Lemma sweep_loop_spec m c : ∀ a g,
  0 <= a → c <= Py.len (board g) → 0 <= m < Py.len (board g) → ¬ (a <= m < c) →
  ∃ b',
    for_each (Py.range a c) (sweep_pit m) g = (Return tt, set_board b' g) ∧
    Py.len b' = Py.len (board g) ∧
    (∀ i, a <= i < c → cell b' i = 0) ∧
    (∀ i, ¬ (a <= i < c) → i ≠ m → cell b' i = cell (board g) i) ∧
    cell b' m = cell (board g) m + range_sum (board g) a c ∧
    Py.sum b' = Py.sum (board g) ∧
    (Forall (λ v, 0 <= v) (board g) → Forall (λ v, 0 <= v) b').
Proof.
  apply (range_ind (λ a, ∀ g, 0 <= a → c <= Py.len (board g) →
    0 <= m < Py.len (board g) → ¬ (a <= m < c) → ∃ b', _) c); intros a Hac.
  - intros g Ha Hc Hm Hout. exists (board g).
    rewrite range_nil, range_sum_nil by done. simpl. rewrite set_board_id.
    repeat split; try done; try lia.
  - intros IH g Ha Hc Hm Hout. rewrite range_cons, range_sum_cons by done. simpl.
    erewrite bind_run by (apply sweep_pit_spec; lia).
    set (b1 := <[Z.to_nat a:=0]> (<[Z.to_nat m:=cell (board g) m + cell (board g) a]> (board g))).
    assert (Py.len b1 = Py.len (board g)) as Hl1 by (unfold b1; by rewrite !len_insert).
    assert (∀ i, cell b1 i = if a =? i then 0
                             else if m =? i then cell (board g) m + cell (board g) a
                             else cell (board g) i) as Hc1.
    { intros i. unfold b1. rewrite !cell_insert by (rewrite ?len_insert; lia). done. }
    destruct (IH (set_board b1 g)) as (b' & Hrun & Hlen & Hz & Hsame & Hm' & Hsum & Hnn);
      simpl; try lia.
    rewrite set_board_set_board in Hrun. simpl in *.
    exists b'. split; [done|]. split; [lia|]. repeat split.
    + intros i Hi. destruct (Z.eq_dec i a) as [->|Hne].
      * rewrite Hsame by lia. rewrite Hc1. by rewrite Z.eqb_refl.
      * apply Hz. lia.
    + intros i Hi Him. rewrite Hsame by lia. rewrite Hc1.
      destruct (Z.eqb_spec a i); [lia|]. destruct (Z.eqb_spec m i); [lia|done].
    + rewrite Hm', Hc1. destruct (Z.eqb_spec a m); [lia|]. rewrite Z.eqb_refl.
      rewrite (range_sum_ext b1 (board g)); [lia|].
      intros i Hi. rewrite Hc1.
      destruct (Z.eqb_spec a i); [lia|]. destruct (Z.eqb_spec m i); [lia|done].
    + rewrite Hsum. unfold b1. rewrite !sum_insert_cell by (rewrite ?len_insert; lia).
      rewrite cell_insert by lia. destruct (Z.eqb_spec m a); lia.
    + intros Hb. apply Hnn. unfold b1.
      repeat apply Forall_insert_nonneg; try done.
      pose proof (cell_nonneg (board g) m Hb). pose proof (cell_nonneg (board g) a Hb). lia.
Qed.
Lemma is_terminal_wf g :
  wf g →
  is_terminal g =
    (range_sum (board g) 0 (pits_per_player g) =? 0)
    || (range_sum (board g) (pits_per_player g + 1) (2 * pits_per_player g + 1) =? 0).
Proof.
  intros (HP & Hlen & _). unfold board_size_of in Hlen.
  unfold is_terminal, p1_pits, p2_pits, _p1_pits_start, _p1_pits_end, _p2_pits_start,
    _p2_pits_end, board_size_of.
  rewrite !slice_sum by lia. do 4 f_equal; lia.
Qed.

Lemma mover_pits_sum_terminal g :
  wf g →
  Py.sum (Py.slice (board g) (fst (mover_pits g)) (snd (mover_pits g) + 1)) = 0 →
  is_terminal g = true.
Proof.
  intros Hwf. unfold is_terminal, mover_pits, p1_pits, p2_pits.
  destruct (current_player g =? 1); simpl; intros ->; simpl; [done|].
  by rewrite orb_true_r.
Qed.

Lemma sweep_remaining_spec g :
  wf g →
  ∃ b',
    _sweep_remaining_stones g = (Return tt, set_board b' g) ∧
    Py.len b' = Py.len (board g) ∧
    (∀ i, 0 <= i <= 2 * pits_per_player g → i ≠ pits_per_player g → cell b' i = 0) ∧
    cell b' (_p1_mancala g) =
      cell (board g) (_p1_mancala g) + range_sum (board g) 0 (pits_per_player g) ∧
    cell b' (_p2_mancala g) =
      cell (board g) (_p2_mancala g)
      + range_sum (board g) (pits_per_player g + 1) (2 * pits_per_player g + 1) ∧
    Py.sum b' = Py.sum (board g) ∧
    (Forall (λ v, 0 <= v) (board g) → Forall (λ v, 0 <= v) b').
Proof.
  intros (HP & Hlen & _). unfold board_size_of in Hlen.
  unfold _sweep_remaining_stones. rewrite bind_get.
  unfold _p1_pits_start, _p1_pits_end, _p2_pits_start, _p2_pits_end, _p1_mancala,
    _p2_mancala, board_size_of.
  set (P := pits_per_player g) in *.
  replace (P - 1 + 1) with P by lia. replace ((P + 1) * 2 - 2 + 1) with (2 * P + 1) by lia.
  destruct (sweep_loop_spec P P 0 g) as (b1 & Hrun1 & Hl1 & Hz1 & Hs1 & Hm1 & Hsum1 & Hnn1);
    try lia.
  erewrite bind_run by exact Hrun1.
  destruct (sweep_loop_spec ((P + 1) * 2 - 1) (2 * P + 1) (P + 1) (set_board b1 g))
    as (b2 & Hrun2 & Hl2 & Hz2 & Hs2 & Hm2 & Hsum2 & Hnn2); simpl; try lia.
  rewrite set_board_set_board in Hrun2. simpl in *.
  exists b2. split; [done|]. split; [lia|]. repeat split.
  - intros i Hi Hne. destruct (Z.le_gt_cases i P).
    + rewrite Hs2 by lia. apply Hz1. lia.
    + apply Hz2. lia.
  - rewrite Hs2 by lia. done.
  - rewrite Hm2. rewrite Hs1 by lia. f_equal.
    apply range_sum_ext. intros i Hi. apply Hs1; lia.
  - lia.
  - auto.
Qed.
(** ** The blocks of [play] *)

Lemma sweep_block_spec g :
  wf g → sweep_block (mover_pits g) g = (Return tt, sweep_stage g).
Proof.
  intros Hwf. unfold sweep_block, sweep_stage. rewrite bind_get.
  destruct (is_terminal g) eqn:Ht.
  - rewrite orb_true_r.
    destruct (sweep_remaining_spec g Hwf) as (b' & Hrun & _). by rewrite Hrun.
  - rewrite orb_false_r.
    destruct (Z.eqb_spec
      (Py.sum (Py.slice (board g) (mover_pits g).1 ((mover_pits g).2 + 1))) 0) as [Hz|]; [|done].
    apply (mover_pits_sum_terminal g Hwf) in Hz. congruence.
Qed.

Lemma turn_block_spec final g :
  turn_block final (mover_mancala g) g = (Return tt, turn_stage final g).
Proof.
  unfold turn_block, turn_stage. rewrite bind_get.
  by destruct (negb (final =? mover_mancala g) && negb (is_terminal g)).
Qed.

Lemma mover_pit_index_range g pit :
  wf g → 1 <= pit <= pits_per_player g →
  0 <= mover_pit_index g pit < Py.len (board g) ∧
  mover_pit_index g pit ≠ mover_mancala g ∧
  mover_pit_index g pit ≠ opponent_mancala g.
Proof.
  intros (HP & Hlen & _) Hpit. rewrite Hlen.
  unfold mover_pit_index, mover_mancala, opponent_mancala, _p1_pits_start, _p2_pits_start,
    _p1_mancala, _p2_mancala, board_size_of.
  destruct (current_player g =? 1); lia.
Qed.

Lemma is_valid_move_spec pit g :
  wf g →
  is_valid_move pit g =
    (Return ((1 <=? pit) && (pit <=? pits_per_player g)
             && (cell (board g) (mover_pit_index g pit) >? 0)), g).
Proof.
  intros Hwf. unfold is_valid_move. rewrite bind_get.
  destruct ((1 <=? pit) && (pit <=? pits_per_player g)) eqn:Hr; simpl; [|done].
  apply andb_true_iff in Hr as [H1%Z.leb_le H2%Z.leb_le].
  fold (mover_pit_index g pit).
  rewrite bind_board_get by (apply mover_pit_index_range; done || lia). done.
Qed.

Lemma wf_set_board g b :
  wf g → Py.len b = Py.len (board g) → Forall (λ v, 0 <= v) b → wf (set_board b g).
Proof. intros (HP & Hlen & _) Hl Hb. repeat split; simpl; [done| |done]. by rewrite Hl. Qed.

Lemma wf_capture_stage final g : wf g → wf (capture_stage final g).
Proof.
  intros Hwf. unfold capture_stage. destruct (captures g final) eqn:Hc; [|done].
  apply wf_set_board; [done|apply capture_board_len|by apply capture_board_nonneg].
Qed.

Lemma wf_sweep_stage g : wf g → wf (sweep_stage g).
Proof.
  intros Hwf. unfold sweep_stage. destruct (is_terminal g); [|done].
  destruct (sweep_remaining_spec g Hwf) as (b' & Hrun & Hlen & _ & _ & _ & _ & Hnn).
  rewrite Hrun. simpl. apply wf_set_board; [done..|]. apply Hnn, Hwf.
Qed.

Lemma wf_turn_stage final g : wf g → wf (turn_stage final g).
Proof. intros Hwf. unfold turn_stage. by destruct (_ && _). Qed.

(** The sowing of a legal move, as [play] runs it. *)
Lemma sow_spec pit g :
  wf g → is_valid_move pit g = (Return true, g) →
  ∃ final b',
    sow pit g = (Return final,
                 set_board b' (set_moves_history (moves_history g ++ [(current_player g, pit)]) g)) ∧
    Py.len b' = Py.len (board g) ∧ 0 <= final < Py.len (board g) ∧
    Py.sum b' = Py.sum (board g) ∧
    (∀ i, i ≠ mover_pit_index g pit → cell (board g) i <= cell b' i) ∧
    cell b' (opponent_mancala g) = cell (board g) (opponent_mancala g) ∧
    Forall (λ v, 0 <= v) b' ∧
    final ≠ opponent_mancala g.
Proof.
  intros Hwf Hv. rewrite is_valid_move_spec in Hv by done.
  injection Hv as Hv. apply andb_true_iff in Hv as [[H1%Z.leb_le H2%Z.leb_le]%andb_true_iff Hpos].
  apply Z.gtb_lt in Hpos.
  destruct (mover_pit_index_range g pit Hwf ltac:(lia)) as (Hidx & Him & Hio).
  pose proof Hwf as (HP & Hlen & Hnn). unfold board_size_of in Hlen.
  set (g1 := set_moves_history (moves_history g ++ [(current_player g, pit)]) g).
  destruct (distribute_stones_spec g1 (mover_pit_index g pit) (mover_mancala g)
              (opponent_mancala g)) as (final & b' & Hrun & Hl & Hf & Hsum & Hmono & Hopp & Hn & Hfo);
    simpl; try done; try lia.
  exists final, b'. unfold sow. fold g1. split; [done|]. simpl in *.
  repeat split; try done; try lia; auto.
Qed.
Lemma capture_stage_frame final g : ∃ b, capture_stage final g = set_board b g.
Proof.
  unfold capture_stage. destruct (captures g final); eauto.
  exists (board g). by rewrite set_board_id.
Qed.

Lemma sweep_stage_frame g : wf g → ∃ b, sweep_stage g = set_board b g.
Proof.
  intros Hwf. unfold sweep_stage. destruct (is_terminal g).
  - destruct (sweep_remaining_spec g Hwf) as (b' & -> & _). eauto.
  - exists (board g). by rewrite set_board_id.
Qed.

(** [play] on a legal move of a game that is not over: the sowing, then
    the three blocks. *)
Lemma play_stages pit g :
  wf g → is_terminal g = false → is_valid_move pit g = (Return true, g) →
  ∃ final gs,
    sow pit g = (Return final, gs) ∧
    play pit g = (Return true, turn_stage final (sweep_stage (capture_stage final gs))).
Proof.
  intros Hwf Ht Hv.
  destruct (sow_spec pit g Hwf Hv) as (final & b' & Hsow & Hl & Hf & _ & _ & _ & Hnn & _).
  set (g1 := set_moves_history (moves_history g ++ [(current_player g, pit)]) g) in *.
  set (gs := set_board b' g1) in *.
  assert (wf gs) as Hwfs.
  { apply wf_set_board; [|done..]. by destruct Hwf as (? & ? & ?). }
  exists final, gs. split; [done|].
  unfold play. rewrite bind_get, Ht. erewrite bind_run by exact Hv. change (negb true) with false. cbv iota.
  rewrite bind_modify, bind_get. fold g1.
  pose proof (capture_block_spec gs final Hwfs ltac:(simpl; lia)) as Hcap.
  pose proof (sweep_block_spec _ (wf_capture_stage final gs Hwfs)) as Hsw.
  pose proof (turn_block_spec final (sweep_stage (capture_stage final gs))) as Htu.
  destruct (capture_stage_frame final gs) as [bc Hbc].
  destruct (sweep_stage_frame _ (wf_capture_stage final gs Hwfs)) as [bw Hbw].
  assert (mover_mancala (sweep_stage (capture_stage final gs)) = mover_mancala gs) as Hmm.
  { rewrite Hbw, Hbc. done. }
  assert (mover_pits (capture_stage final gs) = mover_pits gs) as Hmp.
  { rewrite Hbc. done. }
  rewrite Hmm in Htu. rewrite Hmp in Hsw.
  unfold sow in Hsow. fold g1 in Hsow.
  unfold mover_pit_index, mover_mancala, opponent_mancala, mover_pits in *.
  change (current_player gs) with (current_player g) in *.
  change (current_player g1) with (current_player g) in *.
  destruct (current_player g =? 1);
    (erewrite bind_run by exact Hsow);
    (erewrite bind_run by exact Hcap);
    (erewrite bind_run by exact Hsw);
    (erewrite bind_run by exact Htu); done.
Qed.
(** ** When [play] raises and when it returns *)

Lemma play_terminal pit g :
  is_terminal g = true → play pit g = (Raise (ValueError "Game is already over"), g).
Proof. intros Ht. unfold play. by rewrite bind_get, Ht. Qed.

Lemma play_invalid pit g :
  is_terminal g = false → is_valid_move pit g = (Return false, g) →
  play pit g = (Raise (ValueError ("Invalid move: pit " +:+ pretty pit)), g).
Proof.
  intros Ht Hv. unfold play. rewrite bind_get, Ht. by erewrite bind_run by exact Hv.
Qed.

Lemma is_valid_move_cases pit g :
  wf g → is_valid_move pit g = (Return true, g) ∨ is_valid_move pit g = (Return false, g).
Proof.
  intros Hwf. rewrite is_valid_move_spec by done.
  destruct (_ && _); auto.
Qed.

Lemma play_success_inv pit g r g' :
  wf g → play pit g = (Return r, g') →
  is_terminal g = false ∧ is_valid_move pit g = (Return true, g).
Proof.
  intros Hwf Hp. destruct (is_terminal g) eqn:Ht.
  { by rewrite play_terminal in Hp. }
  destruct (is_valid_move_cases pit g Hwf) as [Hv|Hv]; [done|].
  by rewrite (play_invalid pit g Ht Hv) in Hp.
Qed.

(** ** Construction *)

Lemma sum_replicate n v : Py.sum (replicate n v) = Z.of_nat n * v.
Proof. induction n as [|n IH]; [done|]. unfold Py.sum in *. simpl. lia. Qed.

Lemma cell_replicate n v i : 0 <= i < Z.of_nat n → cell (replicate n v) i = v.
Proof.
  intros Hi. unfold cell. destruct (Z.leb_spec 0 i); [|lia].
  rewrite lookup_replicate_2 by lia. done.
Qed.

Lemma new_game_spec pits stones g :
  new_game pits stones = Return g →
  1 <= pits ∧ 0 <= stones ∧ wf g ∧
  pits_per_player g = pits ∧ stones_per_pit g = stones ∧
  current_player g = 1 ∧ moves_history g = [] ∧
  Py.sum (board g) = 2 * pits * stones ∧
  cell (board g) (_p1_mancala g) = 0 ∧ cell (board g) (_p2_mancala g) = 0.
Proof.
  unfold new_game.
  destruct (Z.ltb_spec pits 1); [done|]. destruct (Z.ltb_spec stones 0); [done|].
  set (n := Z.to_nat ((pits + 1) * 2)).
  assert (Py.len (replicate n stones) = (pits + 1) * 2) as Hl.
  { unfold Py.len. rewrite length_replicate. lia. }
  unfold _p1_mancala, _p2_mancala, board_size_of. cbn [pits_per_player set_board board].
  rewrite bind_board_set by (cbn [board set_board]; lia).
  rewrite board_set_in by (cbn [board set_board]; rewrite len_insert; lia).
  intros [= <-]. cbn [board set_board pits_per_player stones_per_pit current_player moves_history].
  split; [done|]. split; [done|]. split.
  { repeat split; simpl; [done| |].
    - rewrite !len_insert. exact Hl.
    - repeat apply Forall_insert_nonneg; try lia. by apply Forall_replicate. }
  repeat split.
  - rewrite !sum_insert_cell by (rewrite ?len_insert; lia).
    rewrite cell_insert by lia.
    destruct (Z.eqb_spec pits ((pits + 1) * 2 - 1)); [lia|].
    rewrite !cell_replicate by lia. rewrite sum_replicate. lia.
  - rewrite !cell_insert by (rewrite ?len_insert; lia).
    destruct (Z.eqb_spec ((pits + 1) * 2 - 1) pits); [done|]. by rewrite Z.eqb_refl.
  - rewrite !cell_insert by (rewrite ?len_insert; lia).
    by rewrite Z.eqb_refl.
Qed.

(** ** What the stages keep *)

Lemma capture_stage_sum final g :
  wf g → Py.sum (board (capture_stage final g)) = Py.sum (board g).
Proof.
  intros Hwf. unfold capture_stage. destruct (captures g final) eqn:Hc; [|done].
  by apply capture_board_sum.
Qed.

Lemma sweep_stage_sum g : wf g → Py.sum (board (sweep_stage g)) = Py.sum (board g).
Proof.
  intros Hwf. unfold sweep_stage. destruct (is_terminal g); [|done].
  destruct (sweep_remaining_spec g Hwf) as (b' & -> & _ & _ & _ & _ & Hs & _). done.
Qed.

Lemma turn_stage_board final g : board (turn_stage final g) = board g.
Proof. unfold turn_stage. by destruct (_ && _). Qed.

Lemma turn_stage_pits final g : pits_per_player (turn_stage final g) = pits_per_player g.
Proof. unfold turn_stage. by destruct (_ && _). Qed.

Lemma is_terminal_turn_stage final g : is_terminal (turn_stage final g) = is_terminal g.
Proof. unfold turn_stage. by destruct (_ && _). Qed.

(** A successful [play] keeps the game well formed and the stones on the
    board. *)
Lemma play_keeps pit g r g' :
  wf g → play pit g = (Return r, g') →
  wf g' ∧ Py.sum (board g') = Py.sum (board g) ∧
  pits_per_player g' = pits_per_player g ∧ stones_per_pit g' = stones_per_pit g.
Proof.
  intros Hwf Hp. destruct (play_success_inv pit g r g' Hwf Hp) as [Ht Hv].
  destruct (play_stages pit g Hwf Ht Hv) as (final & gs & Hsow & Hplay).
  rewrite Hplay in Hp. injection Hp as _ <-.
  destruct (sow_spec pit g Hwf Hv) as (final' & b' & Hsow' & Hl & Hf & Hsum & _ & _ & Hnn & _).
  rewrite Hsow in Hsow'. injection Hsow' as <- ->.
  set (gs := set_board b' _) in *.
  assert (wf gs) as Hwfs.
  { apply wf_set_board; [|done..]. by destruct Hwf as (? & ? & ?). }
  pose proof (wf_capture_stage final gs Hwfs) as Hwfc.
  split; [by apply wf_turn_stage, wf_sweep_stage|].
  rewrite turn_stage_board, sweep_stage_sum, capture_stage_sum by done.
  split; [done|].
  destruct (capture_stage_frame final gs) as [bc Hbc].
  destruct (sweep_stage_frame _ Hwfc) as [bw Hbw].
  unfold turn_stage. rewrite Hbw, Hbc. by destruct (_ && _).
Qed.

Lemma reachable_wf pits stones g :
  reachable pits stones g →
  wf g ∧ pits_per_player g = pits ∧ stones_per_pit g = stones.
Proof.
  induction 1 as [g Hnew|g pit g' _ (Hwf & HP & HS) Hplay].
  - by destruct (new_game_spec _ _ _ Hnew) as (_ & _ & ? & ? & ? & _).
  - destruct (play_keeps pit g true g' Hwf Hplay) as (? & _ & ? & ?).
    split; [done|]. split; congruence.
Qed.
Lemma new_game_total pits stones :
  1 <= pits → 0 <= stones → ∃ g, new_game pits stones = Return g.
Proof.
  intros HP HS. unfold new_game.
  destruct (Z.ltb_spec pits 1); [lia|]. destruct (Z.ltb_spec stones 0); [lia|].
  assert (Py.len (replicate (Z.to_nat ((pits + 1) * 2)) stones) = (pits + 1) * 2) as Hl.
  { unfold Py.len. rewrite length_replicate. lia. }
  unfold _p1_mancala, _p2_mancala, board_size_of. cbn [pits_per_player set_board board].
  rewrite bind_board_set by (cbn [board set_board]; lia).
  rewrite board_set_in by (cbn [board set_board]; rewrite len_insert; lia).
  eauto.
Qed.

(** C1. Conservation: a game built by [new_game pits stones] (which needs
    [1 <= pits] and [0 <= stones], and then always succeeds) holds
    [2 * pits * stones] stones in every state it reaches by successful
    [play] calls, before and after each call, the call that triggers the
    final sweep included. *)
Theorem stones_conserved pits stones :
  1 <= pits → 0 <= stones →
  (∃ g0, new_game pits stones = Return g0) ∧
  ∀ g, reachable pits stones g →
    Py.sum (board g) = 2 * pits * stones ∧
    ∀ pit g', play pit g = (Return true, g') → Py.sum (board g') = 2 * pits * stones.
Proof.
  intros HP HS. split; [by apply new_game_total|].
  assert (∀ g, reachable pits stones g → Py.sum (board g) = 2 * pits * stones) as Hsum.
  { induction 1 as [g Hnew|g pit g' Hr IH Hplay].
    - by destruct (new_game_spec _ _ _ Hnew) as (_ & _ & _ & _ & _ & _ & _ & ? & _).
    - destruct (reachable_wf _ _ _ Hr) as (Hwf & _).
      destruct (play_keeps pit g true g' Hwf Hplay) as (_ & -> & _). done. }
  intros g Hr. split; [by apply Hsum|].
  intros pit g' Hplay. apply Hsum. by eapply reach_play.
Qed.

(** A one-pit game with three stones a side: the only move goes once
    round the board, captures and ends the game. *)
Lemma stones_conserved_witness :
  Py.sum (board (mkGame 1 3 [3; 0; 3; 0] 1 [])) = 2 * 1 * 3 ∧
  Py.sum (board (mkGame 1 3 [0; 6; 0; 0] 1 [(1, 1)])) = 2 * 1 * 3.
Proof.
  destruct (stones_conserved 1 3 ltac:(lia) ltac:(lia)) as [_ H].
  destruct (H (mkGame 1 3 [3; 0; 3; 0] 1 [])) as [H0 H1].
  { apply reach_new. reflexivity. }
  split; [exact H0|]. apply (H1 1). vm_compute. reflexivity.
Defined.
(** ** The stores only grow *)

Lemma is_store_mover g i :
  is_store g i ↔ i = mover_mancala g ∨ i = opponent_mancala g.
Proof.
  unfold is_store, mover_mancala, opponent_mancala.
  destruct (current_player g =? 1); tauto.
Qed.

Lemma score_cells g :
  wf g →
  p1_score g = Return (cell (board g) (_p1_mancala g)) ∧
  p2_score g = Return (cell (board g) (_p2_mancala g)).
Proof.
  intros (HP & Hlen & _). unfold p1_score, p2_score, _p1_mancala, _p2_mancala.
  rewrite !board_get_in by (rewrite Hlen; unfold board_size_of; lia). done.
Qed.

Lemma capture_stage_store final g i :
  wf g → is_store g i → cell (board g) i <= cell (board (capture_stage final g)) i.
Proof.
  intros Hwf Hi. unfold capture_stage. destruct (captures g final) eqn:Hc; [|done].
  simpl. rewrite capture_board_cell by done.
  pose proof (captures_facts g final Hwf Hc) as Hf. simpl in Hf.
  destruct Hf as (_ & _ & _ & Hfm & Hom & Hfo & Hoo & _ & Hpos).
  apply is_store_mover in Hi.
  destruct (Z.eqb_spec i (mover_mancala g)); [lia|].
  destruct Hi as [?| ->]; [done|].
  destruct (Z.eqb_spec (opponent_mancala g) final); [done|].
  destruct (Z.eqb_spec (opponent_mancala g) (_get_opposite_pit g final)); [done|].
  simpl. lia.
Qed.

Lemma sweep_stage_store g i :
  wf g → is_store g i → cell (board g) i <= cell (board (sweep_stage g)) i.
Proof.
  intros Hwf Hi. unfold sweep_stage. destruct (is_terminal g); [|done].
  destruct (sweep_remaining_spec g Hwf) as (b' & -> & _ & _ & H1 & H2 & _). simpl.
  pose proof Hwf as (_ & _ & Hnn).
  pose proof (range_sum_nonneg (board g) 0 (pits_per_player g) Hnn).
  pose proof (range_sum_nonneg (board g) (pits_per_player g + 1)
                (2 * pits_per_player g + 1) Hnn).
  destruct Hi as [->| ->]; lia.
Qed.

(** C10. A successful [play] never lowers a store: each player's score
    after the move is at least the score before it. *)
Theorem scores_never_decrease pit g g' :
  wf g → play pit g = (Return true, g') →
  ∃ a1 a2 b1 b2,
    p1_score g = Return a1 ∧ p2_score g = Return a2 ∧
    p1_score g' = Return b1 ∧ p2_score g' = Return b2 ∧
    a1 <= b1 ∧ a2 <= b2.
Proof.
  intros Hwf Hp. destruct (play_keeps pit g true g' Hwf Hp) as (Hwf' & _ & HP' & _).
  destruct (score_cells g Hwf) as [Hs1 Hs2]. destruct (score_cells g' Hwf') as [Hs1' Hs2'].
  do 4 eexists. do 4 (split; [eassumption|]).
  destruct (play_success_inv pit g true g' Hwf Hp) as [Ht Hv].
  destruct (play_stages pit g Hwf Ht Hv) as (final & gs & Hsow & Hplay).
  rewrite Hplay in Hp. injection Hp as <-.
  destruct (sow_spec pit g Hwf Hv) as (final' & b' & Hsow' & Hl & Hf & _ & Hmono & _ & Hnn & _).
  rewrite Hsow in Hsow'. injection Hsow' as <- ->.
  set (gs := set_board b' _) in *.
  assert (wf gs) as Hwfs.
  { apply wf_set_board; [|done..]. by destruct Hwf as (? & ? & ?). }
  pose proof (wf_capture_stage final gs Hwfs) as Hwfc.
  assert (is_valid_move pit g = (Return true, g)) as Hv' by done.
  rewrite is_valid_move_spec in Hv' by done. injection Hv' as Hv'.
  apply andb_true_iff in Hv' as [[H1%Z.leb_le H2%Z.leb_le]%andb_true_iff _].
  destruct (mover_pit_index_range g pit Hwf ltac:(lia)) as (_ & Him & Hio).
  assert (∀ i, is_store g i →
            cell (board g) i <= cell (board (turn_stage final (sweep_stage (capture_stage final gs)))) i)
    as Hstore.
  { intros i Hi. rewrite turn_stage_board.
    destruct (capture_stage_frame final gs) as [bc Hbc].
    etrans; [|apply sweep_stage_store; [done|]].
    2:{ rewrite Hbc. exact Hi. }
    etrans; [|apply capture_stage_store; [done|exact Hi]].
    simpl. apply Hmono. apply is_store_mover in Hi. destruct Hi; congruence. }
  unfold _p1_mancala, _p2_mancala, board_size_of in *. rewrite HP'.
  split; apply Hstore; [by left|by right].
Qed.

Lemma scores_never_decrease_witness :
  ∃ a1 a2 b1 b2,
    p1_score game_6x4 = Return a1 ∧ p2_score game_6x4 = Return a2 ∧
    p1_score (mkGame 6 4 [4;4;0;5;5;5;1;4;4;4;4;4;4;0] 1 [(1,3)]) = Return b1 ∧
    p2_score (mkGame 6 4 [4;4;0;5;5;5;1;4;4;4;4;4;4;0] 1 [(1,3)]) = Return b2 ∧
    a1 <= b1 ∧ a2 <= b2.
Proof.
  apply (scores_never_decrease 3).
  - repeat split; [simpl; lia|]. simpl. repeat constructor; lia.
  - vm_compute. reflexivity.
Defined.
(** ** The end of the game *)

Lemma is_terminal_sums g :
  is_terminal g = true ↔ Py.sum (p1_pits g) = 0 ∨ Py.sum (p2_pits g) = 0.
Proof.
  unfold is_terminal. rewrite orb_true_iff, !Z.eqb_eq. done.
Qed.

Lemma is_pit_range g i :
  is_pit g i ↔ 0 <= i <= 2 * pits_per_player g ∧ i ≠ pits_per_player g.
Proof.
  unfold is_pit, is_store, _p1_mancala, _p2_mancala, board_size_of. lia.
Qed.

Lemma sweep_stage_terminal g :
  wf g → is_terminal (sweep_stage g) = is_terminal g.
Proof.
  intros Hwf. unfold sweep_stage. destruct (is_terminal g) eqn:Ht; [|done].
  destruct (sweep_remaining_spec g Hwf) as (b' & Hrun & Hl & Hz & _ & _ & _ & Hnn).
  rewrite Hrun. simpl.
  assert (wf (set_board b' g)) as Hwf'.
  { apply wf_set_board; [done..|]. apply Hnn, Hwf. }
  rewrite is_terminal_wf by done. simpl.
  rewrite range_sum_all_zero; [done|]. intros i Hi. apply Hz; lia.
Qed.

Lemma sweep_stage_swept g :
  wf g → is_terminal g = true →
  (∀ i, is_pit g i → cell (board (sweep_stage g)) i = 0) ∧
  cell (board (sweep_stage g)) (_p1_mancala g) =
    cell (board g) (_p1_mancala g) + Py.sum (p1_pits g) ∧
  cell (board (sweep_stage g)) (_p2_mancala g) =
    cell (board g) (_p2_mancala g) + Py.sum (p2_pits g).
Proof.
  intros Hwf Ht. unfold sweep_stage. rewrite Ht.
  destruct (sweep_remaining_spec g Hwf) as (b' & -> & _ & Hz & H1 & H2 & _). simpl.
  destruct Hwf as (HP & Hlen & _). unfold board_size_of in Hlen.
  unfold p1_pits, p2_pits, _p1_pits_start, _p1_pits_end, _p2_pits_start, _p2_pits_end,
    board_size_of.
  rewrite !slice_sum by lia.
  split; [|split].
  - intros i Hi%is_pit_range. apply Hz; lia.
  - rewrite H1. do 2 f_equal. lia.
  - rewrite H2. do 2 f_equal; lia.
Qed.

(** C6. When a successful [play] leaves a side without stones, the game
    is over and every pit is empty: the end-of-game block has moved what
    was left in each player's pits into that player's store.  This holds
    for the state the move leaves before that block (the board after
    sowing and capture) and for the state [play] returns. *)
Theorem terminal_sweep pit g g' :
  wf g → play pit g = (Return true, g') →
  (Py.sum (p1_pits g') = 0 ∨ Py.sum (p2_pits g') = 0 →
   ∀ i, is_pit g' i → cell (board g') i = 0) ∧
  ∃ final gs,
    sow pit g = (Return final, gs) ∧
    let gc := capture_stage final gs in
    (Py.sum (p1_pits gc) = 0 ∨ Py.sum (p2_pits gc) = 0 →
     is_terminal g' = true ∧
     (∀ i, is_pit g' i → cell (board g') i = 0) ∧
     cell (board g') (_p1_mancala g') = cell (board gc) (_p1_mancala gc) + Py.sum (p1_pits gc) ∧
     cell (board g') (_p2_mancala g') = cell (board gc) (_p2_mancala gc) + Py.sum (p2_pits gc)).
Proof.
  intros Hwf Hp.
  destruct (play_success_inv pit g true g' Hwf Hp) as [Ht Hv].
  destruct (play_stages pit g Hwf Ht Hv) as (final & gs & Hsow & Hplay).
  rewrite Hplay in Hp. injection Hp as <-.
  destruct (sow_spec pit g Hwf Hv) as (final' & b' & Hsow' & Hl & Hf & _ & _ & _ & Hnn & _).
  rewrite Hsow in Hsow'. injection Hsow' as <- ->.
  set (gs := set_board b' _) in *.
  assert (wf gs) as Hwfs.
  { apply wf_set_board; [|done..]. by destruct Hwf as (? & ? & ?). }
  pose proof (wf_capture_stage final gs Hwfs) as Hwfc.
  set (gc := capture_stage final gs) in *.
  destruct (sweep_stage_frame gc Hwfc) as [bw Hbw].
  assert (∀ i, is_pit (turn_stage final (sweep_stage gc)) i ↔ is_pit gc i) as Hpit.
  { intros i. rewrite !is_pit_range, turn_stage_pits, Hbw. done. }
  assert (is_terminal gc = true →
          is_terminal (turn_stage final (sweep_stage gc)) = true ∧
          (∀ i, is_pit (turn_stage final (sweep_stage gc)) i →
                cell (board (turn_stage final (sweep_stage gc))) i = 0) ∧
          cell (board (turn_stage final (sweep_stage gc)))
               (_p1_mancala (turn_stage final (sweep_stage gc))) =
            cell (board gc) (_p1_mancala gc) + Py.sum (p1_pits gc) ∧
          cell (board (turn_stage final (sweep_stage gc)))
               (_p2_mancala (turn_stage final (sweep_stage gc))) =
            cell (board gc) (_p2_mancala gc) + Py.sum (p2_pits gc)) as Hmain.
  { intros Htc. destruct (sweep_stage_swept gc Hwfc Htc) as (Hz & H1 & H2).
    rewrite is_terminal_turn_stage, sweep_stage_terminal by done.
    split; [done|]. rewrite turn_stage_board.
    unfold _p1_mancala, _p2_mancala, board_size_of in *. rewrite turn_stage_pits.
    rewrite Hbw in *. split; [|done]. intros i Hi%Hpit. by apply Hz. }
  split.
  - intros Hs%is_terminal_sums.
    rewrite is_terminal_turn_stage, sweep_stage_terminal in Hs by done.
    by apply Hmain.
  - exists final, gs. split; [done|]. cbv zeta. intros Hs%is_terminal_sums. by apply Hmain.
Qed.

Lemma terminal_sweep_witness :
  let g' := mkGame 1 3 [0; 6; 0; 0] 1 [(1, 1)] in
  (Py.sum (p1_pits g') = 0 ∨ Py.sum (p2_pits g') = 0 →
   ∀ i, is_pit g' i → cell (board g') i = 0) ∧
  ∃ final gs,
    sow 1 (mkGame 1 3 [3; 0; 3; 0] 1 []) = (Return final, gs) ∧
    let gc := capture_stage final gs in
    (Py.sum (p1_pits gc) = 0 ∨ Py.sum (p2_pits gc) = 0 →
     is_terminal g' = true ∧
     (∀ i, is_pit g' i → cell (board g') i = 0) ∧
     cell (board g') (_p1_mancala g') = cell (board gc) (_p1_mancala gc) + Py.sum (p1_pits gc) ∧
     cell (board g') (_p2_mancala g') = cell (board gc) (_p2_mancala gc) + Py.sum (p2_pits gc)).
Proof.
  apply (terminal_sweep 1 (mkGame 1 3 [3; 0; 3; 0] 1 [])).
  - repeat split; [simpl; lia|]. simpl. repeat constructor; lia.
  - vm_compute. reflexivity.
Defined.

(** C7. On a well-formed game [play pit] raises exactly when the game is
    already over or [is_valid_move pit] is false, and returns [True]
    otherwise; it never returns on a pit for which [is_valid_move] is
    false; and when it raises, the game object is as it was (board,
    current player and history). *)
Theorem play_raises_exactly pit g :
  wf g →
  ((∃ e, fst (play pit g) = Raise e) ↔
   (is_terminal g = true ∨ fst (is_valid_move pit g) = Return false)) ∧
  ((∃ e, fst (play pit g) = Raise e) ∨ fst (play pit g) = Return true) ∧
  (∀ r, fst (play pit g) = Return r → fst (is_valid_move pit g) = Return true) ∧
  (∀ e, fst (play pit g) = Raise e → snd (play pit g) = g).
Proof.
  intros Hwf. destruct (is_terminal g) eqn:Ht.
  { rewrite play_terminal by done. simpl. repeat split; eauto; intros; done. }
  destruct (is_valid_move_cases pit g Hwf) as [Hv|Hv].
  - destruct (play_stages pit g Hwf Ht Hv) as (final & gs & _ & ->). rewrite Hv. simpl.
    repeat split; eauto; try done.
    + intros [e ?]. done.
    + intros [?|?]; done.
  - rewrite play_invalid, Hv by done. simpl. repeat split; eauto; intros; done.
Qed.

Lemma play_raises_exactly_witness :
  ((∃ e, fst (play 7 game_6x4) = Raise e) ↔
   (is_terminal game_6x4 = true ∨ fst (is_valid_move 7 game_6x4) = Return false)) ∧
  ((∃ e, fst (play 7 game_6x4) = Raise e) ∨ fst (play 7 game_6x4) = Return true) ∧
  (∀ r, fst (play 7 game_6x4) = Return r → fst (is_valid_move 7 game_6x4) = Return true) ∧
  (∀ e, fst (play 7 game_6x4) = Raise e → snd (play 7 game_6x4) = game_6x4).
Proof.
  apply play_raises_exactly.
  repeat split; [simpl; lia|]. simpl. repeat constructor; lia.
Defined.
(** ** The capture rule *)





(** C4, as the code has it.  On the 6-pit board
    [0,0,1,4,4,4,0 | 4,4,4,4,4,4,0] with player 1 to move, [play 3] sows
    its one stone into index 3, which already holds four stones: the
    landing pit then holds five, so there is no capture; the opposite cell
    (index 9) keeps its four stones, player 1's store stays empty and the
    turn passes to player 2.  On the same board with index 3 empty,
    [play 3] does capture: the four stones of index 9 and the landing
    stone go to player 1's store, and both cells are left empty. *)
Theorem capture_example :
  play 3 (mkGame 6 4 [0;0;1;4;4;4;0;4;4;4;4;4;4;0] 1 []) =
    (Return true, mkGame 6 4 [0;0;0;5;4;4;0;4;4;4;4;4;4;0] 2 [(1, 3)]) ∧
  (∃ gs, sow 3 (mkGame 6 4 [0;0;1;4;4;4;0;4;4;4;4;4;4;0] 1 []) = (Return 3, gs) ∧
         captures gs 3 = false ∧ cell (board gs) 3 = 5) ∧
  play 3 (mkGame 6 4 [0;0;1;0;4;4;0;4;4;4;4;4;4;0] 1 []) =
    (Return true, mkGame 6 4 [0;0;0;0;4;4;5;4;4;0;4;4;4;0] 2 [(1, 3)]) ∧
  (∃ gs, sow 3 (mkGame 6 4 [0;0;1;0;4;4;0;4;4;4;4;4;4;0] 1 []) = (Return 3, gs) ∧
         captures gs 3 = true ∧ _get_opposite_pit gs 3 = 9 ∧ cell (board gs) 9 = 4).
Proof.
  split; [vm_compute; reflexivity|]. split.
  { eexists. repeat split; vm_compute; reflexivity. }
  split; [vm_compute; reflexivity|].
  eexists. repeat split; vm_compute; reflexivity.
Qed.

(** C4, the claim refuted: on the board of the claim [play 3] leaves
    player 1's store empty, five stones in the landing cell and four in
    the opposite cell. *)
Lemma capture_example_no_capture :
  ∃ g',
    play 3 (mkGame 6 4 [0;0;1;4;4;4;0;4;4;4;4;4;4;0] 1 []) = (Return true, g') ∧
    p1_score g' = Return 0 ∧
    cell (board g') 3 = 5 ∧ cell (board g') 3 ≠ 0 ∧
    cell (board g') (_get_opposite_pit g' 3) = 4 ∧
    cell (board g') (_get_opposite_pit g' 3) ≠ 0.
Proof.
  eexists. repeat split; try (vm_compute; reflexivity); vm_compute; congruence.
Qed.
(** ** The search at a root without moves *)

Lemma actions_terminal (st : GameState.t MancalaGame) :
  is_terminal (GameState.board st) = true → actions st = Return [].
Proof.
  intros Ht. cbn [actions MancalaAI.game_by_value].
  unfold MancalaAI.actions_body, MancalaAI.terminal_test_body, MancalaAI.lift, bind, ret.
  by rewrite Ht.
Qed.

(** C9. At a root whose list of legal moves is empty, [alpha_beta_search]
    and [minimax_search] (and the two wrappers) return [None] and raise
    nothing, whatever the depth and the budget; a finished game is such a
    root.  The first part is the search on states by value, the second
    the search over the object store, which it leaves as it was. *)
Theorem no_move_at_empty_root (fuel : nat) (depth : Z) :
  (∀ st : GameState.t MancalaGame,
     actions st = Return [] →
     alpha_beta_search fuel st depth None None = Return None ∧
     minimax_search fuel st depth = Return None ∧
     get_alpha_beta_move fuel st depth = Return None ∧
     get_minimax_move fuel st depth = Return None) ∧
  (∀ (st : GameState.t loc) (h : store),
     actions st h = (Return [], h) →
     alpha_beta_search fuel st depth None None h = (Return None, h) ∧
     minimax_search fuel st depth h = (Return None, h) ∧
     get_alpha_beta_move fuel st depth h = (Return None, h) ∧
     get_minimax_move fuel st depth h = (Return None, h)) ∧
  (∀ st : GameState.t MancalaGame,
     is_terminal (GameState.board st) = true → actions st = Return []).
Proof.
  split; [|split].
  - intros st Ha.
    unfold get_alpha_beta_move, get_minimax_move, alpha_beta_search, minimax_search.
    cbn [sbind outcome_monad to_move MancalaAI.game_by_value obind].
    rewrite Ha. done.
  - intros st h Ha.
    unfold get_alpha_beta_move, get_minimax_move, alpha_beta_search, minimax_search.
    cbn [sbind sret store_monad to_move MancalaAI.game hbind].
    unfold hbind. rewrite Ha. done.
  - apply actions_terminal.
Qed.

Lemma no_move_at_empty_root_witness :
  alpha_beta_search 3 finished_3x1 3 None None = Return None ∧
  minimax_search 3 finished_3x1 3 = Return None ∧
  get_alpha_beta_move 3 finished_3x1 3 = Return None ∧
  get_minimax_move 3 finished_3x1 3 = Return None.
Proof.
  destruct (no_move_at_empty_root 3 3) as (H & _ & Hterm).
  apply H. apply Hterm. vm_compute. reflexivity.
Defined.
(** ** The order on search values

    A statement about finitely many search values only compares them, so
    it can be read in [Z]: send the two infinities to [-M] and [M] for an
    [M] beyond every integer at hand. *)

Lemma inb_exists (l : list ext) : ∃ M, 0 < M ∧ Forall (inb M) l.
Proof.
  induction l as [|a l (M & HM0 & HM)]; [by exists 1|].
  exists (M + Z.abs (emb 0 a) + 1). split; [lia|]. constructor.
  - destruct a; simpl; lia.
  - eapply Forall_impl; [exact HM|]. intros [] Hb; simpl in *; lia.
Qed.

Lemma emb_lt M a b : inb M a → inb M b → ext_lt a b = (emb M a <? emb M b).
Proof.
  destruct a, b; simpl; intros; try done; symmetry;
    (apply Z.ltb_lt || apply Z.ltb_ge); lia.
Qed.

Lemma emb_inj M a b : inb M a → inb M b → emb M a = emb M b → a = b.
Proof. destruct a, b; simpl; intros; try done; try lia. f_equal. lia. Qed.

Lemma emb_max M a b :
  inb M a → inb M b → emb M (ext_max a b) = Z.max (emb M a) (emb M b).
Proof.
  intros Ha Hb. unfold ext_max. rewrite (emb_lt M) by done.
  destruct (Z.ltb_spec (emb M a) (emb M b)); lia.
Qed.

Lemma emb_min M a b :
  inb M a → inb M b → emb M (ext_min a b) = Z.min (emb M a) (emb M b).
Proof.
  intros Ha Hb. unfold ext_min. rewrite (emb_lt M) by done.
  destruct (Z.ltb_spec (emb M b) (emb M a)); lia.
Qed.

Lemma inb_max M a b : inb M a → inb M b → inb M (ext_max a b).
Proof. intros. unfold ext_max. by destruct (ext_lt a b). Qed.

Lemma inb_min M a b : inb M a → inb M b → inb M (ext_min a b).
Proof. intros. unfold ext_min. by destruct (ext_lt b a). Qed.

Lemma inb_pos_inf M a : inb M a → inb M PosInf.
Proof. destruct a; simpl; lia. Qed.

Lemma inb_neg_inf M a : inb M a → inb M NegInf.
Proof. destruct a; simpl; lia. Qed.

Lemma emb_bound M a : inb M a → - M <= emb M a <= M.
Proof. destruct a; simpl; lia. Qed.

Ltac inb_tac := repeat first [apply inb_max | apply inb_min]; assumption.

(** Read the hypotheses and the goal in [Z] and leave them to [lia].
    [l] lists the search values of the statement. *)
Ltac ext_solve l :=
  let M := fresh "M" in let HM := fresh "HM" in
  let HM0 := fresh "HM0" in
  destruct (inb_exists l) as (M & HM0 & HM);
  repeat match goal with
  | H : Forall _ (_ :: _) |- _ =>
      let H1 := fresh "Hin" in let H2 := fresh "HM" in
      apply Forall_cons in H as [H1 H2]
  | H : Forall _ [] |- _ => clear H
  end;
  unfold agree, clip, ext_le in *;
  repeat match goal with
  | H : negb _ = true |- _ => apply negb_true_iff in H
  | H : negb _ = false |- _ => apply negb_false_iff in H
  | |- negb _ = true => apply negb_true_iff
  | |- negb _ = false => apply negb_false_iff
  end;
  repeat match goal with
  | H : ext_lt _ _ = true |- _ => rewrite (emb_lt M) in H by inb_tac; apply Z.ltb_lt in H
  | H : ext_lt _ _ = false |- _ => rewrite (emb_lt M) in H by inb_tac; apply Z.ltb_ge in H
  | H : @eq ext _ _ |- _ => apply (f_equal (emb M)) in H
  end;
  lazymatch goal with
  | |- @eq ext _ _ => apply (emb_inj M); [inb_tac|inb_tac|]
  | |- ext_lt _ _ = true => rewrite (emb_lt M) by inb_tac; apply Z.ltb_lt
  | |- ext_lt _ _ = false => rewrite (emb_lt M) by inb_tac; apply Z.ltb_ge
  | |- _ => idtac
  end;
  repeat match goal with
  | H : context [emb M (ext_max ?a ?b)] |- _ => rewrite (emb_max M a b) in H by inb_tac
  | H : context [emb M (ext_min ?a ?b)] |- _ => rewrite (emb_min M a b) in H by inb_tac
  | |- context [emb M (ext_max ?a ?b)] => rewrite (emb_max M a b) by inb_tac
  | |- context [emb M (ext_min ?a ?b)] => rewrite (emb_min M a b) by inb_tac
  end;
  repeat match goal with
  | H : inb M ?a |- _ => apply emb_bound in H
  end;
  lia.

Lemma window_max_return a0 a b v w x y :
  a = ext_max a0 v → a = ext_max a0 w → ext_lt a b = true →
  agree a b x y → ext_le b (ext_max v x) = true →
  agree a0 b (ext_max v x) (ext_max w y).
Proof. intros. ext_solve [a0; a; b; v; w; x; y]. Qed.

Lemma window_max_continue a0 a b v w x y :
  a = ext_max a0 v → a = ext_max a0 w → ext_lt a b = true →
  agree a b x y → ext_le b (ext_max v x) = false →
  ext_max a (ext_max v x) = ext_max a0 (ext_max v x) ∧
  ext_max a (ext_max v x) = ext_max a0 (ext_max w y) ∧
  ext_lt (ext_max a (ext_max v x)) b = true.
Proof. intros. repeat split; ext_solve [a0; a; b; v; w; x; y]. Qed.

Lemma window_max_end a0 a b v w :
  a = ext_max a0 v → a = ext_max a0 w → ext_lt a b = true → agree a0 b v w.
Proof. intros. ext_solve [a0; a; b; v; w]. Qed.

Lemma window_min_return a b0 b v w x y :
  b = ext_min b0 v → b = ext_min b0 w → ext_lt a b = true →
  agree a b x y → ext_le (ext_min v x) a = true →
  agree a b0 (ext_min v x) (ext_min w y).
Proof. intros. ext_solve [b0; a; b; v; w; x; y]. Qed.

Lemma window_min_continue a b0 b v w x y :
  b = ext_min b0 v → b = ext_min b0 w → ext_lt a b = true →
  agree a b x y → ext_le (ext_min v x) a = false →
  ext_min b (ext_min v x) = ext_min b0 (ext_min v x) ∧
  ext_min b (ext_min v x) = ext_min b0 (ext_min w y) ∧
  ext_lt a (ext_min b (ext_min v x)) = true.
Proof. intros. repeat split; ext_solve [b0; a; b; v; w; x; y]. Qed.

Lemma window_min_end a b0 b v w :
  b = ext_min b0 v → b = ext_min b0 w → ext_lt a b = true → agree a b0 v w.
Proof. intros. ext_solve [b0; a; b; v; w]. Qed.
Lemma ext_min_pos_inf x : ext_min PosInf x = x.
Proof. by destruct x. Qed.

Lemma ext_max_neg_inf a : ext_max a NegInf = a.
Proof. by destruct a. Qed.

Lemma ext_min_pos_inf_r b : ext_min b PosInf = b.
Proof. by destruct b. Qed.

Lemma window_root best x y :
  (ext_lt best PosInf = true → agree best PosInf x y) →
  ext_lt best x = ext_lt best y ∧ (ext_lt best x = true → x = y).
Proof.
  intros Hag. destruct (ext_lt best PosInf) eqn:Hb.
  - specialize (Hag eq_refl). unfold agree, clip in Hag.
    rewrite !ext_min_pos_inf in Hag. clear Hb. split.
    + destruct (ext_lt best x) eqn:E1, (ext_lt best y) eqn:E2; try done;
        exfalso; ext_solve [best; x; y].
    + intros. ext_solve [best; x; y].
  - clear Hag. assert (best = PosInf) as -> by (by destruct best).
    split; [by destruct x, y|]. by destruct x.
Qed.

Lemma agree_above a0 a b v vx wy w2 :
  a = ext_max a0 v → ext_lt a b = true → agree a0 b vx wy →
  ext_le b vx = true → ext_le wy w2 = true → agree a0 b vx w2.
Proof. intros. ext_solve [a0; a; b; v; vx; wy; w2]. Qed.

Lemma agree_below a b0 b v vx wy w2 :
  b = ext_min b0 v → ext_lt a b = true → agree a b0 vx wy →
  ext_le vx a = true → ext_le w2 wy = true → agree a b0 vx w2.
Proof. intros. ext_solve [b0; a; b; v; vx; wy; w2]. Qed.

Lemma ext_le_max_trans w y w' : ext_le (ext_max w y) w' = true → ext_le w w' = true.
Proof. intros. ext_solve [w; y; w']. Qed.

Lemma ext_le_min_trans w y w' : ext_le w' (ext_min w y) = true → ext_le w' w = true.
Proof. intros. ext_solve [w; y; w']. Qed.

Lemma ext_le_refl w : ext_le w w = true.
Proof. ext_solve [w]. Qed.

(** ** Alpha-beta against minimax *)

Section AlphaBetaMinimax.
Context {St A : Type} {G : Game outcome St A}.

Lemma mm_max_loop_ge (child : St → outcome ext) s acts :
  ∀ w w', mm_max_loop child s acts w = Return w' → ext_le w w' = true.
Proof.
  induction acts as [|a acts IH]; intros w w'; cbn [mm_max_loop sret outcome_monad sbind].
  - intros [= <-]. apply ext_le_refl.
  - destruct (result s a) as [s'| |]; cbn [obind]; try done.
    destruct (child s') as [y| |]; cbn [obind]; try done.
    intros Hw%IH. by eapply ext_le_max_trans.
Qed.

Lemma mm_min_loop_le (child : St → outcome ext) s acts :
  ∀ w w', mm_min_loop child s acts w = Return w' → ext_le w' w = true.
Proof.
  induction acts as [|a acts IH]; intros w w'; cbn [mm_min_loop sret outcome_monad sbind].
  - intros [= <-]. apply ext_le_refl.
  - destruct (result s a) as [s'| |]; cbn [obind]; try done.
    destruct (child s') as [y| |]; cbn [obind]; try done.
    intros Hw%IH. by eapply ext_le_min_trans.
Qed.

Lemma max_loop_agree child_ab child_mm s acts :
  children_agree child_ab child_mm s acts →
  ∀ v w alpha beta, ∃ v' w',
    ab_max_loop child_ab s acts v alpha beta = Return v' ∧
    mm_max_loop child_mm s acts w = Return w' ∧
    ∀ a0, alpha = ext_max a0 v → alpha = ext_max a0 w → ext_lt alpha beta = true →
          agree a0 beta v' w'.
Proof.
  induction acts as [|a acts IH]; intros Hch v w alpha beta.
  - exists v, w. repeat split. intros a0 H1 H2 H3. by eapply window_max_end.
  - destruct (Hch a ltac:(left)) as (s' & Hres & Hchild).
    destruct (Hchild alpha beta) as (x & y & Hx & Hy & Hxy).
    assert (children_agree child_ab child_mm s acts) as Hch'.
    { intros a' Ha'. apply Hch. by right. }
    cbn [ab_max_loop mm_max_loop sbind outcome_monad obind sret].
    rewrite Hres. cbn [obind]. rewrite Hx, Hy. cbn [obind].
    destruct (ext_le beta (ext_max v x)) eqn:Hret.
    + destruct (IH Hch' (ext_max w y) (ext_max w y) alpha beta) as (_ & w' & _ & Hw' & _).
      exists (ext_max v x), w'. repeat split; [done|].
      intros a0 H1 H2 H3.
      eapply (agree_above a0 alpha beta v); [done..| | |].
      * eapply window_max_return; eauto.
      * done.
      * by eapply mm_max_loop_ge.
    + destruct (IH Hch' (ext_max v x) (ext_max w y) (ext_max alpha (ext_max v x)) beta)
        as (v' & w' & Hv' & Hw' & Hag).
      exists v', w'. repeat split; [done..|].
      intros a0 H1 H2 H3.
      destruct (window_max_continue a0 alpha beta v w x y H1 H2 H3 (Hxy H3) Hret)
        as (K1 & K2 & K3).
      by apply Hag.
Qed.

Lemma min_loop_agree child_ab child_mm s acts :
  children_agree child_ab child_mm s acts →
  ∀ v w alpha beta, ∃ v' w',
    ab_min_loop child_ab s acts v alpha beta = Return v' ∧
    mm_min_loop child_mm s acts w = Return w' ∧
    ∀ b0, beta = ext_min b0 v → beta = ext_min b0 w → ext_lt alpha beta = true →
          agree alpha b0 v' w'.
Proof.
  induction acts as [|a acts IH]; intros Hch v w alpha beta.
  - exists v, w. repeat split. intros b0 H1 H2 H3. by eapply window_min_end.
  - destruct (Hch a ltac:(left)) as (s' & Hres & Hchild).
    destruct (Hchild alpha beta) as (x & y & Hx & Hy & Hxy).
    assert (children_agree child_ab child_mm s acts) as Hch'.
    { intros a' Ha'. apply Hch. by right. }
    cbn [ab_min_loop mm_min_loop sbind outcome_monad obind sret].
    rewrite Hres. cbn [obind]. rewrite Hx, Hy. cbn [obind].
    destruct (ext_le (ext_min v x) alpha) eqn:Hret.
    + destruct (IH Hch' (ext_min w y) (ext_min w y) alpha beta) as (_ & w' & _ & Hw' & _).
      exists (ext_min v x), w'. repeat split; [done|].
      intros b0 H1 H2 H3.
      eapply (agree_below alpha b0 beta v); [done..| | |].
      * eapply window_min_return; eauto.
      * done.
      * by eapply mm_min_loop_le.
    + destruct (IH Hch' (ext_min v x) (ext_min w y) alpha (ext_min beta (ext_min v x)))
        as (v' & w' & Hv' & Hw' & Hag).
      exists v', w'. repeat split; [done..|].
      intros b0 H1 H2 H3.
      destruct (window_min_continue alpha b0 beta v w x y H1 H2 H3 (Hxy H3) Hret)
        as (K1 & K2 & K3).
      by apply Hag.
Qed.

(** The game never raises on the states of [ok], and [ok] is closed
    under the moves the game offers. *)
Variable ok : St → Prop.
Hypothesis ok_actions : ∀ s, ok s →
  ∃ acts, actions s = Return acts ∧
    ∀ a, a ∈ acts → ∃ s', result s a = Return s' ∧ ok s'.
Hypothesis ok_terminal_test : ∀ s, ok s → ∃ b, terminal_test s = Return b.
Hypothesis ok_utility : ∀ s p, ok s → ∃ u, utility s p = Return u.

Variables depth player : Z.

Lemma values_agree fuel : ∀ s d,
  ok s → (1 <= fuel)%nat → depth - d < Z.of_nat fuel →
  (∀ alpha beta, ∃ x y,
     ab_max_value (default_cutoff_test depth) (λ s, utility s player) fuel s alpha beta d
       = Return x ∧
     mm_max_value depth player fuel s d = Return y ∧
     (ext_lt alpha beta = true → agree alpha beta x y)) ∧
  (∀ alpha beta, ∃ x y,
     ab_min_value (default_cutoff_test depth) (λ s, utility s player) fuel s alpha beta d
       = Return x ∧
     mm_min_value depth player fuel s d = Return y ∧
     (ext_lt alpha beta = true → agree alpha beta x y)).
Proof.
  induction fuel as [|fuel IH]; intros s d Hok Hf Hd; [lia|].
  assert (∃ stop, default_cutoff_test depth s d = Return stop ∧
                  (stop = false → d < depth)) as (stop & Hstop & Hlt).
  { unfold default_cutoff_test. destruct (Z.geb_spec d depth) as [Hge|Hlt].
    - exists true. split; [done|]. done.
    - destruct (ok_terminal_test s Hok) as [b Hb]. exists b. split; [done|]. lia. }
  destruct (ok_utility s player Hok) as [u Hu].
  destruct (ok_actions s Hok) as (acts & Hacts & Hres).
  cbn [ab_max_value ab_min_value mm_max_value mm_min_value sbind sret outcome_monad].
  rewrite Hstop. cbn [obind].
  destruct stop.
  { rewrite Hu. cbn [obind]. split; intros alpha beta; by exists (Fin u), (Fin u). }
  specialize (Hlt eq_refl).
  rewrite Hacts. cbn [obind].
  assert (∀ a, a ∈ acts → ∃ s', result s a = Return s' ∧ ok s' ∧
            (1 <= fuel)%nat ∧ depth - (d + 1) < Z.of_nat fuel) as Hnext.
  { intros a Ha. destruct (Hres a Ha) as (s' & ? & ?). exists s'. repeat split; [done..|lia|lia]. }
  split; intros alpha beta.
  - destruct (max_loop_agree
      (λ s a b, ab_min_value (default_cutoff_test depth) (λ s, utility s player) fuel s a b (d + 1))
      (λ s, mm_min_value depth player fuel s (d + 1)) s acts) with (v := NegInf) (w := NegInf)
      (alpha := alpha) (beta := beta) as (v' & w' & Hv' & Hw' & Hag).
    { intros a Ha. destruct (Hnext a Ha) as (s' & Hr & Hok' & H1 & H2).
      exists s'. split; [done|]. apply (IH s' (d + 1) Hok' H1 H2). }
    exists v', w'. repeat split; [done..|]. intros Hab.
    apply Hag; [by rewrite ext_max_neg_inf..|done].
  - destruct (min_loop_agree
      (λ s a b, ab_max_value (default_cutoff_test depth) (λ s, utility s player) fuel s a b (d + 1))
      (λ s, mm_max_value depth player fuel s (d + 1)) s acts) with (v := PosInf) (w := PosInf)
      (alpha := alpha) (beta := beta) as (v' & w' & Hv' & Hw' & Hag).
    { intros a Ha. destruct (Hnext a Ha) as (s' & Hr & Hok' & H1 & H2).
      exists s'. split; [done|]. apply (IH s' (d + 1) Hok' H1 H2). }
    exists v', w'. repeat split; [done..|]. intros Hab.
    apply Hag; [by rewrite ext_min_pos_inf_r..|done].
Qed.

Lemma root_loops_agree fuel s acts :
  (1 <= fuel)%nat → depth <= Z.of_nat fuel →
  (∀ a, a ∈ acts → ∃ s', result s a = Return s' ∧ ok s') →
  ∀ best_score best_action, ∃ r,
    ab_root_loop (default_cutoff_test depth) (λ s, utility s player) fuel s acts
      best_score best_action = Return r ∧
    mm_root_loop depth player fuel s acts best_action best_score = Return r.
Proof.
  intros Hf Hd. induction acts as [|a acts IH]; intros Hres best_score best_action.
  - by exists best_action.
  - destruct (Hres a ltac:(left)) as (s' & Hr & Hok').
    destruct (values_agree fuel s' 1 Hok' Hf ltac:(lia)) as [_ Hmin].
    destruct (Hmin best_score PosInf) as (x & y & Hx & Hy & Hxy).
    cbn [ab_root_loop mm_root_loop sbind sret outcome_monad].
    rewrite Hr. cbn [obind]. rewrite Hx, Hy. cbn [obind].
    destruct (window_root best_score x y Hxy) as [Hsame Heq].
    rewrite <- Hsame. destruct (ext_lt best_score x) eqn:Hlt.
    + rewrite <- (Heq eq_refl). apply IH. intros a' Ha'. apply Hres. by right.
    + apply IH. intros a' Ha'. apply Hres. by right.
Qed.

(** With the default cutoff and evaluation, and a budget that covers
    the depth, the two searches return the same move. *)
Lemma searches_agree fuel s :
  ok s → to_move s = Return player → (1 <= fuel)%nat → depth <= Z.of_nat fuel →
  ∃ r, alpha_beta_search fuel s depth None None = Return r ∧
       minimax_search fuel s depth = Return r.
Proof.
  intros Hok Hp Hf Hd. unfold alpha_beta_search, minimax_search.
  cbn [sbind outcome_monad]. rewrite Hp. cbn [obind].
  destruct (ok_actions s Hok) as (acts & -> & Hres). cbn [obind].
  by apply root_loops_agree.
Qed.
End AlphaBetaMinimax.
(** ** [MancalaAI] never raises on well-formed games *)

Lemma get_valid_moves_spec g :
  wf g →
  ∃ ms, get_valid_moves g = Return ms ∧
        ∀ pit, pit ∈ ms → is_valid_move pit g = (Return true, g).
Proof.
  intros Hwf. unfold get_valid_moves.
  generalize (Py.range 1 (pits_per_player g + 1)). intros pits.
  induction pits as [|pit pits (ms & Hms & Hall)].
  - exists []. split; [done|]. intros pit Hp. by apply elem_of_nil in Hp.
  - rewrite Hms. destruct (is_valid_move_cases pit g Hwf) as [Hv|Hv]; rewrite Hv; simpl.
    + exists (pit :: ms). split; [done|]. intros p [->|Hp]%elem_of_cons; auto.
    + exists ms. split; [done|]. done.
Qed.

Lemma result_body_spec move g :
  wf g → is_terminal g = false → is_valid_move move g = (Return true, g) →
  ∃ f g', MancalaAI.result_body move g = (Return f, g') ∧ wf g' ∧
          play move g = (Return true, g').
Proof.
  intros Hwf Ht Hv.
  destruct (play_stages move g Hwf Ht Hv) as (final & gs & _ & Hplay).
  destruct (play_keeps move g true _ Hwf Hplay) as (Hwf' & _).
  set (g' := turn_stage final (sweep_stage (capture_stage final gs))) in *.
  destruct (score_cells g' Hwf') as [Hs1 Hs2].
  destruct (get_valid_moves_spec g' Hwf') as (ms & Hms & _).
  unfold MancalaAI.result_body.
  erewrite bind_run by exact Hplay. rewrite bind_get.
  unfold MancalaAI._calculate_utility, MancalaAI.lift.
  unfold bind, ret. rewrite Hs1, Hs2, Hms. eauto.
Qed.

Lemma mancala_ok_actions (s : GameState.t MancalaGame) :
  wf (GameState.board s) →
  ∃ acts, actions s = Return acts ∧
    ∀ a, a ∈ acts → ∃ s', result s a = Return s' ∧ wf (GameState.board s').
Proof.
  intros Hwf. cbn [actions result MancalaAI.game_by_value].
  unfold MancalaAI.actions_body, MancalaAI.terminal_test_body, MancalaAI.lift, bind, ret.
  destruct (is_terminal (GameState.board s)) eqn:Ht.
  - exists []. split; [done|]. intros a Ha. by apply elem_of_nil in Ha.
  - destruct (get_valid_moves_spec _ Hwf) as (ms & Hms & Hall). rewrite Hms.
    exists ms. split; [done|]. intros a Ha.
    destruct (result_body_spec a _ Hwf Ht (Hall a Ha)) as (f & g' & Hr & Hwf' & _).
    rewrite Hr. eauto.
Qed.

Lemma mancala_ok_terminal_test (s : GameState.t MancalaGame) :
  wf (GameState.board s) → ∃ b, terminal_test s = Return b.
Proof. intros _. cbn. eauto. Qed.

Lemma mancala_ok_utility (s : GameState.t MancalaGame) (p : Z) :
  wf (GameState.board s) → ∃ u, utility s p = Return u.
Proof.
  intros Hwf. cbn [utility MancalaAI.game_by_value].
  destruct (score_cells _ Hwf) as [Hs1 Hs2].
  unfold MancalaAI.utility_body, MancalaAI.lift, bind, ret. rewrite Hs1, Hs2. simpl. eauto.
Qed.

Lemma get_alpha_beta_move_default {St : Type} {G : Game outcome St Z} fuel (s : St) depth :
  get_alpha_beta_move fuel s depth = alpha_beta_search fuel s depth None None.
Proof.
  unfold get_alpha_beta_move, alpha_beta_search. cbn [sbind outcome_monad].
  destruct (to_move s) as [p| |] eqn:Hp; cbn [obind]; [|done..].
  reflexivity.
Qed.
Lemma ext_le_trans a b c : ext_le a b = true → ext_le b c = true → ext_le a c = true.
Proof. intros. ext_solve [a; b; c]. Qed.

Lemma ext_lt_le a b : ext_lt a b = true → ext_le a b = true.
Proof. intros. ext_solve [a; b]. Qed.

Lemma ext_not_lt_le a b : ext_lt a b = false → ext_le b a = true.
Proof. intros. ext_solve [a; b]. Qed.

Section RootValue.
Context {St A : Type} {G : Game outcome St A}.
Variables depth player : Z.

(** The root loop of [minimax_search] returns a move of greatest
    backed-up value, or keeps [best_action] when no move beats
    [best_value]. *)
Lemma mm_root_loop_best fuel s acts :
  (∀ a, a ∈ acts → ∃ s' y, result s a = Return s' ∧
                           mm_min_value depth player fuel s' 1 = Return y) →
  ∀ best_action best_value, ∃ r top,
    mm_root_loop depth player fuel s acts best_action best_value = Return r ∧
    ext_le best_value top = true ∧
    (∀ a, a ∈ acts → ∃ s' y, result s a = Return s' ∧
                             mm_min_value depth player fuel s' 1 = Return y ∧
                             ext_le y top = true) ∧
    ((r = best_action ∧ top = best_value) ∨
     (∃ m s', r = Some m ∧ m ∈ acts ∧ result s m = Return s' ∧
              mm_min_value depth player fuel s' 1 = Return top)).
Proof.
  induction acts as [|a acts IH]; intros Hch best_action best_value.
  - exists best_action, best_value. split; [done|]. split; [apply ext_le_refl|].
    split; [|by left]. intros a Ha. by apply elem_of_nil in Ha.
  - destruct (Hch a ltac:(left)) as (s' & y & Hr & Hy).
    assert (∀ a', a' ∈ acts → ∃ s' y, result s a' = Return s' ∧
              mm_min_value depth player fuel s' 1 = Return y) as Hch'.
    { intros a' Ha'. apply Hch. by right. }
    cbn [mm_root_loop sbind sret outcome_monad]. rewrite Hr. cbn [obind].
    rewrite Hy. cbn [obind].
    destruct (ext_lt best_value y) eqn:Hlt.
    + destruct (IH Hch' (Some a) y) as (r & top & Hrun & Hle & Hall & Hwho).
      exists r, top. split; [done|]. split.
      { eapply ext_le_trans; [by apply ext_lt_le|done]. }
      split.
      * intros a' [->|Ha']%elem_of_cons; [|by apply Hall].
        exists s', y. by repeat split.
      * right. destruct Hwho as [[-> ->]|(m & sm & -> & Hm & Hrm & Hvm)].
        -- exists a, s'. repeat split; [by left|done..].
        -- exists m, sm. repeat split; [by right|done..].
    + destruct (IH Hch' best_action best_value) as (r & top & Hrun & Hle & Hall & Hwho).
      exists r, top. split; [done|]. split; [done|]. split.
      * intros a' [->|Ha']%elem_of_cons; [|by apply Hall].
        exists s', y. repeat split; [done..|].
        eapply ext_le_trans; [by apply ext_not_lt_le|done].
      * destruct Hwho as [[-> ->]|(m & sm & -> & Hm & Hrm & Hvm)]; [by left|].
        right. exists m, sm. repeat split; [by right|done..].
Qed.
End RootValue.

(** On well-formed states by value the two searches return the same
    move, of greatest backed-up value. *)
Lemma searches_agree_by_value (st : GameState.t MancalaGame) (depth : Z) (fuel : nat) :
  wf (GameState.board st) → (1 <= fuel)%nat → depth <= Z.of_nat fuel →
  ∃ r,
    alpha_beta_search fuel st depth None None = Return r ∧
    minimax_search fuel st depth = Return r ∧
    get_alpha_beta_move fuel st depth = Return r ∧
    get_minimax_move fuel st depth = Return r ∧
    (∀ a b,
       alpha_beta_search fuel st depth None None = Return (Some a) →
       minimax_search fuel st depth = Return (Some b) →
       ∃ v, backed_up_value fuel st depth a = Return v ∧
            backed_up_value fuel st depth b = Return v ∧
            ∀ acts m, actions st = Return acts → m ∈ acts →
              ∃ vm, backed_up_value fuel st depth m = Return vm ∧ ext_le vm v = true).
Proof.
  intros Hwf Hf Hd.
  destruct (searches_agree (λ s, wf (GameState.board s)) mancala_ok_actions
              mancala_ok_terminal_test mancala_ok_utility depth (GameState.to_move st)
              fuel st Hwf eq_refl Hf Hd) as (r & Hab & Hmm).
  exists r. split; [done|]. split; [done|].
  split; [by rewrite get_alpha_beta_move_default|]. split; [done|].
  intros a b Ha Hb. rewrite Hab in Ha. rewrite Hmm in Hb.
  injection Ha as ->. injection Hb as Hb. subst b.
  destruct (mancala_ok_actions st Hwf) as (acts & Hacts & Hres).
  unfold minimax_search in Hmm. cbn [sbind outcome_monad to_move MancalaAI.game_by_value obind] in Hmm.
  rewrite Hacts in Hmm. cbn [obind] in Hmm.
  destruct (mm_root_loop_best depth (GameState.to_move st) fuel st acts) with
    (best_action := @None Z) (best_value := NegInf) as (r' & top & Hrun & _ & Hall & Hwho).
  { intros m Hm. destruct (Hres m Hm) as (s' & Hr & Hok').
    destruct (values_agree (λ s, wf (GameState.board s)) mancala_ok_actions
                mancala_ok_terminal_test mancala_ok_utility depth (GameState.to_move st)
                fuel s' 1 Hok' Hf ltac:(lia)) as [_ Hmin].
    destruct (Hmin NegInf PosInf) as (_ & y & _ & Hy & _). eauto. }
  rewrite Hmm in Hrun. injection Hrun as <-.
  destruct Hwho as [[? _]|(m & sm & [= <-] & Hm & Hrm & Hvm)]; [done|].
  exists top. unfold backed_up_value.
  cbn [sbind outcome_monad to_move MancalaAI.game_by_value obind].
  rewrite Hrm. cbn [obind]. split; [done|]. split; [done|].
  intros acts' m Hacts' Hm'. rewrite Hacts in Hacts'. injection Hacts' as <-.
  destruct (Hall m Hm') as (s' & y & Hr & Hy & Hle).
  exists y. rewrite Hr. cbn [obind]. done.
Qed.

(** ** The search over the object store *)

Lemma extensive_ret {X} (x : X) : extensive (sret x : H X).
Proof. intros h r h' [= <- <-]. done. Qed.

Lemma extensive_fuel {X} : extensive (sfuel : H X).
Proof. intros h r h' [= <- <-]. done. Qed.

Lemma extensive_bind {X Y} (c : H X) (k : X → H Y) :
  extensive c → (∀ x, extensive (k x)) → extensive (sbind c k).
Proof.
  intros Hc Hk h r h'. cbn [sbind store_monad]. unfold hbind.
  destruct (c h) as [[x|e|] h1] eqn:Hrun.
  - intros Hkx. etrans; [by eapply Hc|by eapply Hk].
  - intros [= <- <-]. by eapply Hc.
  - intros [= <- <-]. by eapply Hc.
Qed.

Lemma extensive_if {X} (b : bool) (c1 c2 : H X) :
  extensive c1 → extensive c2 → extensive (if b then c1 else c2).
Proof. by destruct b. Qed.

Section SearchFrame.
Context {St A : Type} {G : Game H St A}.
Hypothesis actions_ext : ∀ s, extensive (actions s).
Hypothesis result_ext : ∀ s a, extensive (result s a).
Hypothesis utility_ext : ∀ s p, extensive (utility s p).
Hypothesis terminal_test_ext : ∀ s, extensive (terminal_test s).
Hypothesis to_move_ext : ∀ s, extensive (to_move s).

Ltac ext_step :=
  first [ apply extensive_ret | apply extensive_fuel
        | apply extensive_bind; [|intros ?] | apply extensive_if
        | apply actions_ext | apply result_ext | apply utility_ext
        | apply terminal_test_ext | apply to_move_ext ].

Lemma ab_max_loop_ext child s acts :
  (∀ s' a b, extensive (child s' a b)) →
  ∀ v alpha beta, extensive (ab_max_loop child s acts v alpha beta).
Proof.
  intros Hch. induction acts as [|a acts IH]; intros v alpha beta; cbn [ab_max_loop].
  - ext_step.
  - repeat ext_step; auto.
Qed.

Lemma ab_min_loop_ext child s acts :
  (∀ s' a b, extensive (child s' a b)) →
  ∀ v alpha beta, extensive (ab_min_loop child s acts v alpha beta).
Proof.
  intros Hch. induction acts as [|a acts IH]; intros v alpha beta; cbn [ab_min_loop].
  - ext_step.
  - repeat ext_step; auto.
Qed.

Lemma mm_max_loop_ext child s acts :
  (∀ s', extensive (child s')) → ∀ v, extensive (mm_max_loop child s acts v).
Proof.
  intros Hch. induction acts as [|a acts IH]; intros v; cbn [mm_max_loop].
  - ext_step.
  - repeat ext_step; auto.
Qed.

Lemma mm_min_loop_ext child s acts :
  (∀ s', extensive (child s')) → ∀ v, extensive (mm_min_loop child s acts v).
Proof.
  intros Hch. induction acts as [|a acts IH]; intros v; cbn [mm_min_loop].
  - ext_step.
  - repeat ext_step; auto.
Qed.

Lemma ab_values_ext cutoff_test eval_fn fuel :
  (∀ s d, extensive (cutoff_test s d)) → (∀ s, extensive (eval_fn s)) →
  ∀ s alpha beta d,
    extensive (ab_max_value cutoff_test eval_fn fuel s alpha beta d) ∧
    extensive (ab_min_value cutoff_test eval_fn fuel s alpha beta d).
Proof.
  intros Hcut Heval. induction fuel as [|fuel IH]; intros s alpha beta d;
    cbn [ab_max_value ab_min_value].
  - split; ext_step.
  - split; (ext_step; [apply Hcut|]); ext_step.
    + ext_step; [apply Heval|ext_step].
    + ext_step; [ext_step|]. apply ab_max_loop_ext. intros. apply IH.
    + ext_step; [apply Heval|ext_step].
    + ext_step; [ext_step|]. apply ab_min_loop_ext. intros. apply IH.
Qed.

Lemma mm_values_ext depth player fuel :
  ∀ s d,
    extensive (mm_max_value depth player fuel s d) ∧
    extensive (mm_min_value depth player fuel s d).
Proof.
  induction fuel as [|fuel IH]; intros s d; cbn [mm_max_value mm_min_value].
  - split; ext_step.
  - split; (ext_step; [unfold default_cutoff_test; repeat ext_step|]); ext_step.
    + repeat ext_step.
    + ext_step; [ext_step|]. apply mm_max_loop_ext. intros. apply IH.
    + repeat ext_step.
    + ext_step; [ext_step|]. apply mm_min_loop_ext. intros. apply IH.
Qed.

Lemma ab_root_loop_ext cutoff_test eval_fn fuel s acts :
  (∀ s d, extensive (cutoff_test s d)) → (∀ s, extensive (eval_fn s)) →
  ∀ best_score best_action,
    extensive (ab_root_loop cutoff_test eval_fn fuel s acts best_score best_action).
Proof.
  intros Hcut Heval. induction acts as [|a acts IH]; intros best_score best_action;
    cbn [ab_root_loop].
  - ext_step.
  - ext_step; [ext_step|]. ext_step; [by apply ab_values_ext|].
    ext_step; apply IH.
Qed.

Lemma mm_root_loop_ext depth player fuel s acts :
  ∀ best_action best_value,
    extensive (mm_root_loop depth player fuel s acts best_action best_value).
Proof.
  induction acts as [|a acts IH]; intros best_action best_value; cbn [mm_root_loop].
  - ext_step.
  - ext_step; [ext_step|]. ext_step; [by apply mm_values_ext|].
    ext_step; apply IH.
Qed.

Lemma alpha_beta_search_ext fuel s depth cutoff_test eval_fn :
  (∀ f, cutoff_test = Some f → ∀ s d, extensive (f s d)) →
  (∀ f, eval_fn = Some f → ∀ s, extensive (f s)) →
  extensive (alpha_beta_search fuel s depth cutoff_test eval_fn).
Proof.
  intros Hcut Heval. unfold alpha_beta_search.
  ext_step; [ext_step|]. ext_step; [ext_step|].
  apply ab_root_loop_ext.
  - destruct cutoff_test as [f|]; [by apply Hcut|].
    intros s' d. unfold default_cutoff_test. repeat ext_step.
  - destruct eval_fn as [f|]; [by apply Heval|]. intros s'. ext_step.
Qed.

Lemma minimax_search_ext fuel s depth : extensive (minimax_search fuel s depth).
Proof.
  unfold minimax_search. ext_step; [ext_step|]. ext_step; [ext_step|].
  apply mm_root_loop_ext.
Qed.
End SearchFrame.
(** ** [MancalaAI] over the object store *)

Lemma readonly_lift {X} (f : MancalaGame → outcome X) : readonly (MancalaAI.lift f).
Proof. done. Qed.

Lemma readonly_ret {X} (x : X) : readonly (ret x).
Proof. done. Qed.

Lemma readonly_bind {X Y} (c : M X) (k : X → M Y) :
  readonly c → (∀ x, readonly (k x)) → readonly (bind c k).
Proof.
  intros Hc Hk g. unfold bind. specialize (Hc g).
  destruct (c g) as [[x| |] g1]; simpl in *; subst; [apply Hk|done..].
Qed.

Lemma readonly_actions_body : readonly MancalaAI.actions_body.
Proof.
  apply readonly_bind; [apply readonly_lift|]. intros [];
    [apply readonly_ret|apply readonly_lift].
Qed.

Lemma readonly_utility_body p : readonly (MancalaAI.utility_body p).
Proof.
  apply readonly_bind; [apply readonly_lift|]. intros s1.
  apply readonly_bind; [apply readonly_lift|]. intros s2. apply readonly_ret.
Qed.

Lemma readonly_terminal_test_body : readonly MancalaAI.terminal_test_body.
Proof. apply readonly_lift. Qed.

Lemma on_object_readonly {X} l (m : M X) : readonly m → extensive (on_object l m).
Proof.
  intros Hm h r h'. unfold on_object. destruct (h !! l) as [g|] eqn:Hl.
  - specialize (Hm g). destruct (m g) as [r' g']. simpl in Hm. subst g'.
    intros [= <- <-]. by rewrite insert_id.
  - intros [= <- <-]. done.
Qed.

Lemma copy_spec l (h : store) g :
  h !! l = Some g →
  copy l h = (Return (fresh (dom h)), <[fresh (dom h):=g]> h) ∧ h !! fresh (dom h) = None.
Proof.
  intros Hl. unfold copy. rewrite Hl. split; [done|].
  apply not_elem_of_dom. apply is_fresh.
Qed.

(** [result] only adds the object it returns. *)
Lemma result_store (st : GameState.t loc) move (h : store) r h' :
  result st move h = (r, h') →
  h' = h ∨ ∃ g', h !! fresh (dom h) = None ∧ h' = <[fresh (dom h):=g']> h.
Proof.
  cbn [result MancalaAI.game sbind sret store_monad]. unfold hbind.
  destruct (h !! GameState.board st) as [g|] eqn:Hl.
  - destruct (copy_spec _ h g Hl) as [-> Hfresh].
    unfold on_object. rewrite lookup_insert_eq.
    destruct (MancalaAI.result_body move g) as [[f|e|] g'];
      intros [= <- <-]; right; exists g'; by rewrite insert_insert_eq.
  - unfold copy. rewrite Hl. intros [= <- <-]. by left.
Qed.

Lemma result_extensive (st : GameState.t loc) move : extensive (result st move).
Proof.
  intros h r h' [->|(g' & Hfresh & ->)]%result_store; [done|].
  by apply insert_subseteq.
Qed.

Lemma mancala_actions_ext (st : GameState.t loc) : extensive (actions st).
Proof. apply on_object_readonly, readonly_actions_body. Qed.

Lemma mancala_utility_ext (st : GameState.t loc) p : extensive (utility st p).
Proof. apply on_object_readonly, readonly_utility_body. Qed.

Lemma mancala_terminal_test_ext (st : GameState.t loc) : extensive (terminal_test st).
Proof. apply on_object_readonly, readonly_terminal_test_body. Qed.

Lemma mancala_to_move_ext (st : GameState.t loc) : extensive (to_move st).
Proof. apply extensive_ret. Qed.

(** [result] on a legal move of a game that is not over. *)
Lemma result_legal (st : GameState.t loc) move (h : store) g :
  h !! GameState.board st = Some g → wf g → is_terminal g = false →
  is_valid_move move g = (Return true, g) →
  ∃ st' g',
    result st move h = (Return st', <[GameState.board st':=g']> h) ∧
    h !! GameState.board st' = None ∧
    play move g = (Return true, g') ∧
    GameState.to_move st' = current_player g'.
Proof.
  intros Hl Hwf Ht Hv.
  destruct (result_body_spec move g Hwf Ht Hv) as (f & g' & Hbody & Hwf' & Hplay).
  cbn [result MancalaAI.game sbind sret store_monad]. unfold hbind.
  destruct (copy_spec _ h g Hl) as [-> Hfresh].
  unfold on_object. rewrite lookup_insert_eq, Hbody, insert_insert_eq.
  exists (GameState.mk f.1.1 f.1.2 (fresh (dom h)) f.2), g'.
  cbn [GameState.board GameState.to_move]. repeat split; [done..|].
  unfold MancalaAI.result_body in Hbody.
  erewrite bind_run in Hbody by exact Hplay. rewrite bind_get in Hbody.
  unfold bind in Hbody.
  destruct (MancalaAI._calculate_utility g') as [[u| |] g1]; [|done..].
  destruct (MancalaAI.lift get_valid_moves g1) as [[ms| |] g2]; [|done..].
  by injection Hbody as <- _.
Qed.
Example initial_store_3x2 : MancalaAI.initial 3 2 ∅ = (Return root_3x2, store_3x2).
Proof. vm_compute. reflexivity. Qed.

Lemma get_alpha_beta_move_ext fuel (st : GameState.t loc) depth :
  extensive (get_alpha_beta_move fuel st depth).
Proof.
  unfold get_alpha_beta_move.
  apply extensive_bind; [apply mancala_to_move_ext|]. intros p.
  apply alpha_beta_search_ext;
    auto using mancala_actions_ext, result_extensive, mancala_to_move_ext,
      mancala_utility_ext, mancala_terminal_test_ext.
  - intros f [= <-] s d. apply extensive_if; [apply extensive_ret|apply mancala_terminal_test_ext].
  - intros f [= <-] s. apply mancala_utility_ext.
Qed.

(** C8. [MancalaAI.result] on a legal move builds its result in a new
    game object (a deep copy it then plays on) and leaves every object
    of the store as it was, the input state's game (board, current player
    and history) among them; whatever the move and however the call ends,
    it changes no object it found.  Hence [minimax_search],
    [alpha_beta_search] and the two wrappers, which reach the store only
    through the game's methods, leave the game object of the root state,
    and every other object they found, unchanged. *)
Theorem search_never_mutates :
  (∀ (st : GameState.t loc) (move : Z) (h : store) (g : MancalaGame),
     h !! GameState.board st = Some g → wf g → is_terminal g = false →
     is_valid_move move g = (Return true, g) →
     ∃ st' g' h',
       result st move h = (Return st', h') ∧
       GameState.board st' ≠ GameState.board st ∧
       h !! GameState.board st' = None ∧
       h' !! GameState.board st' = Some g' ∧
       play move g = (Return true, g') ∧
       h' !! GameState.board st = Some g ∧
       ∀ l g0, h !! l = Some g0 → h' !! l = Some g0) ∧
  (∀ (st : GameState.t loc) (move : Z), extensive (result st move)) ∧
  (∀ (fuel : nat) (st : GameState.t loc) (depth : Z),
     extensive (alpha_beta_search fuel st depth None None) ∧
     extensive (minimax_search fuel st depth) ∧
     extensive (get_alpha_beta_move fuel st depth) ∧
     extensive (get_minimax_move fuel st depth)) ∧
  (∀ (fuel : nat) (st : GameState.t loc) (depth : Z) (h : store) r h',
     alpha_beta_search fuel st depth None None h = (r, h') ∨
     minimax_search fuel st depth h = (r, h') →
     ∀ g, h !! GameState.board st = Some g → h' !! GameState.board st = Some g).
Proof.
  assert (∀ (fuel : nat) (st : GameState.t loc) (depth : Z),
     extensive (alpha_beta_search fuel st depth None None) ∧
     extensive (minimax_search fuel st depth)) as Hsearch.
  { intros fuel st depth. split.
    - apply alpha_beta_search_ext;
        auto using mancala_actions_ext, result_extensive, mancala_to_move_ext,
          mancala_utility_ext, mancala_terminal_test_ext; done.
    - apply minimax_search_ext;
        auto using mancala_actions_ext, result_extensive, mancala_to_move_ext,
          mancala_utility_ext, mancala_terminal_test_ext. }
  split; [|split; [|split]].
  - intros st move h g Hl Hwf Ht Hv.
    destruct (result_legal st move h g Hl Hwf Ht Hv) as (st' & g' & Hres & Hnew & Hplay & _).
    exists st', g', (<[GameState.board st':=g']> h).
    assert (GameState.board st' ≠ GameState.board st) as Hne by congruence.
    split; [done|]. split; [done|]. split; [done|].
    split; [by rewrite lookup_insert_eq|]. split; [done|].
    split; [by rewrite lookup_insert_ne|].
    intros l g0 Hl0. rewrite lookup_insert_ne; [done|]. congruence.
  - apply result_extensive.
  - intros fuel st depth. destruct (Hsearch fuel st depth) as [Hab Hmm].
    split; [done|]. split; [done|]. split; [apply get_alpha_beta_move_ext|done].
  - intros fuel st depth h r h' Hrun g Hl.
    destruct (Hsearch fuel st depth) as [Hab Hmm].
    assert (h ⊆ h') as Hsub by (destruct Hrun; [by eapply Hab|by eapply Hmm]).
    by eapply lookup_weaken.
Qed.

Lemma search_never_mutates_witness :
  ∃ st' g' h',
    result root_3x2 2 store_3x2 = (Return st', h') ∧
    GameState.board st' ≠ GameState.board root_3x2 ∧
    store_3x2 !! GameState.board st' = None ∧
    h' !! GameState.board st' = Some g' ∧
    play 2 (mkGame 3 2 [2;2;2;0;2;2;2;0] 1 []) = (Return true, g') ∧
    h' !! GameState.board root_3x2 = Some (mkGame 3 2 [2;2;2;0;2;2;2;0] 1 []) ∧
    ∀ l g0, store_3x2 !! l = Some g0 → h' !! l = Some g0.
Proof.
  destruct search_never_mutates as [H _].
  apply (H root_3x2 2 store_3x2 (mkGame 3 2 [2;2;2;0;2;2;2;0] 1 [])).
  - reflexivity.
  - repeat split; [simpl; lia|]. simpl. repeat constructor; lia.
  - reflexivity.
  - vm_compute. reflexivity.
Defined.
(** ** The search over the store computes what the search by value does *)

Section Simulation.
Context {St V A : Type} {GH : Game H St A} {GV : Game outcome V A}.

(** [den h s]: the state [s] with the objects it refers to in [h] in
    their place. *)
Variable den : store → St → option V.
Variable ok : V → Prop.

Hypothesis den_mono : ∀ (h h' : store) s v, h ⊆ h' → den h s = Some v → den h' s = Some v.
Hypothesis sim_actions : ∀ h s v, den h s = Some v → ok v →
  ∃ acts, actions v = Return acts ∧ actions s h = (Return acts, h) ∧
    ∀ a, a ∈ acts →
      ∃ s' v' h', result s a h = (Return s', h') ∧ result v a = Return v' ∧
                  h ⊆ h' ∧ den h' s' = Some v' ∧ ok v'.
Hypothesis sim_terminal_test : ∀ h s v, den h s = Some v → ok v →
  terminal_test s h = (terminal_test v, h).
Hypothesis sim_utility : ∀ h s v p, den h s = Some v → ok v →
  utility s p h = (utility v p, h).
Hypothesis sim_to_move : ∀ h s v, den h s = Some v → ok v →
  to_move s h = (to_move v, h).

Lemma sim_result h0 h s v a :
  den h0 s = Some v → ok v → h0 ⊆ h → offered v a →
  ∃ s' v' h', result s a h = (Return s', h') ∧ result v a = Return v' ∧
              h ⊆ h' ∧ den h' s' = Some v' ∧ ok v'.
Proof.
  intros Hden Hok Hsub (acts & Hacts & Ha).
  destruct (sim_actions h s v (den_mono _ _ _ _ Hsub Hden) Hok) as (acts' & Hacts' & _ & Hres).
  rewrite Hacts in Hacts'. injection Hacts' as <-. by apply Hres.
Qed.

Lemma simulates_bind {X Y} (cH : H X) (kH : X → H Y) cV kV h :
  simulates cH cV h →
  (∀ x h1, cV = Return x → h ⊆ h1 → simulates (kH x) (kV x) h1) →
  simulates (sbind cH kH) (sbind cV kV) h.
Proof.
  intros (h1 & Hrun & Hsub) Hk. unfold simulates.
  cbn [sbind store_monad outcome_monad]. unfold hbind. rewrite Hrun.
  destruct cV as [x|e|]; cbn [obind]; [|by eauto..].
  destruct (Hk x h1 eq_refl Hsub) as (h2 & Hrun2 & Hsub2).
  exists h2. split; [done|]. by etrans.
Qed.

Lemma simulates_ret {X} (x : X) h : simulates (sret x) (sret x) h.
Proof. by exists h. Qed.

Lemma simulates_fuel {X} h : simulates (sfuel : H X) (sfuel : outcome X) h.
Proof. by exists h. Qed.

Lemma simulates_same {X} (cH : H X) cV h : cH h = (cV, h) → simulates cH cV h.
Proof. intros. by exists h. Qed.

(** One iteration: run [result] on both sides, then go on. *)
Lemma simulates_result {Y} h0 h s v a (kH : St → H Y) (kV : V → outcome Y) :
  den h0 s = Some v → ok v → h0 ⊆ h → offered v a →
  (∀ s' v' h1, den h1 s' = Some v' → ok v' → h ⊆ h1 → simulates (kH s') (kV v') h1) →
  simulates (sbind (result s a) kH) (sbind (result v a) kV) h.
Proof.
  intros Hden Hok Hsub Hoff Hk.
  destruct (sim_result h0 h s v a Hden Hok Hsub Hoff)
    as (s' & v' & h1 & Hr & Hrv & Hsub1 & Hden1 & Hok1).
  destruct (Hk s' v' h1 Hden1 Hok1 Hsub1) as (h2 & Hrun & Hsub2).
  exists h2. cbn [sbind store_monad outcome_monad]. unfold hbind.
  rewrite Hr, Hrv. cbn [obind]. split; [done|]. by etrans.
Qed.

Lemma ab_max_loop_sim childH childV h0 s v acts :
  den h0 s = Some v → ok v → (∀ a, a ∈ acts → offered v a) →
  (∀ s' v' h a b, den h s' = Some v' → ok v' → simulates (childH s' a b) (childV v' a b) h) →
  ∀ h x alpha beta, h0 ⊆ h →
    simulates (ab_max_loop childH s acts x alpha beta) (ab_max_loop childV v acts x alpha beta) h.
Proof.
  intros Hden Hok Hoff Hch. induction acts as [|a acts IH]; intros h x alpha beta Hsub;
    cbn [ab_max_loop].
  - apply simulates_ret.
  - apply (simulates_result h0); [done..|by apply Hoff; left|].
    intros s' v' h1 Hden1 Hok1 Hsub1.
    apply simulates_bind; [by apply Hch|].
    intros y h2 _ Hsub2. destruct (ext_le beta (ext_max x y)); [apply simulates_ret|].
    apply IH; [intros a' Ha'; apply Hoff; by right|].
    etrans; [exact Hsub|]. by etrans.
Qed.

Lemma ab_min_loop_sim childH childV h0 s v acts :
  den h0 s = Some v → ok v → (∀ a, a ∈ acts → offered v a) →
  (∀ s' v' h a b, den h s' = Some v' → ok v' → simulates (childH s' a b) (childV v' a b) h) →
  ∀ h x alpha beta, h0 ⊆ h →
    simulates (ab_min_loop childH s acts x alpha beta) (ab_min_loop childV v acts x alpha beta) h.
Proof.
  intros Hden Hok Hoff Hch. induction acts as [|a acts IH]; intros h x alpha beta Hsub;
    cbn [ab_min_loop].
  - apply simulates_ret.
  - apply (simulates_result h0); [done..|by apply Hoff; left|].
    intros s' v' h1 Hden1 Hok1 Hsub1.
    apply simulates_bind; [by apply Hch|].
    intros y h2 _ Hsub2. destruct (ext_le (ext_min x y) alpha); [apply simulates_ret|].
    apply IH; [intros a' Ha'; apply Hoff; by right|].
    etrans; [exact Hsub|]. by etrans.
Qed.

Lemma mm_max_loop_sim childH childV h0 s v acts :
  den h0 s = Some v → ok v → (∀ a, a ∈ acts → offered v a) →
  (∀ s' v' h, den h s' = Some v' → ok v' → simulates (childH s') (childV v') h) →
  ∀ h x, h0 ⊆ h →
    simulates (mm_max_loop childH s acts x) (mm_max_loop childV v acts x) h.
Proof.
  intros Hden Hok Hoff Hch. induction acts as [|a acts IH]; intros h x Hsub;
    cbn [mm_max_loop].
  - apply simulates_ret.
  - apply (simulates_result h0); [done..|by apply Hoff; left|].
    intros s' v' h1 Hden1 Hok1 Hsub1.
    apply simulates_bind; [by apply Hch|].
    intros y h2 _ Hsub2.
    apply IH; [intros a' Ha'; apply Hoff; by right|].
    etrans; [exact Hsub|]. by etrans.
Qed.

Lemma mm_min_loop_sim childH childV h0 s v acts :
  den h0 s = Some v → ok v → (∀ a, a ∈ acts → offered v a) →
  (∀ s' v' h, den h s' = Some v' → ok v' → simulates (childH s') (childV v') h) →
  ∀ h x, h0 ⊆ h →
    simulates (mm_min_loop childH s acts x) (mm_min_loop childV v acts x) h.
Proof.
  intros Hden Hok Hoff Hch. induction acts as [|a acts IH]; intros h x Hsub;
    cbn [mm_min_loop].
  - apply simulates_ret.
  - apply (simulates_result h0); [done..|by apply Hoff; left|].
    intros s' v' h1 Hden1 Hok1 Hsub1.
    apply simulates_bind; [by apply Hch|].
    intros y h2 _ Hsub2.
    apply IH; [intros a' Ha'; apply Hoff; by right|].
    etrans; [exact Hsub|]. by etrans.
Qed.

Lemma simulates_actions {Y} h s v (kH : list A → H Y) (kV : list A → outcome Y) :
  den h s = Some v → ok v →
  (∀ acts h1, h ⊆ h1 → (∀ a, a ∈ acts → offered v a) → simulates (kH acts) (kV acts) h1) →
  simulates (sbind (actions s) kH) (sbind (actions v) kV) h.
Proof.
  intros Hden Hok Hk.
  destruct (sim_actions h s v Hden Hok) as (acts & Hacts & HactsH & _).
  apply simulates_bind; [apply simulates_same; by rewrite Hacts|].
  intros acts' h1 Heq Hsub. rewrite Hacts in Heq. injection Heq as <-.
  apply Hk; [done|]. intros a Ha. by exists acts.
Qed.

Section Values.
Variables (cutH : St → Z → H bool) (cutV : V → Z → outcome bool).
Variables (evalH : St → H Z) (evalV : V → outcome Z).
Hypothesis sim_cut : ∀ h s v d, den h s = Some v → ok v → simulates (cutH s d) (cutV v d) h.
Hypothesis sim_eval : ∀ h s v, den h s = Some v → ok v → simulates (evalH s) (evalV v) h.

Lemma ab_values_sim fuel : ∀ h s v alpha beta d,
  den h s = Some v → ok v →
  simulates (ab_max_value cutH evalH fuel s alpha beta d)
            (ab_max_value cutV evalV fuel v alpha beta d) h ∧
  simulates (ab_min_value cutH evalH fuel s alpha beta d)
            (ab_min_value cutV evalV fuel v alpha beta d) h.
Proof.
  induction fuel as [|fuel IH]; intros h s v alpha beta d Hden Hok;
    cbn [ab_max_value ab_min_value].
  - split; apply simulates_fuel.
  - split.
    + apply simulates_bind; [by apply sim_cut|]. intros stop h1 _ Hsub1.
      pose proof (den_mono _ _ _ _ Hsub1 Hden) as Hden1.
      destruct stop.
      * apply simulates_bind; [by apply sim_eval|]. intros. apply simulates_ret.
      * apply simulates_actions; [done..|]. intros acts h2 Hsub2 Hoff.
        apply (ab_max_loop_sim _ _ h1); [done..| |done].
        intros. by apply IH.
    + apply simulates_bind; [by apply sim_cut|]. intros stop h1 _ Hsub1.
      pose proof (den_mono _ _ _ _ Hsub1 Hden) as Hden1.
      destruct stop.
      * apply simulates_bind; [by apply sim_eval|]. intros. apply simulates_ret.
      * apply simulates_actions; [done..|]. intros acts h2 Hsub2 Hoff.
        apply (ab_min_loop_sim _ _ h1); [done..| |done].
        intros. by apply IH.
Qed.

Lemma ab_root_loop_sim fuel h0 s v acts :
  den h0 s = Some v → ok v → (∀ a, a ∈ acts → offered v a) →
  ∀ h best_score best_action, h0 ⊆ h →
    simulates (ab_root_loop cutH evalH fuel s acts best_score best_action)
              (ab_root_loop cutV evalV fuel v acts best_score best_action) h.
Proof.
  intros Hden Hok Hoff. induction acts as [|a acts IH];
    intros h best_score best_action Hsub; cbn [ab_root_loop].
  - apply simulates_ret.
  - apply (simulates_result h0); [done..|by apply Hoff; left|].
    intros s' v' h1 Hden1 Hok1 Hsub1.
    apply simulates_bind; [by apply ab_values_sim|].
    intros y h2 _ Hsub2.
    assert (h0 ⊆ h2) by (etrans; [exact Hsub|]; by etrans).
    destruct (ext_lt best_score y);
      (apply IH; [intros a' Ha'; apply Hoff; by right|done]).
Qed.
End Values.

Lemma default_cutoff_sim depth h s v d :
  den h s = Some v → ok v →
  simulates (default_cutoff_test depth s d) (default_cutoff_test depth v d) h.
Proof.
  intros Hden Hok. unfold default_cutoff_test.
  destruct (d >=? depth); [apply simulates_ret|].
  apply simulates_same. by apply sim_terminal_test.
Qed.

Lemma mm_values_sim depth player fuel : ∀ h s v d,
  den h s = Some v → ok v →
  simulates (mm_max_value depth player fuel s d) (mm_max_value depth player fuel v d) h ∧
  simulates (mm_min_value depth player fuel s d) (mm_min_value depth player fuel v d) h.
Proof.
  induction fuel as [|fuel IH]; intros h s v d Hden Hok; cbn [mm_max_value mm_min_value].
  - split; apply simulates_fuel.
  - split.
    + apply simulates_bind; [by apply default_cutoff_sim|]. intros stop h1 _ Hsub1.
      pose proof (den_mono _ _ _ _ Hsub1 Hden) as Hden1.
      destruct stop.
      * apply simulates_bind; [apply simulates_same; by apply sim_utility|].
        intros. apply simulates_ret.
      * apply simulates_actions; [done..|]. intros acts h2 Hsub2 Hoff.
        apply (mm_max_loop_sim _ _ h1); [done..| |done].
        intros. by apply IH.
    + apply simulates_bind; [by apply default_cutoff_sim|]. intros stop h1 _ Hsub1.
      pose proof (den_mono _ _ _ _ Hsub1 Hden) as Hden1.
      destruct stop.
      * apply simulates_bind; [apply simulates_same; by apply sim_utility|].
        intros. apply simulates_ret.
      * apply simulates_actions; [done..|]. intros acts h2 Hsub2 Hoff.
        apply (mm_min_loop_sim _ _ h1); [done..| |done].
        intros. by apply IH.
Qed.

Lemma mm_root_loop_sim depth player fuel h0 s v acts :
  den h0 s = Some v → ok v → (∀ a, a ∈ acts → offered v a) →
  ∀ h best_action best_value, h0 ⊆ h →
    simulates (mm_root_loop depth player fuel s acts best_action best_value)
              (mm_root_loop depth player fuel v acts best_action best_value) h.
Proof.
  intros Hden Hok Hoff. induction acts as [|a acts IH];
    intros h best_action best_value Hsub; cbn [mm_root_loop].
  - apply simulates_ret.
  - apply (simulates_result h0); [done..|by apply Hoff; left|].
    intros s' v' h1 Hden1 Hok1 Hsub1.
    apply simulates_bind; [by apply mm_values_sim|].
    intros y h2 _ Hsub2.
    assert (h0 ⊆ h2) by (etrans; [exact Hsub|]; by etrans).
    destruct (ext_lt best_value y);
      (apply IH; [intros a' Ha'; apply Hoff; by right|done]).
Qed.

(** The searches over the store return what the searches by value
    return, and keep every object they found. *)
Lemma searches_sim fuel depth h s v :
  den h s = Some v → ok v →
  (∃ h', alpha_beta_search fuel s depth None None h
           = (alpha_beta_search fuel v depth None None, h') ∧ h ⊆ h') ∧
  (∃ h', minimax_search fuel s depth h = (minimax_search fuel v depth, h') ∧ h ⊆ h').
Proof.
  intros Hden Hok. split.
  - unfold alpha_beta_search.
    apply simulates_bind; [apply simulates_same; by apply sim_to_move|].
    intros player h1 _ Hsub1. pose proof (den_mono _ _ _ _ Hsub1 Hden) as Hden1.
    apply simulates_actions; [done..|]. intros acts h2 Hsub2 Hoff.
    apply (ab_root_loop_sim _ _ _ _ ) with (h0 := h1); [| |done..].
    + intros. by apply default_cutoff_sim.
    + intros. apply simulates_same. by apply sim_utility.
  - unfold minimax_search.
    apply simulates_bind; [apply simulates_same; by apply sim_to_move|].
    intros player h1 _ Hsub1. pose proof (den_mono _ _ _ _ Hsub1 Hden) as Hden1.
    apply simulates_actions; [done..|]. intros acts h2 Hsub2 Hoff.
    by apply (mm_root_loop_sim _ _ _ h1).
Qed.
End Simulation.
(** ** [MancalaAI]: the store against the contents *)

Lemma on_object_readonly_run {X} l (m : M X) (h : store) g :
  h !! l = Some g → readonly m → on_object l m h = (fst (m g), h).
Proof.
  intros Hl Hm. unfold on_object. rewrite Hl. specialize (Hm g).
  destruct (m g) as [r g']. simpl in *. subst. by rewrite insert_id.
Qed.

Lemma contents_lookup h s v :
  contents h s = Some v →
  h !! GameState.board s = Some (GameState.board v) ∧
  GameState.to_move v = GameState.to_move s.
Proof.
  unfold contents. destruct (h !! GameState.board s); [|done]. by intros [= <-].
Qed.

Lemma contents_mono (h h' : store) s v :
  h ⊆ h' → contents h s = Some v → contents h' s = Some v.
Proof.
  intros Hsub. unfold contents.
  destruct (h !! GameState.board s) as [g|] eqn:Hl; [|done].
  by rewrite (lookup_weaken _ _ _ _ Hl Hsub).
Qed.

Lemma mancala_sim_actions h s v :
  contents h s = Some v → wf (GameState.board v) →
  ∃ acts, actions v = Return acts ∧ actions s h = (Return acts, h) ∧
    ∀ a, a ∈ acts →
      ∃ s' v' h', result s a h = (Return s', h') ∧ result v a = Return v' ∧
                  h ⊆ h' ∧ contents h' s' = Some v' ∧ wf (GameState.board v').
Proof.
  intros Hc Hwf. destruct (contents_lookup _ _ _ Hc) as [Hl _].
  set (g := GameState.board v) in *.
  cbn [actions result MancalaAI.game MancalaAI.game_by_value]. fold g.
  rewrite (on_object_readonly_run _ _ h g Hl readonly_actions_body).
  unfold MancalaAI.actions_body, MancalaAI.terminal_test_body, MancalaAI.lift, bind, ret.
  destruct (is_terminal g) eqn:Ht.
  - exists []. repeat split. intros a Ha. by apply elem_of_nil in Ha.
  - destruct (get_valid_moves_spec g Hwf) as (ms & Hms & Hall). rewrite Hms.
    exists ms. repeat split. intros a Ha.
    destruct (result_body_spec a g Hwf Ht (Hall a Ha)) as (f & g' & Hbody & Hwf' & _).
    destruct (copy_spec _ h g Hl) as [Hcopy Hfresh].
    cbn [sbind sret store_monad]. unfold hbind. rewrite Hcopy.
    unfold on_object. rewrite lookup_insert_eq, Hbody, insert_insert_eq.
    eexists _, _, _. split; [done|]. split; [done|].
    split; [by apply insert_subseteq|].
    unfold contents. cbn [GameState.board]. rewrite lookup_insert_eq. done.
Qed.

Lemma mancala_sim_terminal_test h s v :
  contents h s = Some v → wf (GameState.board v) →
  terminal_test s h = (terminal_test v, h).
Proof.
  intros Hc _. destruct (contents_lookup _ _ _ Hc) as [Hl _].
  cbn [terminal_test MancalaAI.game MancalaAI.game_by_value].
  by rewrite (on_object_readonly_run _ _ h _ Hl readonly_terminal_test_body).
Qed.

Lemma mancala_sim_utility h s v p :
  contents h s = Some v → wf (GameState.board v) →
  utility s p h = (utility v p, h).
Proof.
  intros Hc _. destruct (contents_lookup _ _ _ Hc) as [Hl _].
  cbn [utility MancalaAI.game MancalaAI.game_by_value].
  by rewrite (on_object_readonly_run _ _ h _ Hl (readonly_utility_body p)).
Qed.

Lemma mancala_sim_to_move h s v :
  contents h s = Some v → wf (GameState.board v) →
  to_move s h = (to_move v, h).
Proof.
  intros Hc _. destruct (contents_lookup _ _ _ Hc) as [_ Hm].
  cbn [to_move MancalaAI.game MancalaAI.game_by_value sret store_monad]. by rewrite Hm.
Qed.

(** C2. On every well-formed state, for every depth [d >= 1] (any depth
    indeed) and any budget of call frames that covers it,
    [alpha_beta_search] and [minimax_search] both return, and return the
    same move: the first one of greatest backed-up value, or [None] at a
    root without moves.  So the backed-up values of the two moves are one
    value, the greatest among the root's moves.  The wrappers
    [get_alpha_beta_move] and [get_minimax_move] return that move too.
    The first part is the search on states by value; the second the
    search as it runs, over the object store, which returns the move the
    search by value returns. *)
Theorem alpha_beta_equals_minimax (depth : Z) (fuel : nat) :
  (1 <= fuel)%nat → depth <= Z.of_nat fuel →
  (∀ st : GameState.t MancalaGame,
     wf (GameState.board st) →
     ∃ r,
       alpha_beta_search fuel st depth None None = Return r ∧
       minimax_search fuel st depth = Return r ∧
       get_alpha_beta_move fuel st depth = Return r ∧
       get_minimax_move fuel st depth = Return r ∧
       (∀ a b,
          alpha_beta_search fuel st depth None None = Return (Some a) →
          minimax_search fuel st depth = Return (Some b) →
          ∃ v, backed_up_value fuel st depth a = Return v ∧
               backed_up_value fuel st depth b = Return v ∧
               ∀ acts m, actions st = Return acts → m ∈ acts →
                 ∃ vm, backed_up_value fuel st depth m = Return vm ∧ ext_le vm v = true)) ∧
  (∀ (s : GameState.t loc) (h : store) (v : GameState.t MancalaGame),
     contents h s = Some v → wf (GameState.board v) →
     ∃ r h1 h2,
       alpha_beta_search fuel s depth None None h = (Return r, h1) ∧
       minimax_search fuel s depth h = (Return r, h2) ∧
       alpha_beta_search fuel v depth None None = Return r ∧
       h ⊆ h1 ∧ h ⊆ h2).
Proof.
  intros Hf Hd. split.
  - intros st Hwf. by apply searches_agree_by_value.
  - intros s h v Hc Hwf.
    destruct (searches_agree_by_value v depth fuel Hwf Hf Hd) as (r & Hab & Hmm & _).
    destruct (searches_sim contents (λ v, wf (GameState.board v)) contents_mono
                mancala_sim_actions mancala_sim_terminal_test mancala_sim_utility
                mancala_sim_to_move fuel depth h s v Hc Hwf)
      as [(h1 & Hrun1 & Hsub1) (h2 & Hrun2 & Hsub2)].
    rewrite Hab in Hrun1. rewrite Hmm in Hrun2.
    exists r, h1, h2. done.
Qed.

Lemma alpha_beta_equals_minimax_witness :
  ∃ r h1 h2,
    alpha_beta_search 3 root_3x2 3 None None store_3x2 = (Return r, h1) ∧
    minimax_search 3 root_3x2 3 store_3x2 = (Return r, h2) ∧
    alpha_beta_search 3 state_3x2 3 None None = Return r ∧
    store_3x2 ⊆ h1 ∧ store_3x2 ⊆ h2.
Proof.
  destruct (alpha_beta_equals_minimax 3 3 ltac:(lia) ltac:(lia)) as [_ H].
  apply H.
  - reflexivity.
  - repeat split; [simpl; lia|]. simpl. repeat constructor; lia.
Defined.

(** * More of the game engine *)

(** ** The list of valid moves *)

Lemma ascending_range a c : ascending (Py.range a c).
Proof.
  revert a. apply (range_ind (λ a, ascending (Py.range a c)) c); intros a Ha.
  - by rewrite range_nil.
  - intros IH. rewrite range_cons by done. simpl. split; [|done].
    destruct (Z.le_gt_cases c (a + 1)).
    + by rewrite range_nil.
    + rewrite range_cons by done. lia.
Qed.

Lemma ascending_lower x l : ascending (x :: l) → ∀ y, y ∈ l → x < y.
Proof.
  revert x. induction l as [|z l IH]; intros x [Hx Hl] y Hy.
  - by apply elem_of_nil in Hy.
  - apply elem_of_cons in Hy as [->|Hy]; [done|].
    specialize (IH z Hl y Hy). lia.
Qed.

Lemma ascending_sub x l l' :
  ascending (x :: l) → ascending l' → (∀ y, y ∈ l' → y ∈ l) → ascending (x :: l').
Proof.
  intros Hxl Hl' Hsub. simpl. split; [|done].
  destruct l' as [|y l'']; [done|].
  apply (ascending_lower x l Hxl). apply Hsub. by left.
Qed.

Lemma elem_of_range a c x : x ∈ Py.range a c ↔ a <= x < c.
Proof.
  unfold Py.range. rewrite list_elem_of_fmap. split.
  - intros (k & -> & Hk%elem_of_seq). lia.
  - intros Hx. exists (Z.to_nat (x - a)). split; [lia|]. apply elem_of_seq. lia.
Qed.

Lemma get_valid_moves_list g pits :
  wf g →
  ∃ ms,
    (fix go (pits : list Z) : outcome (list Z) :=
       match pits with
       | [] => Return []
       | pit :: rest =>
           match fst (is_valid_move pit g) with
           | Return ok =>
               match go rest with
               | Return ms => Return (if ok then pit :: ms else ms)
               | other => other
               end
           | Raise e => Raise e
           | OutOfFuel => OutOfFuel
           end
       end) pits = Return ms ∧
    (∀ pit, pit ∈ ms ↔ pit ∈ pits ∧ is_valid_move pit g = (Return true, g)) ∧
    (ascending pits → ascending ms).
Proof.
  intros Hwf. induction pits as [|pit pits (ms & Hms & Hin & Hasc)].
  - exists []. split; [done|]. split; [|done]. intros pit. split.
    + intros H. by apply elem_of_nil in H.
    + intros [H _]. by apply elem_of_nil in H.
  - rewrite Hms. destruct (is_valid_move_cases pit g Hwf) as [Hv|Hv]; rewrite Hv; simpl.
    + exists (pit :: ms). split; [done|]. split.
      * intros p. rewrite !elem_of_cons, Hin. split.
        -- intros [->|[? ?]]; auto.
        -- intros [[->|?] ?]; auto.
      * intros Ha. eapply ascending_sub; [exact Ha|apply Hasc, Ha|].
        intros y Hy. by apply Hin in Hy as [? _].
    + exists ms. split; [done|]. split.
      * intros p. rewrite elem_of_cons, Hin. split.
        -- intros [? ?]; auto.
        -- intros [[->|?] Hp]; [congruence|auto].
      * intros Ha. apply Hasc, Ha.
Qed.

(** X1. On a well-formed game [get_valid_moves] returns, in strictly
    ascending order, exactly the pit numbers for which [is_valid_move]
    holds: the numbers from [1] to [P] whose pit on the mover's side is
    not empty. *)
Theorem valid_moves_listed g :
  wf g →
  ∃ ms,
    get_valid_moves g = Return ms ∧
    ascending ms ∧
    (∀ pit, pit ∈ ms ↔ is_valid_move pit g = (Return true, g)) ∧
    (∀ pit, pit ∈ ms ↔
       1 <= pit <= pits_per_player g ∧ 0 < cell (board g) (mover_pit_index g pit)).
Proof.
  intros Hwf. unfold get_valid_moves.
  destruct (get_valid_moves_list g (Py.range 1 (pits_per_player g + 1)) Hwf)
    as (ms & Hms & Hin & Hasc).
  assert (∀ pit, is_valid_move pit g = (Return true, g) ↔
            1 <= pit <= pits_per_player g ∧ 0 < cell (board g) (mover_pit_index g pit)) as Hv.
  { intros pit. rewrite is_valid_move_spec by done. split.
    - intros [= H]. apply andb_true_iff in H as [[?%Z.leb_le ?%Z.leb_le]%andb_true_iff ?%Z.gtb_lt].
      lia.
    - intros [[H1 H2] H3]. do 2 f_equal.
      apply andb_true_iff. split; [apply andb_true_iff; split; by apply Z.leb_le|].
      by apply Z.gtb_lt. }
  exists ms. split; [done|]. split; [apply Hasc, ascending_range|].
  assert (∀ pit, pit ∈ ms ↔ is_valid_move pit g = (Return true, g)) as Hiff.
  { intros pit. rewrite Hin. split; [by intros [_ ?]|]. intros Hp. split; [|done].
    apply elem_of_range. apply Hv in Hp. lia. }
  split; [done|]. intros pit. by rewrite Hiff.
Qed.

Lemma valid_moves_listed_witness :
  ∃ ms,
    get_valid_moves game_6x4 = Return ms ∧
    ascending ms ∧
    (∀ pit, pit ∈ ms ↔ is_valid_move pit game_6x4 = (Return true, game_6x4)) ∧
    (∀ pit, pit ∈ ms ↔
       1 <= pit <= pits_per_player game_6x4 ∧
       0 < cell (board game_6x4) (mover_pit_index game_6x4 pit)).
Proof.
  apply valid_moves_listed.
  repeat split; [simpl; lia|]. simpl. repeat constructor; lia.
Defined.
Lemma range_sum_nonzero_cell b a c :
  range_sum b a c ≠ 0 → ∃ i, a <= i < c ∧ cell b i ≠ 0.
Proof.
  revert a. apply (range_ind (λ a, range_sum b a c ≠ 0 → ∃ i, a <= i < c ∧ cell b i ≠ 0) c);
    intros a Ha.
  - rewrite range_sum_nil by done. done.
  - intros IH. rewrite range_sum_cons by done. intros Hs.
    destruct (Z.eq_dec (cell b a) 0) as [Hz|Hnz].
    + destruct IH as (i & Hi & Hc); [lia|]. exists i. split; [lia|done].
    + exists a. split; [lia|done].
Qed.

(** A game that is not over has a stone in one of the mover's pits. *)
Lemma not_terminal_has_move g :
  wf g → is_terminal g = false →
  ∃ pit, is_valid_move pit g = (Return true, g).
Proof.
  intros Hwf Ht. rewrite is_terminal_wf in Ht by done.
  apply orb_false_iff in Ht as [H1%Z.eqb_neq H2%Z.eqb_neq].
  pose proof Hwf as (HP & Hlen & Hnn).
  assert (∃ i, fst (mover_pits g) <= i <= snd (mover_pits g) ∧ cell (board g) i ≠ 0)
    as (i & Hi & Hc).
  { unfold mover_pits, _p1_pits_start, _p1_pits_end, _p2_pits_start, _p2_pits_end,
      board_size_of.
    destruct (current_player g =? 1); simpl.
    - destruct (range_sum_nonzero_cell _ _ _ H1) as (i & ? & ?). exists i. split; [lia|done].
    - destruct (range_sum_nonzero_cell _ _ _ H2) as (i & ? & ?). exists i. split; [lia|done]. }
  pose proof (cell_nonneg (board g) i Hnn).
  exists (i - fst (mover_pits g) + 1).
  rewrite is_valid_move_spec by done. do 2 f_equal.
  assert (mover_pit_index g (i - fst (mover_pits g) + 1) = i) as ->.
  { unfold mover_pit_index, mover_pits, _p1_pits_start, _p2_pits_start.
    destruct (current_player g =? 1); simpl; lia. }
  revert Hi. unfold mover_pits, _p1_pits_start, _p1_pits_end, _p2_pits_start, _p2_pits_end,
    board_size_of.
  destruct (current_player g =? 1); simpl; intros Hi;
    (apply andb_true_iff; split; [apply andb_true_iff; split; apply Z.leb_le; lia|];
     apply Z.gtb_lt; lia).
Qed.

(** X2. While a well-formed game is not over, [get_valid_moves] is not
    empty and lists exactly the pits on which [play] succeeds. *)
Theorem valid_moves_are_playable g :
  wf g → is_terminal g = false →
  ∃ ms,
    get_valid_moves g = Return ms ∧ ms ≠ [] ∧
    ∀ pit, pit ∈ ms ↔ ∃ g', play pit g = (Return true, g').
Proof.
  intros Hwf Ht.
  destruct (get_valid_moves_list g (Py.range 1 (pits_per_player g + 1)) Hwf)
    as (ms & Hms & Hin & _).
  assert (∀ pit, is_valid_move pit g = (Return true, g) → pit ∈ ms) as Hback.
  { intros pit Hv. apply Hin. split; [|done]. apply elem_of_range.
    rewrite is_valid_move_spec in Hv by done. injection Hv as Hv.
    apply andb_true_iff in Hv as [[?%Z.leb_le ?%Z.leb_le]%andb_true_iff _]. lia. }
  exists ms. split; [done|]. split.
  - destruct (not_terminal_has_move g Hwf Ht) as (pit & Hv).
    intros ->. apply Hback in Hv. by apply elem_of_nil in Hv.
  - intros pit. split.
    + intros [_ Hv]%Hin. destruct (play_stages pit g Hwf Ht Hv) as (? & ? & _ & ->). eauto.
    + intros [g' Hp]. apply Hback. by destruct (play_success_inv pit g true g' Hwf Hp).
Qed.

Lemma valid_moves_are_playable_witness :
  ∃ ms,
    get_valid_moves game_6x4 = Return ms ∧ ms ≠ [] ∧
    ∀ pit, pit ∈ ms ↔ ∃ g', play pit game_6x4 = (Return true, g').
Proof.
  apply valid_moves_are_playable.
  - repeat split; [simpl; lia|]. simpl. repeat constructor; lia.
  - reflexivity.
Defined.

(** ** Finished games *)

Lemma new_game_cells pits stones g :
  new_game pits stones = Return g → ∀ i, is_pit g i → cell (board g) i = stones.
Proof.
  unfold new_game.
  destruct (Z.ltb_spec pits 1); [done|]. destruct (Z.ltb_spec stones 0); [done|].
  set (n := Z.to_nat ((pits + 1) * 2)).
  assert (Py.len (replicate n stones) = (pits + 1) * 2) as Hl.
  { unfold Py.len. rewrite length_replicate. lia. }
  unfold _p1_mancala, _p2_mancala, board_size_of. cbn [pits_per_player set_board board].
  rewrite bind_board_set by (cbn [board set_board]; lia).
  rewrite board_set_in by (cbn [board set_board]; rewrite len_insert; lia).
  intros [= <-] i Hi%is_pit_range. cbn [board set_board pits_per_player] in *.
  rewrite !cell_insert by (rewrite ?len_insert; lia).
  destruct (Z.eqb_spec ((pits + 1) * 2 - 1) i); [lia|].
  destruct (Z.eqb_spec pits i); [lia|].
  apply cell_replicate. lia.
Qed.

Lemma terminal_pits_sum g :
  wf g → (∀ i, is_pit g i → cell (board g) i = 0) → is_terminal g = true.
Proof.
  intros Hwf Hz. rewrite is_terminal_wf by done.
  rewrite (range_sum_all_zero (board g) 0); [done|].
  intros i Hi. apply Hz, is_pit_range. lia.
Qed.

(** In a reachable game that is over every pit is empty. *)
Lemma reachable_terminal_swept pits stones g :
  reachable pits stones g → is_terminal g = true →
  ∀ i, is_pit g i → cell (board g) i = 0.
Proof.
  intros Hr. destruct Hr as [g Hnew|g pit g' Hr Hp].
  - intros Ht i Hi. rewrite (new_game_cells _ _ _ Hnew i Hi).
    destruct (new_game_spec _ _ _ Hnew) as (HP & HS & Hwf & HPg & _).
    rewrite is_terminal_wf in Ht by done.
    assert (∀ j, 0 <= j <= 2 * pits → j ≠ pits → cell (board g) j = stones) as Hc.
    { intros j Hj Hne. apply (new_game_cells _ _ _ Hnew). apply is_pit_range. lia. }
    rewrite HPg in Ht.
    rewrite (range_sum_cons _ 0), (range_sum_cons _ (pits + 1)) in Ht by lia.
    rewrite !Hc in Ht by lia.
    pose proof Hwf as (_ & _ & Hnn).
    pose proof (range_sum_nonneg (board g) (0 + 1) pits Hnn).
    pose proof (range_sum_nonneg (board g) (pits + 1 + 1) (2 * pits + 1) Hnn).
    apply orb_true_iff in Ht as [Ht%Z.eqb_eq|Ht%Z.eqb_eq]; lia.
  - destruct (reachable_wf _ _ _ Hr) as (Hwf & _). clear Hr.
    destruct (play_success_inv pit g true g' Hwf Hp) as [Ht Hv].
    destruct (play_stages pit g Hwf Ht Hv) as (final & gs & Hsow & Hplay).
    rewrite Hplay in Hp. injection Hp as <-.
    destruct (sow_spec pit g Hwf Hv) as (final' & b' & Hsow' & Hl & Hf & _ & _ & _ & Hnn & _).
    rewrite Hsow in Hsow'. injection Hsow' as <- ->.
    set (gs := set_board b' _) in *.
    assert (wf gs) as Hwfs.
    { apply wf_set_board; [|done..]. by destruct Hwf as (? & ? & ?). }
    pose proof (wf_capture_stage final gs Hwfs) as Hwfc.
    set (gc := capture_stage final gs) in *.
    destruct (sweep_stage_frame gc Hwfc) as [bw Hbw].
    rewrite is_terminal_turn_stage, sweep_stage_terminal by done. intros Htc.
    destruct (sweep_stage_swept gc Hwfc Htc) as (Hz & _).
    intros i Hi. rewrite turn_stage_board. apply Hz.
    revert Hi. rewrite !is_pit_range, turn_stage_pits, Hbw. done.
Qed.

(** X3. In every state a game reaches, the list of valid moves is empty
    exactly when the game is over. *)
Theorem no_moves_iff_over pits stones g :
  reachable pits stones g →
  (get_valid_moves g = Return [] ↔ is_terminal g = true).
Proof.
  intros Hr. destruct (reachable_wf _ _ _ Hr) as (Hwf & _). split.
  - intros Hms. destruct (is_terminal g) eqn:Ht; [done|].
    destruct (get_valid_moves_list g (Py.range 1 (pits_per_player g + 1)) Hwf)
      as (ms & Hms' & Hin & _).
    unfold get_valid_moves in Hms. rewrite Hms' in Hms. injection Hms as ->.
    destruct (not_terminal_has_move g Hwf Ht) as (pit & Hv).
    exfalso. apply (elem_of_nil pit). apply Hin. split; [|done].
    apply elem_of_range. rewrite is_valid_move_spec in Hv by done. injection Hv as Hv.
    apply andb_true_iff in Hv as [[?%Z.leb_le ?%Z.leb_le]%andb_true_iff _]. lia.
  - intros Ht.
    destruct (get_valid_moves_list g (Py.range 1 (pits_per_player g + 1)) Hwf)
      as (ms & Hms & Hin & _).
    unfold get_valid_moves. rewrite Hms. f_equal.
    destruct ms as [|pit ms]; [done|]. exfalso.
    destruct (Hin pit) as [Hp _]. destruct (Hp ltac:(left)) as [Hrange Hv].
    rewrite is_valid_move_spec in Hv by done. injection Hv as Hv.
    apply andb_true_iff in Hv as [[H1%Z.leb_le H2%Z.leb_le]%andb_true_iff Hpos%Z.gtb_lt].
    destruct (mover_pit_index_range g pit Hwf ltac:(lia)) as (Hidx & Hm1 & Hm2).
    rewrite (reachable_terminal_swept _ _ _ Hr Ht) in Hpos; [lia|].
    split.
    + destruct Hwf as (_ & <- & _). done.
    + intros Hs%is_store_mover. destruct Hs; congruence.
Qed.

Lemma no_moves_iff_over_witness :
  get_valid_moves (mkGame 1 3 [0; 6; 0; 0] 1 [(1, 1)]) = Return [] ↔
  is_terminal (mkGame 1 3 [0; 6; 0; 0] 1 [(1, 1)]) = true.
Proof.
  apply (no_moves_iff_over 1 3).
  apply (reach_play 1 3 (mkGame 1 3 [3; 0; 3; 0] 1 []) 1);
    [apply reach_new; reflexivity|vm_compute; reflexivity].
Defined.
Lemma reachable_sum pits stones g :
  reachable pits stones g → Py.sum (board g) = 2 * pits * stones.
Proof.
  induction 1 as [g Hnew|g pit g' Hr IH Hplay].
  - by destruct (new_game_spec _ _ _ Hnew) as (_ & _ & _ & _ & _ & _ & _ & ? & _).
  - destruct (reachable_wf _ _ _ Hr) as (Hwf & _).
    destruct (play_keeps pit g true g' Hwf Hplay) as (_ & -> & _). done.
Qed.

Lemma range_sum_split b a m c :
  a <= m → m <= c → range_sum b a c = range_sum b a m + range_sum b m c.
Proof.
  intros Ham Hmc. revert a Ham.
  apply (range_ind (λ a, a <= m → range_sum b a c = range_sum b a m + range_sum b m c) m);
    intros a Ha.
  - intros Ham. assert (a = m) as -> by lia. rewrite (range_sum_nil b m m) by lia. lia.
  - intros IH _. destruct (Z.eq_dec m c) as [->|Hne].
    + rewrite (range_sum_nil b c c) by lia. lia.
    + rewrite (range_sum_cons b a c), (range_sum_cons b a m) by lia. rewrite IH by lia. lia.
Qed.

Lemma sum_range_sum b : Py.sum b = range_sum b 0 (Py.len b).
Proof.
  rewrite <- slice_sum by (unfold Py.len; lia). f_equal.
  unfold Py.slice, Py.clamp. destruct (Z.ltb_spec 0 0); [lia|].
  destruct (Z.ltb_spec (Py.len b) 0); [unfold Py.len in *; lia|].
  rewrite !Z.min_l by (unfold Py.len; lia). simpl.
  rewrite Z.sub_0_r. unfold Py.len. rewrite Nat2Z.id. by rewrite firstn_all.
Qed.

(** The stones of a well-formed board: the two sides and the two stores. *)
Lemma board_sum_parts g :
  wf g →
  Py.sum (board g) =
    range_sum (board g) 0 (pits_per_player g) + cell (board g) (_p1_mancala g)
    + range_sum (board g) (pits_per_player g + 1) (2 * pits_per_player g + 1)
    + cell (board g) (_p2_mancala g).
Proof.
  intros (HP & Hlen & _). rewrite sum_range_sum, Hlen.
  unfold _p1_mancala, _p2_mancala, board_size_of.
  set (P := pits_per_player g) in *.
  rewrite (range_sum_split _ 0 P) by lia.
  rewrite (range_sum_cons _ P) by lia.
  rewrite (range_sum_split _ (P + 1) (2 * P + 1)) by lia.
  rewrite (range_sum_cons _ (2 * P + 1)) by lia.
  rewrite (range_sum_nil _ (2 * P + 1 + 1)) by lia.
  replace ((P + 1) * 2 - 1) with (2 * P + 1) by lia. lia.
Qed.

(** X4. [get_winner] returns [None] as long as the game is not over.  In
    a finished game that was reached by play, every stone is in a store,
    so the two scores add up to [2 * P * S], and [get_winner] names the
    player whose store holds more than half of the stones, or [0] when
    each store holds [P * S]. *)
Theorem winner_of_finished_game pits stones g :
  reachable pits stones g →
  (is_terminal g = false → get_winner g = Return None) ∧
  (is_terminal g = true →
   ∃ s1 s2 w,
     p1_score g = Return s1 ∧ p2_score g = Return s2 ∧
     s1 + s2 = 2 * pits * stones ∧
     get_winner g = Return (Some w) ∧
     (w = 1 ↔ pits * stones < s1) ∧ (w = 2 ↔ s1 < pits * stones) ∧
     (w = 0 ↔ s1 = pits * stones)).
Proof.
  intros Hr. destruct (reachable_wf _ _ _ Hr) as (Hwf & HP & _). split.
  - intros Ht. unfold get_winner. by rewrite Ht.
  - intros Ht. destruct (score_cells g Hwf) as [Hs1 Hs2].
    pose proof (board_sum_parts g Hwf) as Hparts.
    rewrite (reachable_sum _ _ _ Hr) in Hparts.
    rewrite !range_sum_all_zero in Hparts.
    2:{ intros i Hi. apply (reachable_terminal_swept _ _ _ Hr Ht), is_pit_range. lia. }
    2:{ intros i Hi. apply (reachable_terminal_swept _ _ _ Hr Ht), is_pit_range. lia. }
    set (s1 := cell (board g) (_p1_mancala g)) in *.
    set (s2 := cell (board g) (_p2_mancala g)) in *.
    exists s1, s2, (if s1 >? s2 then 1 else if s2 >? s1 then 2 else 0).
    split; [done|]. split; [done|]. split; [lia|]. split.
    { unfold get_winner. by rewrite Ht, Hs1, Hs2. }
    destruct (Z.gtb_spec s1 s2); [lia|]. destruct (Z.gtb_spec s2 s1); lia.
Qed.

Lemma winner_of_finished_game_witness :
  (is_terminal (mkGame 1 3 [0; 6; 0; 0] 1 [(1, 1)]) = false →
   get_winner (mkGame 1 3 [0; 6; 0; 0] 1 [(1, 1)]) = Return None) ∧
  (is_terminal (mkGame 1 3 [0; 6; 0; 0] 1 [(1, 1)]) = true →
   ∃ s1 s2 w,
     p1_score (mkGame 1 3 [0; 6; 0; 0] 1 [(1, 1)]) = Return s1 ∧
     p2_score (mkGame 1 3 [0; 6; 0; 0] 1 [(1, 1)]) = Return s2 ∧
     s1 + s2 = 2 * 1 * 3 ∧
     get_winner (mkGame 1 3 [0; 6; 0; 0] 1 [(1, 1)]) = Return (Some w) ∧
     (w = 1 ↔ 1 * 3 < s1) ∧ (w = 2 ↔ s1 < 1 * 3) ∧ (w = 0 ↔ s1 = 1 * 3)).
Proof.
  apply (winner_of_finished_game 1 3).
  apply (reach_play 1 3 (mkGame 1 3 [3; 0; 3; 0] 1 []) 1);
    [apply reach_new; reflexivity|vm_compute; reflexivity].
Defined.
(** ** The history of moves *)

Lemma play_history pit g g' :
  wf g → play pit g = (Return true, g') →
  moves_history g' = moves_history g ++ [(current_player g, pit)] ∧
  1 <= pit <= pits_per_player g ∧
  (current_player g' = current_player g ∨
   current_player g' = if current_player g =? 1 then 2 else 1).
Proof.
  intros Hwf Hp.
  destruct (play_success_inv pit g true g' Hwf Hp) as [Ht Hv].
  destruct (play_stages pit g Hwf Ht Hv) as (final & gs & Hsow & Hplay).
  rewrite Hplay in Hp. injection Hp as <-.
  destruct (sow_spec pit g Hwf Hv) as (final' & b' & Hsow' & Hl & Hf & _ & _ & _ & Hnn & _).
  rewrite Hsow in Hsow'. injection Hsow' as <- ->.
  set (gs := set_board b' _) in *.
  assert (wf gs) as Hwfs.
  { apply wf_set_board; [|done..]. by destruct Hwf as (? & ? & ?). }
  destruct (capture_stage_frame final gs) as [bc Hbc].
  destruct (sweep_stage_frame _ (wf_capture_stage final gs Hwfs)) as [bw Hbw].
  rewrite is_valid_move_spec in Hv by done. injection Hv as Hv.
  apply andb_true_iff in Hv as [[?%Z.leb_le ?%Z.leb_le]%andb_true_iff _].
  unfold turn_stage. rewrite Hbw, Hbc.
  destruct (_ && _); simpl; auto.
Qed.

Lemma for_each_app {A} (xs ys : list A) (body : A → M unit) g :
  for_each (xs ++ ys) body g = bind (for_each xs body) (λ _, for_each ys body) g.
Proof.
  revert g. induction xs as [|x xs IH]; intros g; simpl.
  - done.
  - rewrite bind_assoc.
    unfold bind. destruct (body x g) as [[[]| |] g1]; [|done..].
    rewrite IH. reflexivity.
Qed.

(** X5. The history is a faithful log.  In every state a game reaches,
    playing the pits of [moves_history] in order on a new game of the same
    size succeeds and gives back that very state; each entry holds a
    player, [1] or [2], and a pit number from [1] to [P]; and the player
    to move is [1] or [2]. *)
Theorem history_replays pits stones g :
  reachable pits stones g →
  ∃ g0,
    new_game pits stones = Return g0 ∧
    replay (map snd (moves_history g)) g0 = (Return tt, g) ∧
    Forall (history_entry_ok g) (moves_history g) ∧
    (current_player g = 1 ∨ current_player g = 2).
Proof.
  induction 1 as [g Hnew|g pit g' Hr (g0 & Hnew & Hrep & Hall & Hcur) Hplay].
  - exists g. destruct (new_game_spec _ _ _ Hnew) as (_ & _ & _ & _ & _ & Hc & Hh & _).
    rewrite Hh. repeat split; [done|constructor|by left].
  - destruct (reachable_wf _ _ _ Hr) as (Hwf & _).
    destruct (play_history pit g g' Hwf Hplay) as (Hh & Hpit & Hc).
    destruct (play_keeps pit g true g' Hwf Hplay) as (_ & _ & HP & _).
    exists g0. split; [done|]. split; [|split].
    + rewrite Hh, map_app. unfold replay in *. rewrite for_each_app.
      erewrite bind_run by exact Hrep. cbn [map snd for_each].
      unfold bind. rewrite Hplay. done.
    + rewrite Hh. apply Forall_app. split.
      * eapply Forall_impl; [exact Hall|]. intros e. unfold history_entry_ok. by rewrite HP.
      * constructor; [|constructor]. unfold history_entry_ok. simpl. rewrite HP. done.
    + destruct Hc as [Hc|Hc]; rewrite Hc; [done|]. destruct (current_player g =? 1); auto.
Qed.

Lemma history_replays_witness :
  ∃ g0,
    new_game 6 4 = Return g0 ∧
    replay (map snd (moves_history (mkGame 6 4 [0;5;5;5;5;4;0;4;4;4;4;4;4;0] 2 [(1,1)]))) g0
      = (Return tt, mkGame 6 4 [0;5;5;5;5;4;0;4;4;4;4;4;4;0] 2 [(1,1)]) ∧
    Forall (history_entry_ok (mkGame 6 4 [0;5;5;5;5;4;0;4;4;4;4;4;4;0] 2 [(1,1)]))
      (moves_history (mkGame 6 4 [0;5;5;5;5;4;0;4;4;4;4;4;4;0] 2 [(1,1)])) ∧
    (current_player (mkGame 6 4 [0;5;5;5;5;4;0;4;4;4;4;4;4;0] 2 [(1,1)]) = 1 ∨
     current_player (mkGame 6 4 [0;5;5;5;5;4;0;4;4;4;4;4;4;0] 2 [(1,1)]) = 2).
Proof.
  apply (history_replays 6 4).
  apply (reach_play 6 4 game_6x4 1); [apply reach_new; reflexivity|vm_compute; reflexivity].
Defined.
(** ** The opponent's store *)

Lemma capture_stage_opponent final g :
  wf g →
  cell (board (capture_stage final g)) (opponent_mancala g) =
  cell (board g) (opponent_mancala g).
Proof.
  intros Hwf. unfold capture_stage. destruct (captures g final) eqn:Hc; [|done].
  simpl. rewrite capture_board_cell by done.
  pose proof (captures_facts g final Hwf Hc) as Hf. simpl in Hf.
  destruct Hf as (_ & _ & _ & Hfm & Hom & Hfo & Hoo & _ & Hpos).
  assert (opponent_mancala g ≠ mover_mancala g) as Hne.
  { destruct Hwf as (HP & _). unfold opponent_mancala, mover_mancala, _p1_mancala,
      _p2_mancala, board_size_of. destruct (current_player g =? 1); lia. }
  destruct (Z.eqb_spec (opponent_mancala g) (mover_mancala g)); [done|].
  destruct (Z.eqb_spec (opponent_mancala g) final); [done|].
  destruct (Z.eqb_spec (opponent_mancala g) (_get_opposite_pit g final)); [done|].
  done.
Qed.

(** X6. Only the end of the game gives the opponent stones.  After a
    successful [play] that does not end the game, the store of the player
    who did not move holds what it held before: the sowing skips it, a
    capture pays into the mover's store, and no sweep has run. *)
Theorem opponent_store_untouched pit g g' :
  wf g →
  play pit g = (Return true, g') →
  is_terminal g' = false →
  cell (board g') (opponent_mancala g) = cell (board g) (opponent_mancala g) ∧
  (current_player g = 1 → p2_score g' = p2_score g) ∧
  (current_player g ≠ 1 → p1_score g' = p1_score g).
Proof.
  intros Hwf Hp Hgo.
  assert (cell (board g') (opponent_mancala g) = cell (board g) (opponent_mancala g)) as Hcell.
  { destruct (play_success_inv pit g true g' Hwf Hp) as [Ht Hv].
    destruct (play_stages pit g Hwf Ht Hv) as (final & gs & Hsow & Hplay).
    rewrite Hplay in Hp. injection Hp as <-.
    destruct (sow_spec pit g Hwf Hv) as (final' & b' & Hsow' & Hl & Hf & _ & _ & Hopp & Hnn & _).
    rewrite Hsow in Hsow'. injection Hsow' as <- ->.
    set (gs := set_board b' _) in *.
    assert (wf gs) as Hwfs.
    { apply wf_set_board; [|done..]. by destruct Hwf as (? & ? & ?). }
    pose proof (wf_capture_stage final gs Hwfs) as Hwfc.
    rewrite is_terminal_turn_stage, sweep_stage_terminal in Hgo by done.
    rewrite turn_stage_board. unfold sweep_stage. rewrite Hgo.
    change (opponent_mancala g) with (opponent_mancala gs).
    rewrite capture_stage_opponent by done. exact Hopp. }
  split; [done|].
  destruct (play_keeps pit g true g' Hwf Hp) as (Hwf' & _ & HP & _).
  destruct (score_cells g Hwf) as [H1 H2], (score_cells g' Hwf') as [H1' H2'].
  rewrite H1, H2, H1', H2'. unfold opponent_mancala in Hcell.
  unfold _p1_mancala, _p2_mancala, board_size_of in *. rewrite HP in *.
  split; intros Hcur.
  - apply Z.eqb_eq in Hcur. rewrite Hcur in Hcell. by rewrite Hcell.
  - apply Z.eqb_neq in Hcur. rewrite Hcur in Hcell. by rewrite Hcell.
Qed.

Lemma opponent_store_untouched_witness :
  ∃ g', play 1 game_6x4 = (Return true, g') ∧
    cell (board g') (opponent_mancala game_6x4) = cell (board game_6x4) (opponent_mancala game_6x4) ∧
    (current_player game_6x4 = 1 → p2_score g' = p2_score game_6x4) ∧
    (current_player game_6x4 ≠ 1 → p1_score g' = p1_score game_6x4).
Proof.
  eexists. split; [vm_compute; reflexivity|].
  apply (opponent_store_untouched 1 game_6x4).
  - split; [|split]; [vm_compute; discriminate|reflexivity|].
    repeat constructor; vm_compute; discriminate.
  - vm_compute; reflexivity.
  - reflexivity.
Defined.
(** ** The circuit of the sowing *)

Section Ring.
Variables n opp : Z.
Hypothesis Hn : 2 <= n.
Hypothesis Hopp : 0 <= opp < n.

Lemma ring_pos_cases i :
  0 <= i < n →
  ring_pos n opp i = if i <=? opp then i - opp - 1 + n else i - opp - 1.
Proof.
  intros Hi. unfold ring_pos. destruct (Z.leb_spec i opp); symmetry.
  - apply (Z.mod_unique _ _ (-1)); lia.
  - apply (Z.mod_unique _ _ 0); lia.
Qed.

Lemma next_cases cur :
  0 <= cur < n → (cur + 1) `mod` n = if cur + 1 =? n then 0 else cur + 1.
Proof.
  intros Hc. destruct (Z.eqb_spec (cur + 1) n) as [->|].
  - apply Z_mod_same_full.
  - apply Z.mod_small. lia.
Qed.

Lemma mod_window m x :
  0 < m → - m <= x < m → x `mod` m = if x <? 0 then x + m else x.
Proof.
  intros Hm Hx. destruct (Z.ltb_spec x 0); symmetry.
  - apply (Z.mod_unique _ _ (-1)); lia.
  - apply (Z.mod_unique _ _ 0); lia.
Qed.

Lemma ring_pos_range i :
  0 <= i < n → i ≠ opp → 0 <= ring_pos n opp i <= n - 2.
Proof.
  intros Hi Hne. rewrite ring_pos_cases by done. destruct (Z.leb_spec i opp); lia.
Qed.

Lemma ring_pos_inj i j :
  0 <= i < n → 0 <= j < n → ring_pos n opp i = ring_pos n opp j → i = j.
Proof.
  intros Hi Hj. rewrite !ring_pos_cases by done.
  destruct (Z.leb_spec i opp), (Z.leb_spec j opp); lia.
Qed.

Lemma ring_start_range cur :
  0 <= cur < n → -1 <= ring_start n opp cur <= n - 2.
Proof.
  intros Hc. unfold ring_start. destruct (Z.eqb_spec cur opp); [lia|].
  pose proof (ring_pos_range cur Hc ltac:(done)). lia.
Qed.

Lemma ring_start_next cur :
  0 <= cur < n → (cur + 1) `mod` n ≠ opp →
  ring_pos n opp ((cur + 1) `mod` n) = ring_start n opp cur + 1.
Proof.
  intros Hc. rewrite next_cases by done. unfold ring_start.
  destruct (Z.eqb_spec (cur + 1) n), (Z.eqb_spec cur opp); intros Hne;
    rewrite !ring_pos_cases by lia;
    repeat match goal with |- context [?a <=? ?b] => destruct (Z.leb_spec a b) end; lia.
Qed.

Lemma ring_start_skip cur :
  0 <= cur < n → (cur + 1) `mod` n = opp → ring_start n opp cur = n - 2.
Proof.
  intros Hc. rewrite next_cases by done. unfold ring_start.
  destruct (Z.eqb_spec (cur + 1) n), (Z.eqb_spec cur opp); intros Hne;
    rewrite ?ring_pos_cases by lia;
    repeat match goal with |- context [?a <=? ?b] => destruct (Z.leb_spec a b) end; lia.
Qed.

Lemma visits_zero cur i : 0 <= cur < n → 0 <= i < n → visits n opp cur 0 i = 0.
Proof.
  intros Hc Hi. unfold visits. destruct (Z.eqb_spec i opp); [done|].
  pose proof (Z.mod_pos_bound (ring_pos n opp i - ring_start n opp cur - 1) (n - 1)
                ltac:(lia)).
  apply Z.div_small. lia.
Qed.

Lemma visits_skip cur s i :
  0 <= cur < n → (cur + 1) `mod` n = opp →
  visits n opp cur s i = visits n opp opp s i.
Proof.
  intros Hc Hnx. unfold visits. destruct (i =? opp); [done|].
  rewrite (ring_start_skip cur) by done.
  unfold ring_start at 1. rewrite Z.eqb_refl.
  replace (ring_pos n opp i - (n - 2) - 1)
    with (ring_pos n opp i - -1 - 1 + (-1) * (n - 1)) by lia.
  by rewrite Z_mod_plus_full.
Qed.

Lemma visits_step_other cur s i :
  0 <= cur < n → 0 <= i < n →
  (cur + 1) `mod` n ≠ opp → i ≠ (cur + 1) `mod` n →
  visits n opp cur s i = visits n opp ((cur + 1) `mod` n) (s - 1) i.
Proof.
  intros Hc Hi Hnx Hne. unfold visits. destruct (Z.eqb_spec i opp); [done|].
  pose proof (next_index_bounds n cur ltac:(lia)) as Hb.
  pose proof (ring_start_next cur Hc Hnx) as Hs.
  set (nxt := (cur + 1) `mod` n) in *.
  unfold ring_start at 2. destruct (Z.eqb_spec nxt opp); [done|].
  pose proof (ring_pos_range i Hi ltac:(done)).
  pose proof (ring_pos_range nxt Hb ltac:(done)).
  assert (ring_pos n opp i ≠ ring_pos n opp nxt) by (intros ?%ring_pos_inj; done).
  rewrite !mod_window by lia.
  repeat match goal with |- context [?a <? ?b] => destruct (Z.ltb_spec a b) end;
    try lia; f_equal; lia.
Qed.

Lemma visits_step_hit cur s :
  0 <= cur < n → (cur + 1) `mod` n ≠ opp →
  visits n opp cur s ((cur + 1) `mod` n) =
  1 + visits n opp ((cur + 1) `mod` n) (s - 1) ((cur + 1) `mod` n).
Proof.
  intros Hc Hnx. unfold visits.
  pose proof (next_index_bounds n cur ltac:(lia)) as Hb.
  pose proof (ring_start_next cur Hc Hnx) as Hs.
  set (nxt := (cur + 1) `mod` n) in *.
  destruct (Z.eqb_spec nxt opp); [done|].
  unfold ring_start at 2. destruct (Z.eqb_spec nxt opp); [done|].
  rewrite !mod_window by lia.
  repeat match goal with |- context [?a <? ?b] => destruct (Z.ltb_spec a b) end;
    try lia.
  replace (s + (n - 2) - (ring_pos n opp nxt - ring_start n opp cur - 1))
    with (s - 1 + 1 * (n - 1)) by lia.
  rewrite Z.div_add by lia.
  replace (s - 1 + (n - 2) - (ring_pos n opp nxt - ring_pos n opp nxt - 1 + (n - 1)))
    with (s - 1) by lia.
  lia.
Qed.

(** The sowing loop, cell by cell: where it ends and what each cell
    receives. *)
Lemma distribute_loop_visits fuel : ∀ cur stones g,
  n = Py.len (board g) → 0 <= cur < n → 0 <= stones →
  2 * stones - (if cur =? opp then 1 else 0) <= Z.of_nat fuel →
  ∃ final b',
    distribute_loop fuel n opp cur stones g = (Return final, set_board b' g) ∧
    Py.len b' = n ∧
    (stones = 0 → final = cur) ∧
    (0 < stones →
       0 <= final < n ∧ final ≠ opp ∧
       ring_pos n opp final = (ring_start n opp cur + stones) `mod` (n - 1)) ∧
    (∀ i, 0 <= i < n → cell b' i = cell (board g) i + visits n opp cur stones i).
Proof.
  induction fuel as [|fuel IH]; intros cur stones g Hlen Hcur Hst Hfuel.
  - assert (stones = 0) as -> by (destruct (cur =? opp); lia).
    exists cur, (board g). simpl. rewrite set_board_id.
    split; [done|]. split; [done|]. split; [done|]. split; [lia|].
    intros i Hi. rewrite visits_zero by done. lia.
  - simpl. destruct (Z.gtb_spec stones 0) as [Hpos|Hs].
    2:{ assert (stones = 0) as -> by lia.
        exists cur, (board g). rewrite set_board_id.
        split; [done|]. split; [done|]. split; [done|]. split; [lia|].
        intros i Hi. rewrite visits_zero by done. lia. }
    destruct (Z.eqb_spec n 0); [lia|].
    pose proof (next_index_bounds n cur ltac:(lia)) as Hnext.
    destruct (Z.eqb_spec ((cur + 1) `mod` n) opp) as [Heq|Hne].
    + assert (cur ≠ opp) as Hco.
      { intros ->. by apply (next_index_moves n opp). }
      destruct (Z.eqb_spec cur opp); [done|].
      destruct (IH ((cur + 1) `mod` n) stones g Hlen Hnext Hst) as (final & b' & Hrun & Hl & _ & Hland & Hcells).
      { destruct (Z.eqb_spec ((cur + 1) `mod` n) opp); lia. }
      exists final, b'. split; [done|]. split; [done|]. split; [lia|]. split.
      * intros _. destruct (Hland Hpos) as (? & ? & Hp). split; [done|]. split; [done|].
        rewrite Hp, Heq. unfold ring_start at 1. rewrite Z.eqb_refl.
        rewrite (ring_start_skip cur) by done.
        replace (n - 2 + stones) with (-1 + stones + 1 * (n - 1)) by lia.
        by rewrite Z_mod_plus_full.
      * intros i Hi. rewrite Hcells by done. rewrite (visits_skip cur) by done.
        by rewrite Heq.
    + set (nxt := (cur + 1) `mod` n) in *.
      unfold bind at 1. rewrite board_get_in by lia.
      unfold bind at 1. rewrite board_set_in by lia.
      set (b1 := <[Z.to_nat nxt:=cell (board g) nxt + 1]> (board g)).
      destruct (IH nxt (stones - 1) (set_board b1 g)) as (final & b' & Hrun & Hl & Hz & Hland & Hcells).
      { simpl. unfold b1. by rewrite len_insert. }
      { done. } { lia. }
      { destruct (Z.eqb_spec nxt opp); [done|]. destruct (cur =? opp); lia. }
      rewrite set_board_set_board in Hrun. simpl in Hcells.
      pose proof (ring_start_next cur Hcur Hne) as Hs. fold nxt in Hs.
      pose proof (ring_pos_range nxt Hnext Hne) as Hr.
      exists final, b'. split; [done|]. split; [done|]. split; [lia|]. split.
      * intros _. destruct (Z.eq_dec stones 1) as [->|H1].
        -- rewrite Hz by lia. split; [done|]. split; [done|].
           rewrite Hs. symmetry. apply Z.mod_small. lia.
        -- destruct (Hland ltac:(lia)) as (? & ? & Hp). split; [done|]. split; [done|].
           rewrite Hp. unfold ring_start at 1. destruct (Z.eqb_spec nxt opp); [done|].
           rewrite Hs. f_equal. lia.
      * intros i Hi. rewrite Hcells by done. unfold b1.
        rewrite cell_insert by lia. destruct (Z.eqb_spec nxt i) as [<-|Hni].
        -- unfold nxt. rewrite (visits_step_hit cur stones) by done. lia.
        -- rewrite (visits_step_other cur stones i) by done. done.
Qed.

End Ring.
Lemma distribute_stones_visits g idx pm opp :
  2 <= Py.len (board g) → 0 <= idx < Py.len (board g) → 0 <= opp < Py.len (board g) →
  idx ≠ opp → 0 <= cell (board g) idx →
  let n := Py.len (board g) in
  let s := cell (board g) idx in
  ∃ final b',
    _distribute_stones idx pm opp g = (Return final, set_board b' g) ∧
    Py.len b' = n ∧
    (0 < s →
       0 <= final < n ∧ final ≠ opp ∧
       ring_pos n opp final = (ring_pos n opp idx + s) `mod` (n - 1)) ∧
    (∀ i, 0 <= i < n →
       cell b' i = (if i =? idx then 0 else cell (board g) i) + visits n opp idx s i).
Proof.
  intros Hn Hidx Hopp Hne Hs n s. unfold _distribute_stones.
  rewrite bind_get, bind_board_get, bind_board_set by done. fold s n.
  set (b0 := <[Z.to_nat idx:=0]> (board g)).
  destruct (distribute_loop_visits n opp Hn Hopp (Z.to_nat (2 * s)) idx s (set_board b0 g))
    as (final & b' & Hrun & Hlen & _ & Hland & Hcells).
  { simpl. unfold b0. by rewrite len_insert. }
  { done. } { done. }
  { destruct (idx =? opp); lia. }
  rewrite set_board_set_board in Hrun. simpl in Hcells.
  exists final, b'. split; [done|]. split; [done|]. split.
  - intros Hpos. destruct (Hland Hpos) as (? & ? & Hp). split; [done|]. split; [done|].
    rewrite Hp. unfold ring_start. by destruct (Z.eqb_spec idx opp).
  - intros i Hi. rewrite Hcells by done. unfold b0. rewrite cell_insert by done.
    rewrite (Z.eqb_sym idx i). done.
Qed.

Lemma opponent_mancala_range g :
  wf g → 0 <= opponent_mancala g < Py.len (board g) ∧ opponent_mancala g ≠ mover_mancala g.
Proof.
  intros (HP & Hlen & _). rewrite Hlen.
  unfold opponent_mancala, mover_mancala, _p1_mancala, _p2_mancala, board_size_of.
  destruct (current_player g =? 1); lia.
Qed.

Lemma round_pos_pit g pit :
  wf g → 1 <= pit <= pits_per_player g →
  round_pos g (mover_pit_index g pit) = pit - 1.
Proof.
  intros (HP & Hlen & _) Hpit. unfold round_pos, mover_pit_index, opponent_mancala,
    _p1_pits_start, _p2_pits_start, _p1_mancala, _p2_mancala, board_size_of.
  destruct (current_player g =? 1); symmetry.
  - apply (Z.mod_unique _ _ (-1)); lia.
  - apply (Z.mod_unique _ _ 0); lia.
Qed.

Lemma round_pos_store g :
  wf g → round_pos g (mover_mancala g) = pits_per_player g.
Proof.
  intros (HP & Hlen & _). unfold round_pos, mover_mancala, opponent_mancala,
    _p1_mancala, _p2_mancala, board_size_of.
  destruct (current_player g =? 1); symmetry.
  - apply (Z.mod_unique _ _ (-1)); lia.
  - apply (Z.mod_unique _ _ 0); lia.
Qed.

(** The sowing of [play pit], cell by cell. *)
Lemma sow_visits pit g :
  wf g → is_valid_move pit g = (Return true, g) →
  let n := board_size_of g in
  let s := cell (board g) (mover_pit_index g pit) in
  ∃ final b',
    sow pit g = (Return final,
                 set_board b' (set_moves_history (moves_history g ++ [(current_player g, pit)]) g)) ∧
    1 <= pit <= pits_per_player g ∧ 0 < s ∧
    0 <= final < n ∧ final ≠ opponent_mancala g ∧
    round_pos g final = (pit - 1 + s) `mod` (n - 1) ∧
    (∀ i, 0 <= i < n →
       cell b' i = (if i =? mover_pit_index g pit then 0 else cell (board g) i)
                   + visits n (opponent_mancala g) (mover_pit_index g pit) s i).
Proof.
  intros Hwf Hv n s. rewrite is_valid_move_spec in Hv by done.
  injection Hv as Hv. apply andb_true_iff in Hv as [[H1%Z.leb_le H2%Z.leb_le]%andb_true_iff Hpos].
  apply Z.gtb_lt in Hpos.
  destruct (mover_pit_index_range g pit Hwf ltac:(lia)) as (Hidx & Him & Hio).
  destruct (opponent_mancala_range g Hwf) as [Hopp _].
  pose proof Hwf as (HP & Hlen & Hnn). 
  set (g1 := set_moves_history (moves_history g ++ [(current_player g, pit)]) g).
  destruct (distribute_stones_visits g1 (mover_pit_index g pit) (mover_mancala g)
              (opponent_mancala g)) as (final & b' & Hrun & Hl & Hland & Hcells);
    simpl; try done; try (unfold board_size_of in Hlen; lia).
  simpl in Hland, Hcells. fold s in Hland, Hcells. rewrite Hlen in Hland, Hcells.
  fold n in Hland, Hcells.
  destruct (Hland Hpos) as (Hf & Hfo & Hp).
  exists final, b'. unfold sow. fold g1. split; [done|].
  split; [lia|]. split; [done|]. split; [done|]. split; [done|]. split; [|done].
  pose proof (round_pos_pit g pit Hwf ltac:(lia)) as Hrp.
  unfold round_pos in *. unfold ring_pos in Hp. fold n in Hrp |- *.
  rewrite Hp, Hrp. done.
Qed.

(** ** Where the last stone lands *)

(** X7. The landing index in closed form.  The sowing of a legal move
    goes round the [2P + 1] cells that are not the opponent's store;
    counting them from the mover's first pit, the chosen pit is at place
    [pit - 1], and with [s] stones in it the last stone is dropped at
    place [(pit - 1 + s) mod (2P + 1)], which is never the opponent's
    store and fixes the landing index. *)
Theorem landing_index pit g :
  wf g → is_valid_move pit g = (Return true, g) →
  ∃ final gs,
    sow pit g = (Return final, gs) ∧
    0 <= final < board_size_of g ∧
    final ≠ opponent_mancala g ∧
    round_pos g final =
      (pit - 1 + cell (board g) (mover_pit_index g pit)) `mod` (2 * pits_per_player g + 1) ∧
    (∀ i, 0 <= i < board_size_of g → round_pos g i = round_pos g final → i = final).
Proof.
  intros Hwf Hv.
  destruct (sow_visits pit g Hwf Hv) as (final & b' & Hsow & _ & _ & Hf & Hfo & Hp & _).
  eexists final, _. split; [exact Hsow|]. split; [done|]. split; [done|]. split.
  - rewrite Hp. f_equal. unfold board_size_of. lia.
  - intros i Hi Heq. pose proof Hwf as (HP & Hlen & _).
    destruct (opponent_mancala_range g Hwf) as [Hopp _]. rewrite Hlen in Hopp.
    apply (ring_pos_inj (board_size_of g) (opponent_mancala g)); try done.
    unfold board_size_of. lia.
Qed.

Lemma landing_index_witness :
  ∃ final gs,
    sow 3 game_6x4 = (Return final, gs) ∧
    0 <= final < board_size_of game_6x4 ∧
    final ≠ opponent_mancala game_6x4 ∧
    round_pos game_6x4 final =
      (3 - 1 + cell (board game_6x4) (mover_pit_index game_6x4 3))
        `mod` (2 * pits_per_player game_6x4 + 1) ∧
    (∀ i, 0 <= i < board_size_of game_6x4 →
       round_pos game_6x4 i = round_pos game_6x4 final → i = final).
Proof.
  apply (landing_index 3 game_6x4).
  - split; [|split]; [vm_compute; discriminate|reflexivity|].
    repeat constructor; vm_compute; discriminate.
  - vm_compute; reflexivity.
Defined.

(** X8. What the sowing leaves in every cell.  After the sowing of a
    legal move with [s] stones in the chosen pit, the chosen pit holds
    only what came round to it, the opponent's store holds what it held,
    and the cell [k] places ahead of the chosen pit on the round of
    [2P + 1] cells, [1 <= k <= 2P + 1], has received
    [(s + 2P + 1 - k) / (2P + 1)] stones, rounded down: one for every
    time the hand passed it. *)
Theorem sowing_counts pit g :
  wf g → is_valid_move pit g = (Return true, g) →
  ∃ final gs,
    sow pit g = (Return final, gs) ∧
    ∀ i, 0 <= i < board_size_of g →
      cell (board gs) i =
        (if i =? mover_pit_index g pit then 0 else cell (board g) i)
        + (if i =? opponent_mancala g then 0
           else (cell (board g) (mover_pit_index g pit) + 2 * pits_per_player g
                 - (round_pos g i - pit) `mod` (2 * pits_per_player g + 1))
                  `div` (2 * pits_per_player g + 1)).
Proof.
  intros Hwf Hv.
  destruct (sow_visits pit g Hwf Hv) as (final & b' & Hsow & Hpit & _ & _ & _ & _ & Hcells).
  eexists final, _. split; [exact Hsow|]. intros i Hi. cbn [board set_board].
  rewrite Hcells by done. f_equal. unfold visits.
  destruct (i =? opponent_mancala g); [done|].
  destruct (mover_pit_index_range g pit Hwf ltac:(lia)) as (Hidx & Him & Hio).
  unfold ring_start. destruct (Z.eqb_spec (mover_pit_index g pit) (opponent_mancala g)); [done|].
  pose proof (round_pos_pit g pit Hwf ltac:(lia)) as Hrp. unfold round_pos in *.
  unfold ring_pos. rewrite Hrp.
  replace (board_size_of g - 1) with (2 * pits_per_player g + 1) by (unfold board_size_of; lia).
  replace (board_size_of g - 2) with (2 * pits_per_player g) by (unfold board_size_of; lia).
  do 3 f_equal. lia.
Qed.

Lemma sowing_counts_witness :
  ∃ final gs,
    sow 3 game_6x4 = (Return final, gs) ∧
    ∀ i, 0 <= i < board_size_of game_6x4 →
      cell (board gs) i =
        (if i =? mover_pit_index game_6x4 3 then 0 else cell (board game_6x4) i)
        + (if i =? opponent_mancala game_6x4 then 0
           else (cell (board game_6x4) (mover_pit_index game_6x4 3)
                 + 2 * pits_per_player game_6x4
                 - (round_pos game_6x4 i - 3) `mod` (2 * pits_per_player game_6x4 + 1))
                  `div` (2 * pits_per_player game_6x4 + 1)).
Proof.
  apply (sowing_counts 3 game_6x4).
  - split; [|split]; [vm_compute; discriminate|reflexivity|].
    repeat constructor; vm_compute; discriminate.
  - vm_compute; reflexivity.
Defined.

(** ** The extra turn, by arithmetic *)

Lemma turn_after_play pit g g' final gs :
  wf g → play pit g = (Return true, g') → sow pit g = (Return final, gs) →
  is_terminal g' = false →
  (current_player g' = current_player g ↔ final = mover_mancala g).
Proof.
  intros Hwf Hp Hsow Hgo.
  destruct (play_success_inv pit g true g' Hwf Hp) as [Ht Hv].
  destruct (play_stages pit g Hwf Ht Hv) as (final' & gs' & Hsow' & Hplay).
  rewrite Hsow in Hsow'. injection Hsow' as <- <-.
  rewrite Hplay in Hp. injection Hp as <-.
  destruct (sow_spec pit g Hwf Hv) as (final' & b' & Hsow' & Hl & Hf & _ & _ & _ & Hnn & _).
  rewrite Hsow in Hsow'. injection Hsow' as <- ->.
  set (gs := set_board b' _) in *.
  assert (wf gs) as Hwfs.
  { apply wf_set_board; [|done..]. by destruct Hwf as (? & ? & ?). }
  pose proof (wf_capture_stage final gs Hwfs) as Hwfc.
  destruct (capture_stage_frame final gs) as [bc Hbc].
  destruct (sweep_stage_frame _ Hwfc) as [bw Hbw].
  rewrite is_terminal_turn_stage in Hgo. unfold turn_stage. rewrite Hgo.
  assert (mover_mancala (sweep_stage (capture_stage final gs)) = mover_mancala g) as ->.
  { rewrite Hbw, Hbc. done. }
  assert (current_player (sweep_stage (capture_stage final gs)) = current_player g) as Hcp.
  { rewrite Hbw, Hbc. done. }
  simpl. rewrite andb_true_r.
  destruct (Z.eqb_spec final (mover_mancala g)) as [Heq|Hne]; simpl; rewrite Hcp.
  - done.
  - split; [|done]. destruct (Z.eqb_spec (current_player g) 1) as [->|]; (done || lia).
Qed.

(** X9. The extra turn, read off the board before the move.  In a
    successful [play] of pit [pit] holding [s] stones that does not end
    the game, the mover moves again exactly when
    [(pit - 1 + s) mod (2P + 1) = P]: the last stone then lands in the
    mover's store. *)
Theorem extra_turn_arithmetic pit g g' :
  wf g → play pit g = (Return true, g') → is_terminal g' = false →
  (current_player g' = current_player g ↔
   (pit - 1 + cell (board g) (mover_pit_index g pit)) `mod` (2 * pits_per_player g + 1)
     = pits_per_player g).
Proof.
  intros Hwf Hp Hgo.
  destruct (play_success_inv pit g true g' Hwf Hp) as [Ht Hv].
  destruct (sow_visits pit g Hwf Hv) as (final & b' & Hsow & _ & _ & Hf & Hfo & Hpos & _).
  rewrite (turn_after_play pit g g' final _ Hwf Hp Hsow Hgo).
  replace (board_size_of g - 1) with (2 * pits_per_player g + 1) in Hpos
    by (unfold board_size_of; lia).
  rewrite <- Hpos, <- (round_pos_store g Hwf).
  pose proof Hwf as (HP & Hlen & _).
  destruct (opponent_mancala_range g Hwf) as [Hopp _]. rewrite Hlen in Hopp.
  pose proof (mover_mancala_range g Hwf) as Hmm.
  split; [by intros ->|].
  intros Heq. apply (ring_pos_inj (board_size_of g) (opponent_mancala g)); try done.
  - unfold board_size_of. lia.
  - rewrite <- Hlen. lia.
Qed.

Lemma extra_turn_arithmetic_witness :
  current_player (mkGame 6 4 [4;4;0;5;5;5;1;4;4;4;4;4;4;0] 1 [(1,3)]) = current_player game_6x4 ↔
  (3 - 1 + cell (board game_6x4) (mover_pit_index game_6x4 3))
    `mod` (2 * pits_per_player game_6x4 + 1) = pits_per_player game_6x4.
Proof.
  apply (extra_turn_arithmetic 3 game_6x4).
  - split; [|split]; [vm_compute; discriminate|reflexivity|].
    repeat constructor; vm_compute; discriminate.
  - vm_compute; reflexivity.
  - reflexivity.
Defined.
(** * More of the search *)

(** ** The search of [src/MancalaAI.py] *)

Section BasicMinimax.
Context {T : Type → Type} {MT : SearchMonad T} {St A : Type} {G : Game T St A}.
Variable same : ∀ X, T X → T X → Prop.
Hypothesis same_refl : ∀ X (c : T X), same X c c.
Hypothesis same_bind : ∀ X Y (c c' : T X) (k k' : X → T Y),
  same X c c' → (∀ x, same Y (k x) (k' x)) → same Y (sbind c k) (sbind c' k').

Lemma mm_max_loop_same child child' (s : St) acts :
  (∀ s', same _ (child s') (child' s')) →
  ∀ v, same _ (mm_max_loop child s acts v) (mm_max_loop child' s acts v).
Proof.
  intros Hc. induction acts as [|a acts IH]; intros v; simpl.
  - apply same_refl.
  - apply same_bind; [apply same_refl|]. intros s'.
    apply same_bind; [apply Hc|]. intros x. apply IH.
Qed.

Lemma mm_min_loop_same child child' (s : St) acts :
  (∀ s', same _ (child s') (child' s')) →
  ∀ v, same _ (mm_min_loop child s acts v) (mm_min_loop child' s acts v).
Proof.
  intros Hc. induction acts as [|a acts IH]; intros v; simpl.
  - apply same_refl.
  - apply same_bind; [apply same_refl|]. intros s'.
    apply same_bind; [apply Hc|]. intros x. apply IH.
Qed.

Lemma cutoff_shift plie_lim (s : St) d :
  (if d >? plie_lim then sret true else terminal_test s)
  = default_cutoff_test (plie_lim + 1) s d.
Proof.
  unfold default_cutoff_test.
  destruct (Z.gtb_spec d plie_lim), (Z.geb_spec d (plie_lim + 1)); (done || lia).
Qed.

Lemma basic_values_same plie_lim player fuel : ∀ (s : St) d,
  same _ (basic_max_value plie_lim player fuel s d)
         (mm_max_value (plie_lim + 1) player fuel s d) ∧
  same _ (basic_min_value plie_lim player fuel s d)
         (mm_min_value (plie_lim + 1) player fuel s d).
Proof.
  induction fuel as [|fuel IH]; intros s d; simpl.
  - split; apply same_refl.
  - rewrite cutoff_shift. split.
    + apply same_bind; [apply same_refl|]. intros [|]; [apply same_refl|].
      apply same_bind; [apply same_refl|]. intros acts.
      apply mm_max_loop_same. intros s'. apply IH.
    + apply same_bind; [apply same_refl|]. intros [|]; [apply same_refl|].
      apply same_bind; [apply same_refl|]. intros acts.
      apply mm_min_loop_same. intros s'. apply IH.
Qed.

Lemma basic_root_loop_same plie_lim player fuel (s : St) acts :
  ∀ best_action best_value,
  same _ (basic_root_loop plie_lim player fuel s acts best_action best_value)
         (mm_root_loop (plie_lim + 1) player fuel s acts best_action best_value).
Proof.
  induction acts as [|a acts IH]; intros ba bv; simpl.
  - apply same_refl.
  - apply same_bind; [apply same_refl|]. intros s'.
    apply same_bind; [apply basic_values_same|]. intros value.
    destruct (ext_lt bv value); apply IH.
Qed.

Lemma basic_search_same fuel (s : St) plie_lim :
  same _ (get_basic_minimax_move fuel s plie_lim) (minimax_search fuel s (plie_lim + 1)).
Proof.
  unfold get_basic_minimax_move, minimax_search.
  apply same_bind; [apply same_refl|]. intros player.
  apply same_bind; [apply same_refl|]. intros acts.
  apply basic_root_loop_same.
Qed.

End BasicMinimax.

(** X10. The search of [src/MancalaAI.py] is the packaged one, one ply
    deeper.  For every game, [get_basic_minimax_move] with ply limit
    [plie_lim] makes the calls and returns the move of [minimax_search]
    with [depth = plie_lim + 1]: its cutoff [depth > plie_lim] is the
    cutoff [current_depth >= plie_lim + 1].  This holds for games that
    return values and for games whose states hold references into a
    store, on every store. *)
Theorem basic_minimax_is_minimax :
  (∀ (St A : Type) (G : Game outcome St A) (fuel : nat) (s : St) (plie_lim : Z),
     get_basic_minimax_move fuel s plie_lim = minimax_search fuel s (plie_lim + 1)) ∧
  (∀ (St A : Type) (G : Game H St A) (fuel : nat) (s : St) (plie_lim : Z) (h : store),
     get_basic_minimax_move fuel s plie_lim h = minimax_search fuel s (plie_lim + 1) h).
Proof.
  split.
  - intros St A G fuel s plie_lim.
    apply (basic_search_same (λ X (c c' : outcome X), c = c')); [done|].
    intros X Y c c' k k' -> Hk. simpl. unfold obind. destruct c'; [apply Hk|done..].
  - intros St A G fuel s plie_lim h.
    apply (basic_search_same (λ X (c c' : H X), ∀ h, c h = c' h)); [done|].
    intros X Y c c' k k' Hc Hk h'. simpl. unfold hbind. rewrite Hc.
    destruct (c' h') as [[x| |] h'']; [apply Hk|done..].
Qed.
(** ** [MancalaAI] and the default [Game.terminal_test] *)

Lemma valid_moves_cons g :
  wf g → is_terminal g = false →
  ∃ m ms, get_valid_moves g = Return (m :: ms) ∧
          ∀ pit, pit ∈ m :: ms ↔ is_valid_move pit g = (Return true, g).
Proof.
  intros Hwf Ht.
  destruct (get_valid_moves_list g (Py.range 1 (pits_per_player g + 1)) Hwf)
    as (ms & Hms & Hin & _).
  assert (∀ pit, pit ∈ ms ↔ is_valid_move pit g = (Return true, g)) as Hiff.
  { intros pit. rewrite Hin. split; [by intros [_ ?]|]. intros Hv. split; [|done].
    apply elem_of_range. rewrite is_valid_move_spec in Hv by done. injection Hv as Hv.
    apply andb_true_iff in Hv as [[?%Z.leb_le ?%Z.leb_le]%andb_true_iff _]. lia. }
  destruct ms as [|m ms].
  - destruct (not_terminal_has_move g Hwf Ht) as (pit & Hv).
    apply Hiff in Hv. by apply elem_of_nil in Hv.
  - exists m, ms. split; [exact Hms|done].
Qed.

Lemma actions_by_value (s : GameState.t MancalaGame) :
  actions s = if is_terminal (GameState.board s) then Return []
              else get_valid_moves (GameState.board s).
Proof.
  cbn [actions MancalaAI.game_by_value].
  unfold MancalaAI.actions_body, MancalaAI.terminal_test_body, MancalaAI.lift, bind, ret.
  by destruct (is_terminal (GameState.board s)).
Qed.

(** X11. [MancalaAI] overrides [Game.terminal_test], and changes
    nothing by it: on a well-formed board the inherited test, which is
    [not self.actions(state)], gives the answer of the override,
    [state.board.is_terminal()].  So a state has no action exactly when
    its game is over.  The second part is the same on the object store,
    where neither test changes the store's contents. *)
Theorem default_terminal_test_agrees :
  (∀ st : GameState.t MancalaGame,
     wf (GameState.board st) →
     Game_terminal_test st = terminal_test st ∧
     terminal_test st = Return (is_terminal (GameState.board st)) ∧
     (actions st = Return [] ↔ is_terminal (GameState.board st) = true)) ∧
  (∀ (s : GameState.t loc) (h : store) (g : MancalaGame),
     h !! GameState.board s = Some g → wf g →
     Game_terminal_test s h = terminal_test s h ∧
     terminal_test s h = (Return (is_terminal g), <[GameState.board s:=g]> h) ∧
     <[GameState.board s:=g]> h = h).
Proof.
  split.
  - intros st Hwf. unfold Game_terminal_test. rewrite actions_by_value.
    cbn [terminal_test MancalaAI.game_by_value sbind sret outcome_monad].
    unfold MancalaAI.terminal_test_body, MancalaAI.lift. cbn [fst].
    destruct (is_terminal (GameState.board st)) eqn:Ht; [done|].
    destruct (valid_moves_cons _ Hwf Ht) as (m & ms & -> & _). done.
  - intros s h g Hl Hwf. unfold Game_terminal_test.
    cbn [actions terminal_test MancalaAI.game sbind sret store_monad].
    unfold hbind, on_object. rewrite Hl.
    unfold MancalaAI.actions_body, MancalaAI.terminal_test_body, MancalaAI.lift, bind, ret.
    split; [|split; [done|by apply insert_id]].
    destruct (is_terminal g) eqn:Ht; [done|].
    destruct (valid_moves_cons _ Hwf Ht) as (m & ms & -> & _). done.
Qed.

Lemma default_terminal_test_agrees_witness :
  Game_terminal_test root_3x2 store_3x2 = terminal_test root_3x2 store_3x2 ∧
  terminal_test root_3x2 store_3x2 =
    (Return (is_terminal (mkGame 3 2 [2;2;2;0;2;2;2;0] 1 [])),
     <[GameState.board root_3x2:=mkGame 3 2 [2;2;2;0;2;2;2;0] 1 []]> store_3x2) ∧
  <[GameState.board root_3x2:=mkGame 3 2 [2;2;2;0;2;2;2;0] 1 []]> store_3x2 = store_3x2.
Proof.
  destruct default_terminal_test_agrees as [_ H].
  apply (H root_3x2 store_3x2 (mkGame 3 2 [2;2;2;0;2;2;2;0] 1 [])).
  - reflexivity.
  - split; [|split]; [vm_compute; discriminate|reflexivity|].
    repeat constructor; vm_compute; discriminate.
Defined.
(** ** The states [MancalaAI] builds *)

Lemma terminal_no_moves pits stones g :
  reachable pits stones g → is_terminal g = true → get_valid_moves g = Return [].
Proof.
  intros Hr Ht. destruct (reachable_wf _ _ _ Hr) as (Hwf & _).
  destruct (get_valid_moves_list g (Py.range 1 (pits_per_player g + 1)) Hwf)
    as (ms & Hms & Hin & _).
  unfold get_valid_moves. rewrite Hms. f_equal.
  destruct ms as [|pit ms]; [done|]. exfalso.
  destruct (Hin pit) as [Hp _]. destruct (Hp ltac:(left)) as [Hrange Hv].
  rewrite is_valid_move_spec in Hv by done. injection Hv as Hv.
  apply andb_true_iff in Hv as [[H1%Z.leb_le H2%Z.leb_le]%andb_true_iff Hpos%Z.gtb_lt].
  destruct (mover_pit_index_range g pit Hwf ltac:(lia)) as (Hidx & Hm1 & Hm2).
  rewrite (reachable_terminal_swept _ _ _ Hr Ht) in Hpos; [lia|].
  split.
  - destruct Hwf as (_ & <- & _). done.
  - intros Hs%is_store_mover. destruct Hs; congruence.
Qed.

Lemma result_body_inv move g f g' :
  wf g → MancalaAI.result_body move g = (Return f, g') →
  play move g = (Return true, g') ∧
  f.1.1 = current_player g' ∧
  f.1.2 = cell (board g') (_p1_mancala g') - cell (board g') (_p2_mancala g') ∧
  get_valid_moves g' = Return f.2.
Proof.
  intros Hwf. unfold MancalaAI.result_body.
  unfold bind at 1. destruct (play move g) as [[b| |] g1] eqn:Hp; [|done..].
  destruct (play_success_inv move g b g1 Hwf Hp) as [Ht Hv].
  destruct (play_stages move g Hwf Ht Hv) as (final & gs & _ & Hplay).
  rewrite Hplay in Hp. injection Hp as <- Hg1.
  destruct (play_keeps move g true _ Hwf Hplay) as (Hwf1 & _). rewrite Hg1 in Hwf1.
  destruct (score_cells g1 Hwf1) as [Hs1 Hs2].
  rewrite bind_get. unfold MancalaAI._calculate_utility, MancalaAI.lift, bind, ret.
  rewrite Hs1, Hs2. destruct (get_valid_moves g1) as [ms| |] eqn:Hms; [|done..].
  intros [= <- <-]. done.
Qed.

Lemma utility_by_value (s : GameState.t MancalaGame) p :
  wf (GameState.board s) →
  utility s p =
    Return (let util := cell (board (GameState.board s)) (_p1_mancala (GameState.board s))
                        - cell (board (GameState.board s)) (_p2_mancala (GameState.board s)) in
            if p =? 1 then util else - util).
Proof.
  intros Hwf. cbn [utility MancalaAI.game_by_value].
  destruct (score_cells _ Hwf) as [Hs1 Hs2].
  unfold MancalaAI.utility_body, MancalaAI.lift, bind, ret. rewrite Hs1, Hs2. done.
Qed.

(** X12. The fields of a [GameState] tell the truth about its board.
    In the initial state of [MancalaAI] and in every state [result]
    builds from it, the board is a state the game reaches, [to_move] is
    the board's [current_player], [utility] is player 1's score minus
    player 2's, which is [utility(state, 1)] and minus
    [utility(state, 2)], and [moves] is the board's list of valid moves,
    which is [actions(state)]. *)
Theorem built_states_consistent pits stones s :
  built pits stones s →
  reachable pits stones (GameState.board s) ∧
  GameState.to_move s = current_player (GameState.board s) ∧
  utility s 1 = Return (GameState.utility s) ∧
  utility s 2 = Return (- GameState.utility s) ∧
  get_valid_moves (GameState.board s) = Return (GameState.moves s) ∧
  actions s = Return (GameState.moves s).
Proof.
  intros Hb.
  assert (reachable pits stones (GameState.board s) ∧
          GameState.to_move s = current_player (GameState.board s) ∧
          GameState.utility s =
            cell (board (GameState.board s)) (_p1_mancala (GameState.board s))
            - cell (board (GameState.board s)) (_p2_mancala (GameState.board s)) ∧
          get_valid_moves (GameState.board s) = Return (GameState.moves s))
    as (Hr & Hm & Hu & Hv).
  { induction Hb as [s Hinit|s a s' _ (Hr & _) Hres].
    - unfold MancalaAI.initial_by_value in Hinit.
      destruct (new_game pits stones) as [g| |] eqn:Hnew; [|done..].
      destruct (get_valid_moves g) as [ms| |] eqn:Hms; [|done..].
      injection Hinit as <-. cbn.
      destruct (new_game_spec _ _ _ Hnew) as (_ & _ & _ & _ & _ & Hc & _ & _ & H1 & H2).
      split; [by apply reach_new|]. rewrite Hc, H1, H2. done.
    - destruct (reachable_wf _ _ _ Hr) as (Hwf & _).
      cbn [result MancalaAI.game_by_value] in Hres.
      destruct (MancalaAI.result_body a (GameState.board s)) as [[f| |] g'] eqn:Hrb; [|done..].
      injection Hres as <-. cbn.
      destruct (result_body_inv a _ f g' Hwf Hrb) as (Hp & ? & ? & ?).
      split; [by eapply reach_play|done]. }
  destruct (reachable_wf _ _ _ Hr) as (Hwf & _).
  split; [done|]. split; [done|].
  rewrite !utility_by_value by done. cbv zeta. rewrite <- Hu.
  split; [done|]. split; [done|]. split; [done|].
  rewrite actions_by_value. destruct (is_terminal (GameState.board s)) eqn:Ht; [|done].
  rewrite (terminal_no_moves _ _ _ Hr Ht) in Hv. by injection Hv as <-.
Qed.

Lemma built_states_consistent_witness :
  reachable 3 2 (GameState.board state_3x2) ∧
  GameState.to_move state_3x2 = current_player (GameState.board state_3x2) ∧
  utility state_3x2 1 = Return (GameState.utility state_3x2) ∧
  utility state_3x2 2 = Return (- GameState.utility state_3x2) ∧
  get_valid_moves (GameState.board state_3x2) = Return (GameState.moves state_3x2) ∧
  actions state_3x2 = Return (GameState.moves state_3x2).
Proof.
  apply built_states_consistent. apply built_initial. reflexivity.
Defined.
(** ** The values of the search are scores *)

Section FiniteValues.
Context {St A : Type} {G : Game outcome St A}.
Variable ok : St → Prop.
Variables lo hi : Z.
Hypothesis ok_actions : ∀ s, ok s →
  ∃ acts, actions s = Return acts ∧
    ∀ a, a ∈ acts → ∃ s', result s a = Return s' ∧ ok s'.
Hypothesis ok_moves : ∀ s, ok s → terminal_test s = Return false → actions s ≠ Return [].
Hypothesis ok_terminal_test : ∀ s, ok s → ∃ b, terminal_test s = Return b.
Hypothesis ok_utility : ∀ s p, ok s → ∃ u, utility s p = Return u ∧ lo <= u <= hi.
Variables depth player : Z.

Lemma within_max x y : within lo hi x → within lo hi y → within lo hi (ext_max x y).
Proof.
  intros (u & -> & Hu) (v & -> & Hv). unfold ext_max. simpl.
  destruct (u <? v); [by exists v|by exists u].
Qed.

Lemma within_min x y : within lo hi x → within lo hi y → within lo hi (ext_min x y).
Proof.
  intros (u & -> & Hu) (v & -> & Hv). unfold ext_min. simpl.
  destruct (v <? u); [by exists v|by exists u].
Qed.

Lemma mm_max_loop_within (child : St → outcome ext) s acts :
  (∀ a, a ∈ acts → ∃ s' y, result s a = Return s' ∧ child s' = Return y ∧ within lo hi y) →
  ∀ v, v = NegInf ∨ within lo hi v →
  ∃ w, mm_max_loop child s acts v = Return w ∧
       ((acts = [] ∧ w = v) ∨ within lo hi w).
Proof.
  induction acts as [|a acts IH]; intros Hch v Hv.
  - exists v. split; [done|]. by left.
  - destruct (Hch a ltac:(left)) as (s' & y & Hr & Hy & Hw).
    cbn [mm_max_loop sbind sret outcome_monad]. rewrite Hr. cbn [obind]. rewrite Hy. cbn [obind].
    destruct (IH (λ a' Ha', Hch a' (proj2 (elem_of_cons _ _ _) (or_intror Ha'))) (ext_max v y))
      as (w & Hrun & Hcase).
    { right. destruct Hv as [->|Hv]; [|by apply within_max].
      destruct Hw as (u & -> & Hu). by exists u. }
    exists w. split; [done|]. right. destruct Hcase as [[_ ->]|?]; [|done].
    destruct Hv as [->|Hv]; [|by apply within_max].
    destruct Hw as (u & -> & Hu). by exists u.
Qed.

Lemma mm_min_loop_within (child : St → outcome ext) s acts :
  (∀ a, a ∈ acts → ∃ s' y, result s a = Return s' ∧ child s' = Return y ∧ within lo hi y) →
  ∀ v, v = PosInf ∨ within lo hi v →
  ∃ w, mm_min_loop child s acts v = Return w ∧
       ((acts = [] ∧ w = v) ∨ within lo hi w).
Proof.
  induction acts as [|a acts IH]; intros Hch v Hv.
  - exists v. split; [done|]. by left.
  - destruct (Hch a ltac:(left)) as (s' & y & Hr & Hy & Hw).
    cbn [mm_min_loop sbind sret outcome_monad]. rewrite Hr. cbn [obind]. rewrite Hy. cbn [obind].
    destruct (IH (λ a' Ha', Hch a' (proj2 (elem_of_cons _ _ _) (or_intror Ha'))) (ext_min v y))
      as (w & Hrun & Hcase).
    { right. destruct Hv as [->|Hv]; [|by apply within_min].
      destruct Hw as (u & -> & Hu). by exists u. }
    exists w. split; [done|]. right. destruct Hcase as [[_ ->]|?]; [|done].
    destruct Hv as [->|Hv]; [|by apply within_min].
    destruct Hw as (u & -> & Hu). by exists u.
Qed.

Lemma mm_values_within fuel : ∀ s d,
  ok s → (1 <= fuel)%nat → depth - d < Z.of_nat fuel →
  (∃ y, mm_max_value depth player fuel s d = Return y ∧ within lo hi y) ∧
  (∃ y, mm_min_value depth player fuel s d = Return y ∧ within lo hi y).
Proof.
  induction fuel as [|fuel IH]; intros s d Hok Hf Hd; [lia|].
  cbn [mm_max_value mm_min_value sbind sret outcome_monad]. unfold default_cutoff_test.
  destruct (ok_utility s player Hok) as (u & Hu & Hb).
  destruct (Z.geb_spec d depth) as [Hge|Hlt].
  { cbn [sret outcome_monad obind]. rewrite Hu. cbn [obind]. split; exists (Fin u); (split; [done|by exists u]). }
  destruct (ok_terminal_test s Hok) as ([|] & Ht); rewrite Ht; cbn [obind].
  { rewrite Hu. cbn [obind]. split; exists (Fin u); (split; [done|by exists u]). }
  destruct (ok_actions s Hok) as (acts & Hacts & Hres).
  pose proof (ok_moves s Hok Ht) as Hne. rewrite Hacts in *. cbn [obind].
  assert (∀ a, a ∈ acts → ∃ s', result s a = Return s' ∧
            (∃ y, mm_max_value depth player fuel s' (d + 1) = Return y ∧ within lo hi y) ∧
            (∃ y, mm_min_value depth player fuel s' (d + 1) = Return y ∧ within lo hi y))
    as Hch.
  { intros a Ha. destruct (Hres a Ha) as (s' & Hr & Hok'). exists s'. split; [done|].
    apply IH; [done|lia..]. }
  split.
  - destruct (mm_max_loop_within (λ s', mm_min_value depth player fuel s' (d + 1)) s acts)
      with (v := NegInf) as (w & Hrun & Hcase).
    { intros a Ha. destruct (Hch a Ha) as (s' & Hr & _ & y & Hy & Hw). eauto. }
    { by left. }
    exists w. split; [done|]. destruct Hcase as [[-> _]|?]; done.
  - destruct (mm_min_loop_within (λ s', mm_max_value depth player fuel s' (d + 1)) s acts)
      with (v := PosInf) as (w & Hrun & Hcase).
    { intros a Ha. destruct (Hch a Ha) as (s' & Hr & (y & Hy & Hw) & _). eauto. }
    { by left. }
    exists w. split; [done|]. destruct Hcase as [[-> _]|?]; done.
Qed.

End FiniteValues.

Lemma utility_bounds (s : GameState.t MancalaGame) p :
  wf (GameState.board s) →
  ∃ u, utility s p = Return u ∧
       - Py.sum (board (GameState.board s)) <= u <= Py.sum (board (GameState.board s)).
Proof.
  intros Hwf. rewrite utility_by_value by done. eexists. split; [done|].
  pose proof (board_sum_parts _ Hwf) as Hsum.
  pose proof Hwf as (_ & _ & Hnn).
  pose proof (range_sum_nonneg (board (GameState.board s)) 0
                (pits_per_player (GameState.board s)) Hnn).
  pose proof (range_sum_nonneg (board (GameState.board s))
                (pits_per_player (GameState.board s) + 1)
                (2 * pits_per_player (GameState.board s) + 1) Hnn).
  pose proof (cell_nonneg _ (_p1_mancala (GameState.board s)) Hnn).
  pose proof (cell_nonneg _ (_p2_mancala (GameState.board s)) Hnn).
  cbv zeta. destruct (p =? 1); lia.
Qed.

Lemma mancala_actions_sum (s : GameState.t MancalaGame) :
  wf (GameState.board s) →
  ∃ acts, actions s = Return acts ∧
    ∀ a, a ∈ acts →
      is_valid_move a (GameState.board s) = (Return true, GameState.board s) ∧
      ∃ s', result s a = Return s' ∧
            play a (GameState.board s) = (Return true, GameState.board s') ∧
            wf (GameState.board s') ∧
            Py.sum (board (GameState.board s')) = Py.sum (board (GameState.board s)).
Proof.
  intros Hwf. rewrite actions_by_value. cbn [result MancalaAI.game_by_value].
  destruct (is_terminal (GameState.board s)) eqn:Ht.
  - exists []. split; [done|]. intros a Ha. by apply elem_of_nil in Ha.
  - destruct (get_valid_moves_spec _ Hwf) as (ms & Hms & Hall). rewrite Hms.
    exists ms. split; [done|]. intros a Ha. split; [by apply Hall|].
    destruct (result_body_spec a _ Hwf Ht (Hall a Ha)) as (f & g' & Hr & Hwf' & Hp).
    rewrite Hr. eexists. split; [done|]. cbn.
    destruct (play_keeps a _ true g' Hwf Hp) as (_ & Hsum & _). done.
Qed.

Lemma mancala_values_within depth player fuel N (s : GameState.t MancalaGame) d :
  wf (GameState.board s) → Py.sum (board (GameState.board s)) = N →
  (1 <= fuel)%nat → depth - d < Z.of_nat fuel →
  ∃ y, mm_min_value depth player fuel s d = Return y ∧ within (- N) N y.
Proof.
  intros Hwf Hsum Hf Hd.
  apply (mm_values_within
           (λ s : GameState.t MancalaGame,
              wf (GameState.board s) ∧ Py.sum (board (GameState.board s)) = N)
           (- N) N); try done.
  - intros s0 [Hwf0 Hs0]. destruct (mancala_actions_sum s0 Hwf0) as (acts & Ha & Hall).
    exists acts. split; [done|]. intros a Hin.
    destruct (Hall a Hin) as (_ & s' & Hr & _ & Hwf' & Hsum'). exists s'.
    split; [done|]. split; [done|]. by rewrite Hsum'.
  - intros s0 [Hwf0 _] Hnt. cbn in Hnt. injection Hnt as Hnt.
    rewrite actions_by_value, Hnt.
    destruct (valid_moves_cons _ Hwf0 Hnt) as (m & ms & -> & _). done.
  - intros s0 _. cbn. eauto.
  - intros s0 p [Hwf0 Hs0]. destruct (utility_bounds s0 p Hwf0) as (u & Hu & Hb).
    exists u. split; [done|]. by rewrite <- Hs0.
Qed.

(** At a root that is not terminal the root loop settles on one of the
    actions. *)
Lemma search_root_choice (st : GameState.t MancalaGame) (depth : Z) (fuel : nat) :
  wf (GameState.board st) → is_terminal (GameState.board st) = false →
  (1 <= fuel)%nat → depth <= Z.of_nat fuel →
  ∃ acts m sm top,
    actions st = Return acts ∧ m ∈ acts ∧
    get_alpha_beta_move fuel st depth = Return (Some m) ∧
    get_minimax_move fuel st depth = Return (Some m) ∧
    result st m = Return sm ∧
    mm_min_value depth (GameState.to_move st) fuel sm 1 = Return top.
Proof.
  intros Hwf Ht Hf Hd.
  destruct (searches_agree_by_value st depth fuel Hwf Hf Hd) as (r & _ & Hmm & Hab & Hgm & _).
  destruct (mancala_actions_sum st Hwf) as (acts & Hacts & Hall).
  assert (∃ m0, m0 ∈ acts) as (m0 & Hm0).
  { pose proof Hacts as Hacts'. rewrite actions_by_value, Ht in Hacts'.
    destruct (valid_moves_cons _ Hwf Ht) as (m & ms & Hms & _).
    rewrite Hms in Hacts'. injection Hacts' as <-. exists m. by left. }
  assert (∀ a, a ∈ acts → ∃ s' y, result st a = Return s' ∧
            mm_min_value depth (GameState.to_move st) fuel s' 1 = Return y ∧
            ext_lt NegInf y = true) as Hval.
  { intros a Ha. destruct (Hall a Ha) as (_ & s' & Hr & _ & Hwf' & Hsum).
    destruct (mancala_values_within depth (GameState.to_move st) fuel _ s' 1 Hwf' eq_refl
                Hf ltac:(lia)) as (y & Hy & (u & -> & _)).
    exists s', (Fin u). done. }
  pose proof Hmm as Hrun. unfold minimax_search in Hrun.
  cbn [sbind outcome_monad to_move MancalaAI.game_by_value obind] in Hrun.
  rewrite Hacts in Hrun. cbn [obind] in Hrun.
  destruct (mm_root_loop_best depth (GameState.to_move st) fuel st acts) with
    (best_action := @None Z) (best_value := NegInf) as (r' & top & Hrun' & _ & Htop & Hwho).
  { intros m Hm. destruct (Hval m Hm) as (s' & y & Hr & Hy & _). eauto. }
  rewrite Hrun in Hrun'. injection Hrun' as <-.
  destruct Hwho as [[_ ->]|(m & sm & -> & Hm & Hrm & Hvm)].
  { exfalso. destruct (Htop m0 Hm0) as (s' & y & Hr & Hy & Hle).
    destruct (Hval m0 Hm0) as (s'' & y' & Hr' & Hy' & Hlt).
    rewrite Hr in Hr'. injection Hr' as <-. rewrite Hy in Hy'. injection Hy' as <-.
    unfold ext_le in Hle. by rewrite Hlt in Hle. }
  exists acts, m, sm, top. done.
Qed.

(** X13. At a root where the game is not over, the search returns a
    move, and a legal one.  For a well-formed board that is not terminal,
    any depth and a budget of call frames that covers it,
    [get_alpha_beta_move] and [get_minimax_move] return the same
    [Some m]; [m] is a valid move, so [play m] succeeds on the board; and
    the value backed up for [m] is a finite number, a difference of
    scores between minus and plus the number of stones on the board. *)
Theorem search_picks_legal_move (st : GameState.t MancalaGame) (depth : Z) (fuel : nat) :
  wf (GameState.board st) → is_terminal (GameState.board st) = false →
  (1 <= fuel)%nat → depth <= Z.of_nat fuel →
  ∃ m v g',
    get_alpha_beta_move fuel st depth = Return (Some m) ∧
    get_minimax_move fuel st depth = Return (Some m) ∧
    is_valid_move m (GameState.board st) = (Return true, GameState.board st) ∧
    play m (GameState.board st) = (Return true, g') ∧
    backed_up_value fuel st depth m = Return (Fin v) ∧
    - Py.sum (board (GameState.board st)) <= v <= Py.sum (board (GameState.board st)).
Proof.
  intros Hwf Ht Hf Hd.
  destruct (search_root_choice st depth fuel Hwf Ht Hf Hd)
    as (acts & m & sm & top & Hacts & Hm & Hab & Hmm & Hrm & Hvm).
  destruct (mancala_actions_sum st Hwf) as (acts' & Hacts' & Hall).
  rewrite Hacts in Hacts'. injection Hacts' as <-.
  destruct (Hall m Hm) as (Hv & s' & Hr & Hp & Hwf' & Hsum).
  rewrite Hrm in Hr. injection Hr as <-.
  destruct (mancala_values_within depth (GameState.to_move st) fuel _ sm 1 Hwf' Hsum
              Hf ltac:(lia)) as (y & Hy & (v & -> & Hb)).
  rewrite Hvm in Hy. injection Hy as ->.
  exists m, v, (GameState.board sm). split; [done|]. split; [done|]. split; [done|].
  split; [done|]. split; [|done].
  unfold backed_up_value. cbn [sbind outcome_monad to_move MancalaAI.game_by_value obind].
  rewrite Hrm. cbn [obind]. done.
Qed.

Lemma search_picks_legal_move_witness :
  ∃ m v g',
    get_alpha_beta_move 3 state_3x2 3 = Return (Some m) ∧
    get_minimax_move 3 state_3x2 3 = Return (Some m) ∧
    is_valid_move m (GameState.board state_3x2) = (Return true, GameState.board state_3x2) ∧
    play m (GameState.board state_3x2) = (Return true, g') ∧
    backed_up_value 3 state_3x2 3 m = Return (Fin v) ∧
    - Py.sum (board (GameState.board state_3x2)) <= v
      <= Py.sum (board (GameState.board state_3x2)).
Proof.
  apply (search_picks_legal_move state_3x2 3 3).
  - split; [|split]; [vm_compute; discriminate|reflexivity|].
    repeat constructor; vm_compute; discriminate.
  - reflexivity.
  - lia.
  - lia.
Defined.
(** * Every game ends *)

(** ** Sums over ranges *)

Lemma zsum_nil f a c : c <= a → zsum f a c = 0.
Proof. intros H. unfold zsum. by rewrite range_nil. Qed.

Lemma zsum_cons f a c : a < c → zsum f a c = f a + zsum f (a + 1) c.
Proof. intros H. unfold zsum. by rewrite range_cons. Qed.

Lemma zsum_split f a m c :
  a <= m → m <= c → zsum f a c = zsum f a m + zsum f m c.
Proof.
  intros Ham Hmc. revert a Ham.
  apply (range_ind (λ a, a <= m → zsum f a c = zsum f a m + zsum f m c) m); intros a Ha.
  - intros Ham. assert (a = m) as -> by lia. rewrite (zsum_nil f m m) by lia. lia.
  - intros IH _. rewrite (zsum_cons f a c), (zsum_cons f a m) by lia. rewrite IH by lia. lia.
Qed.

Lemma zsum_le f g a c :
  (∀ i, a <= i < c → f i <= g i) → zsum f a c <= zsum g a c.
Proof.
  revert a. apply (range_ind (λ a, (∀ i, a <= i < c → f i <= g i) →
                                   zsum f a c <= zsum g a c) c); intros a Ha.
  - intros _. rewrite !zsum_nil by done. done.
  - intros IH Hfg. rewrite (zsum_cons f), (zsum_cons g) by done.
    pose proof (Hfg a ltac:(lia)). assert (zsum f (a + 1) c <= zsum g (a + 1) c); [|lia].
    apply IH. intros i Hi. apply Hfg. lia.
Qed.

Lemma zsum_ext f g a c :
  (∀ i, a <= i < c → f i = g i) → zsum f a c = zsum g a c.
Proof.
  intros Hfg. apply Z.le_antisymm; apply zsum_le; intros i Hi; rewrite Hfg by done; done.
Qed.

Lemma zsum_add f g a c : zsum (λ i, f i + g i) a c = zsum f a c + zsum g a c.
Proof.
  revert a. apply (range_ind _ c); intros a Ha.
  - by rewrite !zsum_nil.
  - intros IH. rewrite !(zsum_cons _ a c) by done. rewrite IH. lia.
Qed.

Lemma zsum_scale k f a c : zsum (λ i, k * f i) a c = k * zsum f a c.
Proof.
  revert a. apply (range_ind _ c); intros a Ha.
  - rewrite !zsum_nil by done. lia.
  - intros IH. rewrite !(zsum_cons _ a c) by done. rewrite IH. lia.
Qed.

Lemma zsum_nonneg f a c : (∀ i, a <= i < c → 0 <= f i) → 0 <= zsum f a c.
Proof.
  intros Hf. rewrite <- (Z.mul_0_l (zsum f a c)), <- zsum_scale.
  apply zsum_le. intros i Hi. specialize (Hf i Hi). lia.
Qed.

Lemma zsum_term f a c j :
  (∀ i, a <= i < c → 0 <= f i) → a <= j < c → f j <= zsum f a c.
Proof.
  intros Hf Hj. rewrite (zsum_split f a j c), (zsum_cons f j c) by lia.
  pose proof (zsum_nonneg f a j ltac:(intros; apply Hf; lia)).
  pose proof (zsum_nonneg f (j + 1) c ltac:(intros; apply Hf; lia)). lia.
Qed.

Lemma zsum_update f a c j x :
  a <= j < c →
  zsum (λ i, if i =? j then x else f i) a c = zsum f a c + x - f j.
Proof.
  intros Hj. rewrite (zsum_split _ a j c), (zsum_cons _ j c) by lia.
  rewrite (zsum_split f a j c), (zsum_cons f j c) by lia.
  rewrite Z.eqb_refl.
  rewrite (zsum_ext _ f a j), (zsum_ext _ f (j + 1) c); [lia|..];
    intros i Hi; destruct (Z.eqb_spec i j); (done || lia).
Qed.

Lemma zsum_cells b : zsum (cell b) 0 (Py.len b) = Py.sum b.
Proof. symmetry. apply sum_range_sum. Qed.
Lemma zsum_shift w W f g a c :
  zsum (λ i, (w i - W) * (g i - f i)) a c =
  zsum (λ i, w i * g i) a c - zsum (λ i, w i * f i) a c - W * (zsum g a c - zsum f a c).
Proof.
  revert a. apply (range_ind _ c); intros a Ha.
  - rewrite !zsum_nil by done. lia.
  - intros IH. rewrite !(zsum_cons _ a c) by done. rewrite IH. ring.
Qed.

Lemma zsum_sow w f f' v idx a c :
  a <= idx < c →
  (∀ i, a <= i < c → f' i = (if i =? idx then 0 else f i) + v i) →
  zsum (λ i, w i * f' i) a c =
  zsum (λ i, w i * f i) a c - w idx * f idx + zsum (λ i, w i * v i) a c.
Proof.
  intros Hidx Hf'.
  rewrite (zsum_ext _ (λ i, (if i =? idx then 0 else w i * f i) + w i * v i)).
  - rewrite (zsum_add (λ i, if i =? idx then 0 else w i * f i) (λ i, w i * v i)).
    rewrite (zsum_update (λ i, w i * f i)) by done. lia.
  - intros i Hi. rewrite Hf' by done. destruct (i =? idx); ring.
Qed.

(** ** The weights *)

Section Weights.
Variables P N : Z.
Hypothesis HP : 1 <= P.
Hypothesis HN : 0 <= N.

Lemma weight_store1 : weight P N P = (N + 1) * P.
Proof. unfold weight. by rewrite Z.eqb_refl. Qed.

Lemma weight_store2 : weight P N (2 * P + 1) = (N + 1) * P.
Proof. unfold weight. by rewrite Z.eqb_refl, orb_true_r. Qed.

Lemma weight_pit1 i : 0 <= i < P → weight P N i = i + 1.
Proof.
  intros Hi. unfold weight.
  destruct (Z.eqb_spec i P); [lia|]. destruct (Z.eqb_spec i (2 * P + 1)); [lia|].
  simpl. rewrite Z.mod_small by lia. done.
Qed.

Lemma weight_pit2 i : P < i < 2 * P + 1 → weight P N i = i - P.
Proof.
  intros Hi. unfold weight.
  destruct (Z.eqb_spec i P); [lia|]. destruct (Z.eqb_spec i (2 * P + 1)); [lia|].
  simpl. rewrite <- (Z.mod_unique i (P + 1) 1 (i - (P + 1))); lia.
Qed.

Lemma weight_range i : 0 <= i < 2 * P + 2 → 1 <= weight P N i <= (N + 1) * P.
Proof.
  intros Hi. assert (P <= (N + 1) * P) by nia.
  destruct (Z.eq_dec i P) as [->|]; [rewrite weight_store1; lia|].
  destruct (Z.eq_dec i (2 * P + 1)) as [->|]; [rewrite weight_store2; lia|].
  destruct (Z.lt_ge_cases i P).
  - rewrite weight_pit1 by lia. lia.
  - rewrite weight_pit2 by lia. lia.
Qed.

(** Stones that only go from pits to stores add to the measure. *)
Lemma wsum_to_stores b b' :
  Py.len b = 2 * P + 2 → Py.len b' = 2 * P + 2 → Py.sum b' = Py.sum b →
  (∀ i, 0 <= i < 2 * P + 2 → i ≠ P → i ≠ 2 * P + 1 → cell b' i <= cell b i) →
  wsum P N b <= wsum P N b'.
Proof.
  intros Hl Hl' Hsum Hpits. unfold wsum.
  pose proof (zsum_shift (weight P N) ((N + 1) * P) (cell b) (cell b') 0 (2 * P + 2)) as Hs.
  assert (zsum (cell b) 0 (2 * P + 2) = Py.sum b) as E by (rewrite <- Hl; apply zsum_cells).
  assert (zsum (cell b') 0 (2 * P + 2) = Py.sum b') as E' by (rewrite <- Hl'; apply zsum_cells).
  rewrite E, E', Hsum in Hs.
  assert (0 <= zsum (λ i, (weight P N i - (N + 1) * P) * (cell b' i - cell b i)) 0 (2 * P + 2));
    [|lia].
  apply zsum_nonneg. intros i Hi.
  destruct (Z.eq_dec i P) as [->|]; [rewrite weight_store1; lia|].
  destruct (Z.eq_dec i (2 * P + 1)) as [->|]; [rewrite weight_store2; lia|].
  pose proof (weight_range i Hi). pose proof (Hpits i Hi ltac:(done) ltac:(done)). nia.
Qed.

Lemma wsum_bounds b :
  Py.len b = 2 * P + 2 → Forall (λ v, 0 <= v) b →
  0 <= wsum P N b <= (N + 1) * P * Py.sum b.
Proof.
  intros Hl Hnn. unfold wsum. split.
  - apply zsum_nonneg. intros i Hi. pose proof (weight_range i Hi).
    pose proof (cell_nonneg b i Hnn). nia.
  - rewrite <- zsum_cells, Hl, <- zsum_scale. apply zsum_le. intros i Hi.
    pose proof (weight_range i Hi). pose proof (cell_nonneg b i Hnn). nia.
Qed.

End Weights.
(** ** The measure along the stages of [play] *)

Lemma wf_len g : wf g → Py.len (board g) = 2 * pits_per_player g + 2.
Proof. intros (_ & -> & _). unfold board_size_of. lia. Qed.

Lemma capture_stage_progress final g N :
  wf g → 0 <= N →
  wsum (pits_per_player g) N (board g)
  <= wsum (pits_per_player g) N (board (capture_stage final g)).
Proof.
  intros Hwf HN. pose proof (wf_len g Hwf) as Hl. pose proof Hwf as (HP & _ & Hnn).
  apply wsum_to_stores; try done.
  - rewrite <- Hl. unfold capture_stage. destruct (captures g final); [|done].
    apply capture_board_len.
  - by apply capture_stage_sum.
  - intros i Hi H1 H2. unfold capture_stage. destruct (captures g final) eqn:Hc; [|done].
    cbn [board set_board]. rewrite capture_board_cell by done.
    pose proof (cell_nonneg (board g) i Hnn).
    destruct (Z.eqb_spec i (mover_mancala g)) as [Heq|_].
    { exfalso. unfold mover_mancala, _p1_mancala, _p2_mancala, board_size_of in Heq.
      destruct (current_player g =? 1); lia. }
    destruct (_ || _); lia.
Qed.

Lemma sweep_stage_progress g N :
  wf g → 0 <= N →
  wsum (pits_per_player g) N (board g)
  <= wsum (pits_per_player g) N (board (sweep_stage g)).
Proof.
  intros Hwf HN. pose proof (wf_len g Hwf) as Hl. pose proof Hwf as (HP & _ & Hnn).
  pose proof (wf_sweep_stage g Hwf) as Hwf'.
  destruct (sweep_stage_frame g Hwf) as [bw Hbw].
  apply wsum_to_stores; try done.
  - rewrite (wf_len _ Hwf'). by rewrite Hbw.
  - by apply sweep_stage_sum.
  - intros i Hi H1 H2. destruct (is_terminal g) eqn:Ht.
    + destruct (sweep_stage_swept g Hwf Ht) as (Hz & _). rewrite Hz.
      * by apply cell_nonneg.
      * apply is_pit_range. lia.
    + unfold sweep_stage. by rewrite Ht.
Qed.

Lemma weight_mover_pit g pit N :
  wf g → 1 <= pit <= pits_per_player g →
  weight (pits_per_player g) N (mover_pit_index g pit) = pit.
Proof.
  intros (HP & _) Hpit. unfold mover_pit_index, _p1_pits_start, _p2_pits_start.
  destruct (current_player g =? 1).
  - rewrite weight_pit1 by lia. lia.
  - rewrite weight_pit2 by lia. lia.
Qed.

Lemma weight_mover_store g N :
  weight (pits_per_player g) N (mover_mancala g) = (N + 1) * pits_per_player g.
Proof.
  unfold mover_mancala, _p1_mancala, _p2_mancala, board_size_of.
  destruct (current_player g =? 1).
  - apply weight_store1.
  - replace ((pits_per_player g + 1) * 2 - 1) with (2 * pits_per_player g + 1) by lia.
    apply weight_store2.
Qed.

Lemma weight_round_pos g i N :
  wf g → 0 <= i < board_size_of g → round_pos g i < pits_per_player g →
  weight (pits_per_player g) N i = round_pos g i + 1.
Proof.
  intros Hwf Hi. pose proof Hwf as (HP & Hlen & _).
  destruct (opponent_mancala_range g Hwf) as [Hopp _]. rewrite Hlen in Hopp.
  unfold round_pos. change ((i - opponent_mancala g - 1) `mod` board_size_of g)
    with (ring_pos (board_size_of g) (opponent_mancala g) i).
  rewrite ring_pos_cases by (unfold board_size_of in *; lia).
  unfold opponent_mancala, _p1_mancala, _p2_mancala, board_size_of in *.
  destruct (current_player g =? 1);
    match goal with |- context [?a <=? ?b] => destruct (Z.leb_spec a b) end; intros Hlt;
    try lia.
  - rewrite weight_pit1 by lia. lia.
  - rewrite weight_pit2 by lia. lia.
Qed.

Section Sown.
Variable g : MancalaGame.
Variable pit s : Z.
Hypothesis Hwf : wf g.
Hypothesis Hpit : 1 <= pit <= pits_per_player g.
Hypothesis Hs : 0 <= s.

Lemma sown_unfold i :
  visits (board_size_of g) (opponent_mancala g) (mover_pit_index g pit) s i =
  if i =? opponent_mancala g then 0
  else (s + 2 * pits_per_player g - (round_pos g i - pit) `mod` (2 * pits_per_player g + 1))
         `div` (2 * pits_per_player g + 1).
Proof.
  unfold visits. destruct (i =? opponent_mancala g); [done|].
  destruct (mover_pit_index_range g pit Hwf Hpit) as (Hidx & Him & Hio).
  unfold ring_start. destruct (Z.eqb_spec (mover_pit_index g pit) (opponent_mancala g)); [done|].
  pose proof (round_pos_pit g pit Hwf Hpit) as Hrp. unfold round_pos in *.
  unfold ring_pos. rewrite Hrp.
  replace (board_size_of g - 1) with (2 * pits_per_player g + 1) by (unfold board_size_of; lia).
  replace (board_size_of g - 2) with (2 * pits_per_player g) by (unfold board_size_of; lia).
  do 3 f_equal. lia.
Qed.

Lemma sown_nonneg i :
  0 <= visits (board_size_of g) (opponent_mancala g) (mover_pit_index g pit) s i.
Proof.
  rewrite sown_unfold. destruct (i =? opponent_mancala g); [done|].
  destruct Hwf as (HP & _).
  pose proof (Z.mod_pos_bound (round_pos g i - pit) (2 * pits_per_player g + 1) ltac:(lia)).
  apply Z.div_pos; lia.
Qed.

Lemma sown_store :
  pits_per_player g - pit + 1 <= s →
  1 <= visits (board_size_of g) (opponent_mancala g) (mover_pit_index g pit) s (mover_mancala g).
Proof.
  intros Hreach. rewrite sown_unfold.
  destruct (opponent_mancala_range g Hwf) as [_ Hne].
  destruct (Z.eqb_spec (mover_mancala g) (opponent_mancala g)); [congruence|].
  rewrite round_pos_store by done. destruct Hwf as (HP & _).
  rewrite (Z.mod_small (pits_per_player g - pit)) by lia.
  apply Z.div_le_lower_bound; lia.
Qed.

Lemma sown_near i :
  s <= pits_per_player g - pit → 0 <= i < board_size_of g →
  1 <= visits (board_size_of g) (opponent_mancala g) (mover_pit_index g pit) s i →
  ∀ N, pit + 1 <= weight (pits_per_player g) N i.
Proof.
  intros Hnear Hi. rewrite sown_unfold.
  destruct (Z.eqb_spec i (opponent_mancala g)); [lia|]. intros Hv N.
  pose proof Hwf as (HP & Hlen & _).
  destruct (opponent_mancala_range g Hwf) as [Hopp _]. rewrite Hlen in Hopp.
  assert (0 <= round_pos g i <= 2 * pits_per_player g) as Hr.
  { pose proof (ring_pos_range (board_size_of g) (opponent_mancala g)
                  Hopp i Hi ltac:(done)) as H.
    unfold ring_pos in H. unfold round_pos. unfold board_size_of in *. lia. }
  rewrite mod_window in Hv by lia.
  destruct (Z.ltb_spec (round_pos g i - pit) 0).
  - rewrite Z.div_small in Hv by lia. lia.
  - destruct (Z.le_gt_cases s (round_pos g i - pit)).
    + rewrite Z.div_small in Hv by lia. lia.
    + rewrite weight_round_pos by (done || lia). lia.
Qed.

End Sown.

Lemma sow_progress pit g :
  wf g → is_valid_move pit g = (Return true, g) →
  ∃ final b',
    sow pit g = (Return final,
                 set_board b' (set_moves_history (moves_history g ++ [(current_player g, pit)]) g)) ∧
    wsum (pits_per_player g) (Py.sum (board g)) (board g)
    < wsum (pits_per_player g) (Py.sum (board g)) b'.
Proof.
  intros Hwf Hv.
  destruct (sow_visits pit g Hwf Hv) as (final & b' & Hsow & Hpit & Hpos & _ & _ & _ & Hcells).
  destruct (sow_spec pit g Hwf Hv) as (final' & b'' & Hsow' & Hl & _ & Hsum & _ & _ & _ & _).
  rewrite Hsow in Hsow'. injection Hsow' as <- <-.
  exists final, b'. split; [done|].
  pose proof Hwf as (HP & Hlen & Hnn). pose proof (wf_len g Hwf) as Hl2.
  destruct (mover_pit_index_range g pit Hwf Hpit) as (Hidx & _ & _).
  set (P := pits_per_player g) in *. set (N := Py.sum (board g)) in *.
  set (idx := mover_pit_index g pit) in *. set (s := cell (board g) idx) in *.
  set (v := visits (board_size_of g) (opponent_mancala g) idx s) in *.
  replace (board_size_of g) with (2 * P + 2) in Hcells by (unfold board_size_of, P; lia).
  assert (0 <= N) as HN by (apply sum_nonneg; done).
  (* the measure after the sowing *)
  unfold wsum.
  rewrite (zsum_sow (weight P N) (cell (board g)) (cell b') v idx) by (done || lia).
  fold s. assert (weight P N idx = pit) as -> by (by apply weight_mover_pit).
  (* the stones sown are the stones taken *)
  assert (zsum v 0 (2 * P + 2) = s) as Hvs.
  { pose proof (zsum_sow (λ _, 1) (cell (board g)) (cell b') v idx 0 (2 * P + 2)
                  ltac:(lia) Hcells) as H.
    cbv beta in H.
    rewrite (zsum_scale 1 (cell b')), (zsum_scale 1 (cell (board g))), (zsum_scale 1 v) in H.
    assert (zsum (cell (board g)) 0 (2 * P + 2) = Py.sum (board g)) as E
      by (rewrite <- Hl2; apply zsum_cells).
    assert (zsum (cell b') 0 (2 * P + 2) = Py.sum b') as E'
      by (rewrite <- Hl2, <- Hl; apply zsum_cells).
    rewrite E, E', Hsum in H. fold s in H. lia. }
  assert (s <= N) as HsN.
  { unfold s, N. rewrite <- zsum_cells.
    apply (zsum_term (cell (board g))); [|lia]. intros i _. by apply cell_nonneg. }
  assert (∀ i, 0 <= i < 2 * P + 2 → 0 <= weight P N i * v i) as Hterm.
  { intros i Hi. pose proof (weight_range P N HP HN i Hi).
    assert (0 <= v i) by (unfold v, idx; apply sown_nonneg; (done || lia)). nia. }
  destruct (Z.le_gt_cases (P - pit + 1) s) as [Hfar|Hnear].
  - (* the sowing reaches the mover's store *)
    assert (1 <= v (mover_mancala g)) as Hst
      by (unfold v, idx; apply sown_store; (done || lia)).
    pose proof (zsum_term _ 0 (2 * P + 2) (mover_mancala g) Hterm
                  ltac:(pose proof (mover_mancala_range g Hwf); lia)) as Hge.
    cbv beta in Hge. unfold P in Hge. rewrite weight_mover_store in Hge. fold P in Hge.
    assert (pit * s <= P * N) by nia.
    assert ((N + 1) * P <= (N + 1) * P * v (mover_mancala g)) by nia.
    lia.
  - (* the sowing stays in the mover's pits *)
    assert ((pit + 1) * s <= zsum (λ i, weight P N i * v i) 0 (2 * P + 2)); [|nia].
    rewrite <- Hvs, <- zsum_scale. apply zsum_le. intros i Hi.
    assert (0 <= v i) as Hv0 by (unfold v, idx; apply sown_nonneg; (done || lia)).
    destruct (Z.eq_dec (v i) 0) as [->|Hne]; [lia|].
    assert (pit + 1 <= weight P N i) as Hw.
    { apply (sown_near g pit s); try done; try (fold P; lia);
        try (unfold board_size_of; fold P; lia).
      fold idx v. lia. }
    nia.
Qed.
Lemma play_progress pit g g' :
  wf g → play pit g = (Return true, g') →
  progress g < progress g' ∧
  0 <= progress g ∧
  progress g' <= (Py.sum (board g) + 1) * pits_per_player g * Py.sum (board g).
Proof.
  intros Hwf Hp.
  destruct (play_success_inv pit g true g' Hwf Hp) as [Ht Hv].
  destruct (play_stages pit g Hwf Ht Hv) as (final & gs & Hsow & Hplay).
  destruct (play_keeps pit g true g' Hwf Hp) as (Hwf' & Hsum & HP' & _).
  rewrite Hplay in Hp. injection Hp as Hg'. subst g'.
  destruct (sow_progress pit g Hwf Hv) as (final' & b' & Hsow' & Hlt).
  rewrite Hsow in Hsow'. injection Hsow' as <- ->.
  destruct (sow_spec pit g Hwf Hv) as (final' & b'' & Hsow' & Hl & _ & _ & _ & _ & Hnn & _).
  rewrite Hsow in Hsow'. injection Hsow' as _ Hb. subst b''.
  set (gs := set_board b' _) in *.
  assert (wf gs) as Hwfs.
  { apply wf_set_board; [|done..]. by destruct Hwf as (? & ? & ?). }
  pose proof (wf_capture_stage final gs Hwfs) as Hwfc.
  pose proof Hwf as (HP & Hlen & Hnn0).
  assert (0 <= Py.sum (board g)) as HN by (by apply sum_nonneg).
  pose proof (capture_stage_progress final gs (Py.sum (board g)) Hwfs HN) as Hc.
  pose proof (sweep_stage_progress (capture_stage final gs) (Py.sum (board g)) Hwfc HN) as Hw.
  destruct (capture_stage_frame final gs) as [bc Hbc].
  assert (pits_per_player (capture_stage final gs) = pits_per_player g) as HPc
    by (by rewrite Hbc).
  rewrite HPc in Hw. change (pits_per_player gs) with (pits_per_player g) in Hc.
  change (board gs) with b' in Hc.
  unfold progress. rewrite HP', Hsum, turn_stage_board.
  split; [lia|].
  pose proof (wsum_bounds (pits_per_player g) (Py.sum (board g)) HP HN (board g)
                (wf_len g Hwf) Hnn0) as [Hlo _].
  split; [done|].
  pose proof Hwf' as (_ & _ & Hnn'). pose proof (wf_len _ Hwf') as Hl'.
  rewrite turn_stage_board in Hnn', Hl', Hsum. rewrite HP' in Hl'.
  pose proof (wsum_bounds (pits_per_player g) (Py.sum (board g)) HP HN _ Hl' Hnn') as [_ Hhi].
  by rewrite Hsum in Hhi.
Qed.

(** X14. Every move takes the game forward.  Count every stone with the
    weight of its cell, the pits of a side weighing [1], ..., [P] in the
    direction of play and a store [(N + 1) * P], where [N] is the number
    of stones on the board.  A successful [play] raises that count by at
    least one, and the count stays between [0] and [(N + 1) * P * N]. *)
Theorem play_makes_progress pit g g' :
  wf g → play pit g = (Return true, g') →
  progress g + 1 <= progress g' ∧
  0 <= progress g ∧
  progress g' <= (Py.sum (board g) + 1) * pits_per_player g * Py.sum (board g).
Proof.
  intros Hwf Hp. destruct (play_progress pit g g' Hwf Hp) as (? & ? & ?). lia.
Qed.

Lemma play_makes_progress_witness :
  ∃ g', play 1 game_6x4 = (Return true, g') ∧
    progress game_6x4 + 1 <= progress g' ∧
    0 <= progress game_6x4 ∧
    progress g' <= (Py.sum (board game_6x4) + 1) * pits_per_player game_6x4
                   * Py.sum (board game_6x4).
Proof.
  eexists. split; [vm_compute; reflexivity|].
  apply (play_makes_progress 1 game_6x4).
  - split; [|split]; [vm_compute; discriminate|reflexivity|].
    repeat constructor; vm_compute; discriminate.
  - vm_compute; reflexivity.
Defined.

(** X15. No game goes on for ever.  In a state reached from a new game
    of [P] pits a side and [S] stones a pit, the number of moves played,
    which is the length of [moves_history], is at most the measure of the
    state, and so at most [(2PS + 1) * P * 2PS]. *)
Theorem game_length_bounded pits stones g :
  reachable pits stones g →
  Z.of_nat (length (moves_history g)) <= progress g ∧
  progress g <= (2 * pits * stones + 1) * pits * (2 * pits * stones).
Proof.
  intros Hr.
  assert (Z.of_nat (length (moves_history g)) <= progress g) as Hlen.
  { induction Hr as [g Hnew|g pit g' Hr IH Hplay].
    - destruct (new_game_spec _ _ _ Hnew) as (_ & _ & Hwf & _ & _ & _ & -> & _).
      pose proof Hwf as (HP & _ & Hnn).
      pose proof (wsum_bounds (pits_per_player g) (Py.sum (board g)) HP
                    (sum_nonneg _ Hnn) (board g) (wf_len g Hwf) Hnn) as [Hlo _].
      simpl. unfold progress. lia.
    - destruct (reachable_wf _ _ _ Hr) as (Hwf & _).
      destruct (play_history pit g g' Hwf Hplay) as (-> & _).
      destruct (play_progress pit g g' Hwf Hplay) as (? & _).
      rewrite length_app. simpl. lia. }
  split; [done|].
  destruct (reachable_wf _ _ _ Hr) as (Hwf & HP & _).
  pose proof (reachable_sum _ _ _ Hr) as Hsum.
  pose proof Hwf as (HP1 & _ & Hnn).
  pose proof (wsum_bounds (pits_per_player g) (Py.sum (board g)) HP1
                (sum_nonneg _ Hnn) (board g) (wf_len g Hwf) Hnn) as [_ Hhi].
  unfold progress. rewrite Hsum, HP in Hhi. rewrite Hsum, HP. done.
Qed.

Lemma game_length_bounded_witness :
  Z.of_nat (length (moves_history (mkGame 6 4 [0;5;5;5;5;4;0;4;4;4;4;4;4;0] 2 [(1,1)])))
    <= progress (mkGame 6 4 [0;5;5;5;5;4;0;4;4;4;4;4;4;0] 2 [(1,1)]) ∧
  progress (mkGame 6 4 [0;5;5;5;5;4;0;4;4;4;4;4;4;0] 2 [(1,1)])
    <= (2 * 6 * 4 + 1) * 6 * (2 * 6 * 4).
Proof.
  apply (game_length_bounded 6 4).
  apply (reach_play 6 4 game_6x4 1); [apply reach_new; reflexivity|vm_compute; reflexivity].
Defined.
(** * Random play *)

Lemma first_choice_draws : draws_from_list first_choice.
Proof.
  intros r [|x l] Hl; [done|]. exists x, r. split; [done|]. by left.
Qed.

Section RandomPlay.
Variable R : Type.
Variable choice : R → list Z → outcome Z * R.
Hypothesis choice_draws : draws_from_list choice.

(** While the game is not over the random player has a move. *)
Lemma random_move_some rng global_rng g :
  wf g → is_terminal g = false →
  ∃ m rs,
    get_random_move R choice rng global_rng g = (Return (Some m), rs) ∧
    is_valid_move m g = (Return true, g) ∧
    (rng = None → fst rs = None).
Proof.
  intros Hwf Ht. destruct (valid_moves_cons g Hwf Ht) as (m0 & ms0 & Hms & Hiff).
  unfold get_random_move. rewrite Hms. destruct rng as [r|].
  - destruct (choice_draws r (m0 :: ms0) ltac:(done)) as (x & r' & Hc & Hx).
    rewrite Hc. exists x, (Some r', global_rng). split; [done|]. split; [by apply Hiff|done].
  - destruct (choice_draws global_rng (m0 :: ms0) ltac:(done)) as (x & r' & Hc & Hx).
    rewrite Hc. exists x, (None, r'). split; [done|]. split; [by apply Hiff|done].
Qed.

End RandomPlay.

(** X16. [get_random_move] returns a valid move whenever there is one.
    With generators that draw from the list they are given, on a
    well-formed game it returns [None] when [get_valid_moves] is empty,
    leaving the generators alone, and otherwise a pit that
    [get_valid_moves] lists; the pit is drawn with the game's own
    generator when it has one, and with the generator of the [random]
    module only when it has none. *)
Theorem random_move_is_valid (R : Type) (choice : R → list Z → outcome Z * R)
    (rng : option R) (global_rng : R) (g : MancalaGame) :
  draws_from_list choice → wf g →
  ∃ ms, get_valid_moves g = Return ms ∧
    (ms = [] →
       get_random_move R choice rng global_rng g = (Return None, (rng, global_rng))) ∧
    (ms ≠ [] →
       ∃ m rs,
         get_random_move R choice rng global_rng g = (Return (Some m), rs) ∧
         m ∈ ms ∧ is_valid_move m g = (Return true, g) ∧
         match rng with
         | Some r => ∃ r', choice r ms = (Return m, r') ∧ rs = (Some r', global_rng)
         | None => ∃ r', choice global_rng ms = (Return m, r') ∧ rs = (None, r')
         end).
Proof.
  intros choice_draws Hwf. destruct (get_valid_moves_spec g Hwf) as (ms & Hms & Hall).
  exists ms. split; [done|]. unfold get_random_move. rewrite Hms. split.
  - by intros ->.
  - intros Hne. destruct ms as [|m0 ms0]; [done|].
    destruct rng as [r|].
    + destruct (choice_draws r (m0 :: ms0) Hne) as (x & r' & Hc & Hx).
      rewrite Hc. exists x, (Some r', global_rng). eauto 10.
    + destruct (choice_draws global_rng (m0 :: ms0) Hne) as (x & r' & Hc & Hx).
      rewrite Hc. exists x, (None, r'). eauto 10.
Qed.

Lemma random_move_is_valid_witness :
  ∃ ms, get_valid_moves game_6x4 = Return ms ∧
    (ms = [] →
       get_random_move unit first_choice None tt game_6x4 = (Return None, (None, tt))) ∧
    (ms ≠ [] →
       ∃ m rs,
         get_random_move unit first_choice None tt game_6x4 = (Return (Some m), rs) ∧
         m ∈ ms ∧ is_valid_move m game_6x4 = (Return true, game_6x4) ∧
         ∃ r', first_choice tt ms = (Return m, r') ∧ rs = (None, r')).
Proof.
  apply (random_move_is_valid unit first_choice None tt game_6x4).
  - exact first_choice_draws.
  - split; [|split]; [vm_compute; discriminate|reflexivity|].
    repeat constructor; vm_compute; discriminate.
Defined.

(** X17. The random playout of [run_random_vs_random] comes to an end.
    With generators that draw from the list they are given, from a
    well-formed game, and with a budget of loop iterations above
    [(N + 1) * P * N] minus the measure of the game, the loop never
    raises and never runs out of budget: it returns the number of moves
    it played, every one of them logged in [moves_history], and leaves a
    game that is over, and that is a state the game reaches if the start
    was one. *)
Theorem random_playout_ends (R : Type) (choice : R → list Z → outcome Z * R)
    (fuel : nat) (rng : option R) (global_rng : R) (g : MancalaGame) (moves : Z) :
  draws_from_list choice → wf g →
  (Py.sum (board g) + 1) * pits_per_player g * Py.sum (board g) - progress g
    < Z.of_nat fuel →
  ∃ n rs g',
    random_playout R choice fuel rng global_rng g moves = (Return (moves + n), rs, g') ∧
    is_terminal g' = true ∧ wf g' ∧
    Z.of_nat (length (moves_history g')) = Z.of_nat (length (moves_history g)) + n ∧
    0 <= n ∧
    (rng = None → fst rs = None) ∧
    (∀ pits stones, reachable pits stones g → reachable pits stones g').
Proof.
  intros choice_draws. revert rng global_rng g moves.
  induction fuel as [|fuel IH]; intros rng global_rng g moves Hwf Hfuel.
  - pose proof Hwf as (HP & _ & Hnn).
    pose proof (wsum_bounds (pits_per_player g) (Py.sum (board g)) HP
                  (sum_nonneg _ Hnn) (board g) (wf_len g Hwf) Hnn) as [_ Hhi].
    unfold progress in Hfuel. lia.
  - cbn [random_playout]. destruct (is_terminal g) eqn:Ht; cbn [negb].
    { exists 0, (rng, global_rng), g. rewrite Z.add_0_r.
      split; [done|]. split; [done|]. split; [done|]. split; [lia|]. done. }
    destruct (random_move_some R choice choice_draws rng global_rng g Hwf Ht)
      as (m & rs & -> & Hv & Hgen).
    destruct (play_stages m g Hwf Ht Hv) as (final & gs & _ & Hplay).
    set (g1 := turn_stage final (sweep_stage (capture_stage final gs))) in *.
    rewrite Hplay.
    destruct (play_keeps m g true g1 Hwf Hplay) as (Hwf1 & Hsum & HP1 & _).
    destruct (play_progress m g g1 Hwf Hplay) as (Hlt & _ & _).
    destruct (play_history m g g1 Hwf Hplay) as (Hh & _).
    destruct (IH (fst rs) (snd rs) g1 (moves + 1) Hwf1)
      as (n & rs' & g' & Hrun & Hterm & Hwf' & Hlen & Hn & Hrng & Hreach).
    { rewrite Hsum, HP1. lia. }
    exists (1 + n), rs', g'. rewrite Hrun.
    split; [by replace (moves + (1 + n)) with (moves + 1 + n) by lia|].
    split; [done|]. split; [done|]. split.
    { rewrite Hlen, Hh, length_app. simpl. lia. }
    split; [lia|]. split.
    + intros Hnone. apply Hrng. by apply Hgen.
    + intros pits stones Hr. apply Hreach. by apply (reach_play _ _ g m).
Qed.

Lemma random_playout_ends_witness :
  ∃ n rs g',
    random_playout unit first_choice 40 None tt (mkGame 1 3 [3; 0; 3; 0] 1 []) 0
      = (Return (0 + n), rs, g') ∧
    is_terminal g' = true ∧ wf g' ∧
    Z.of_nat (length (moves_history g'))
      = Z.of_nat (length (moves_history (mkGame 1 3 [3; 0; 3; 0] 1 []))) + n ∧
    0 <= n ∧
    (@None unit = None → fst rs = None) ∧
    (∀ pits stones, reachable pits stones (mkGame 1 3 [3; 0; 3; 0] 1 []) →
                    reachable pits stones g').
Proof.
  apply (random_playout_ends unit first_choice 40 None tt (mkGame 1 3 [3; 0; 3; 0] 1 []) 0).
  - exact first_choice_draws.
  - split; [|split]; [vm_compute; discriminate|reflexivity|].
    repeat constructor; vm_compute; discriminate.
  - vm_compute. reflexivity.
Defined.

(** * The game between the search and the random player *)

(** X18. The benchmark game between the search and the random player
    is played to its end.  With a generator that draws from the list it
    is given, a search budget that covers the depth, and a budget of
    loop iterations above [(N + 1) * P * N] minus the measure of the
    board, the game loop started from a well-formed state never raises,
    never gets [None] for a move (its [break] is not taken) and never
    runs out of budget: it returns the number of moves it played and
    leaves a state whose game is over, built by [result] from the state
    it started from.  This holds for the alpha-beta player and for the
    minimax player. *)
Theorem ai_game_ends (R : Type) (choice : R → list Z → outcome Z * R)
    (use_alpha_beta : bool) (depth : Z) (search_fuel fuel : nat) (global_rng : R)
    (st : GameState.t MancalaGame) (moves : Z) :
  draws_from_list choice →
  (1 <= search_fuel)%nat → depth <= Z.of_nat search_fuel →
  wf (GameState.board st) →
  (Py.sum (board (GameState.board st)) + 1) * pits_per_player (GameState.board st)
    * Py.sum (board (GameState.board st)) - progress (GameState.board st)
    < Z.of_nat fuel →
  ∃ n global_rng' st',
    ai_vs_random_loop R choice use_alpha_beta depth search_fuel fuel global_rng st moves
      = (Return (moves + n), global_rng', st') ∧
    is_terminal (GameState.board st') = true ∧ wf (GameState.board st') ∧
    Z.of_nat (length (moves_history (GameState.board st')))
      = Z.of_nat (length (moves_history (GameState.board st))) + n ∧
    0 <= n ∧
    (∀ pits stones, built pits stones st → built pits stones st').
Proof.
  intros choice_draws search_fuel_pos search_fuel_depth. revert global_rng st moves.
  induction fuel as [|fuel IH]; intros global_rng st moves Hwf Hfuel.
  - pose proof Hwf as (HP & _ & Hnn).
    pose proof (wsum_bounds _ _ HP (sum_nonneg _ Hnn) _ (wf_len _ Hwf) Hnn) as [_ Hhi].
    unfold progress in Hfuel. lia.
  - cbn [ai_vs_random_loop terminal_test to_move MancalaAI.game_by_value].
    unfold MancalaAI.terminal_test_body, MancalaAI.lift. cbn [fst].
    destruct (is_terminal (GameState.board st)) eqn:Ht.
    { exists 0, global_rng, st. rewrite Z.add_0_r.
      split; [done|]. split; [done|]. split; [done|]. split; [lia|]. done. }
    assert (∃ m rng',
              (let '(move, global_rng') :=
                 if GameState.to_move st =? 1
                 then (get_move use_alpha_beta depth search_fuel st, global_rng)
                 else
                   let '(m, rs) :=
                     get_random_move R choice None global_rng (GameState.board st) in
                   (m, snd rs) in
               (move, global_rng')) = (Return (Some m), rng') ∧
              is_valid_move m (GameState.board st) = (Return true, GameState.board st))
      as (m & rng' & Hmove & Hv).
    { destruct (GameState.to_move st =? 1).
      - destruct (search_root_choice st depth search_fuel Hwf Ht search_fuel_pos
                    search_fuel_depth) as (acts & m & _ & _ & Hacts & Hm & Hab & Hmm & _).
        destruct (mancala_actions_sum st Hwf) as (acts' & Hacts' & Hall).
        rewrite Hacts in Hacts'. injection Hacts' as <-.
        destruct (Hall m Hm) as (Hv & _).
        exists m, global_rng. split; [|done]. unfold get_move.
        destruct use_alpha_beta; by rewrite ?Hab, ?Hmm.
      - destruct (random_move_some R choice choice_draws None global_rng _ Hwf Ht)
          as (m & rs & -> & Hv & _).
        exists m, (snd rs). done. }
    destruct (if GameState.to_move st =? 1
              then (get_move use_alpha_beta depth search_fuel st, global_rng)
              else
                let '(m, rs) :=
                  get_random_move R choice None global_rng (GameState.board st) in
                (m, snd rs)) as [move grng'].
    injection Hmove as -> ->.
    destruct (result_body_spec m _ Hwf Ht Hv) as (f & g1 & Hrb & Hwf1 & Hplay).
    cbn [result MancalaAI.game_by_value]. rewrite Hrb.
    set (st1 := GameState.mk f.1.1 f.1.2 g1 f.2).
    destruct (play_keeps m _ true g1 Hwf Hplay) as (_ & Hsum & HP1 & _).
    destruct (play_progress m _ g1 Hwf Hplay) as (Hlt & _ & _).
    destruct (play_history m _ g1 Hwf Hplay) as (Hh & _).
    destruct (IH rng' st1 (moves + 1))
      as (n & rng'' & st' & Hrun & Hterm & Hwf' & Hlen & Hn & Hbuilt).
    { done. }
    { cbn. rewrite Hsum, HP1. lia. }
    exists (1 + n), rng'', st'. rewrite Hrun.
    split; [by replace (moves + (1 + n)) with (moves + 1 + n) by lia|].
    split; [done|]. split; [done|]. split.
    { rewrite Hlen. cbn. rewrite Hh, length_app. simpl. lia. }
    split; [lia|].
    intros pits stones Hb. apply Hbuilt. apply (built_result _ _ st m); [done|].
    cbn [result MancalaAI.game_by_value]. by rewrite Hrb.
Qed.

Lemma ai_game_ends_witness :
  ∃ n global_rng' st',
    ai_vs_random_loop unit first_choice true 2 2 40 tt
      (GameState.mk 1 0 (mkGame 1 3 [3; 0; 3; 0] 1 []) [1]) 0
      = (Return (0 + n), global_rng', st') ∧
    is_terminal (GameState.board st') = true ∧ wf (GameState.board st') ∧
    Z.of_nat (length (moves_history (GameState.board st')))
      = Z.of_nat (length (moves_history (GameState.board
           (GameState.mk 1 0 (mkGame 1 3 [3; 0; 3; 0] 1 []) [1])))) + n ∧
    0 <= n ∧
    (∀ pits stones,
       built pits stones (GameState.mk 1 0 (mkGame 1 3 [3; 0; 3; 0] 1 []) [1]) →
       built pits stones st').
Proof.
  apply (ai_game_ends unit first_choice true 2 2 40 tt
           (GameState.mk 1 0 (mkGame 1 3 [3; 0; 3; 0] 1 []) [1]) 0).
  - exact first_choice_draws.
  - lia.
  - lia.
  - split; [|split]; [vm_compute; discriminate|reflexivity|].
    repeat constructor; vm_compute; discriminate.
  - vm_compute. reflexivity.
Defined.
(** * The constructor *)

Lemma new_board_closed (n : nat) (stones : Z) :
  <[(n + S n)%nat:=0]> (<[n:=0]> (replicate (n + S (n + 1)) stones)) =
  replicate n stones ++ 0 :: replicate n stones ++ [0].
Proof.
  rewrite replicate_add.
  rewrite (insert_app_r_alt (replicate n stones) _ n) by (rewrite length_replicate; lia).
  rewrite length_replicate, Nat.sub_diag.
  change (<[0%nat:=0]> (replicate (S (n + 1)) stones)) with (0 :: replicate (n + 1) stones).
  rewrite (insert_app_r_alt (replicate n stones) _ (n + S n))
    by (rewrite length_replicate; lia).
  rewrite length_replicate.
  replace (n + S n - n)%nat with (S n) by lia.
  change (<[S n:=0]> (0 :: replicate (n + 1) stones))
    with (0 :: <[n:=0]> (replicate (n + 1) stones)).
  do 2 f_equal. rewrite replicate_add.
  rewrite (insert_app_r_alt (replicate n stones) _ n) by (rewrite length_replicate; lia).
  rewrite length_replicate, Nat.sub_diag. done.
Qed.

(** X19. What the constructor builds.  [MancalaGame(P, S)] raises
    [ValueError] when [P < 1], with the message about the pits also when
    [S] is negative too, and when [S < 0]; otherwise it returns the game
    whose board is [P] pits of [S] stones, an empty store, [P] pits of
    [S] stones and an empty store, with player 1 to move and no
    history. *)
Theorem new_game_contract (pits stones : Z) :
  new_game pits stones =
    if pits <? 1 then Raise (ValueError "pits_per_player must be at least 1")
    else if stones <? 0 then Raise (ValueError "stones_per_pit cannot be negative")
    else Return (mkGame pits stones
                   (replicate (Z.to_nat pits) stones ++ 0 ::
                    replicate (Z.to_nat pits) stones ++ [0]) 1 []).
Proof.
  unfold new_game.
  destruct (Z.ltb_spec pits 1); [done|]. destruct (Z.ltb_spec stones 0); [done|].
  assert (Py.len (replicate (Z.to_nat ((pits + 1) * 2)) stones) = (pits + 1) * 2) as Hl.
  { unfold Py.len. rewrite length_replicate. lia. }
  unfold _p1_mancala, _p2_mancala, board_size_of. cbn [pits_per_player set_board board].
  rewrite bind_board_set by (cbn [board set_board]; lia).
  rewrite board_set_in by (cbn [board set_board]; rewrite len_insert; lia).
  cbn [board set_board]. unfold set_board. cbn. do 2 f_equal.
  replace (Z.to_nat ((pits + 1) * 2 - 1)) with (Z.to_nat pits + S (Z.to_nat pits))%nat by lia.
  replace (Z.to_nat ((pits + 1) * 2))
    with (Z.to_nat pits + S (Z.to_nat pits + 1))%nat by lia.
  apply new_board_closed.
Qed.
(** * [MancalaAI.result] on the object store *)

(** X20. [result] works on a copy.  Called on a state whose board is a
    well-formed game object, [result] allocates one new object and
    changes nothing else: the object of the state it was given holds
    what it held.  When the move is legal and the game not over, the new
    object is the given game after [play move], and the fields of the
    returned state are read from it.  Otherwise [play] raises
    [ValueError], [result] raises it too, and the store is left with an
    unchanged copy of the game. *)
Theorem result_works_on_a_copy (st : GameState.t loc) (move : Z) (h : store)
    (g : MancalaGame) :
  h !! GameState.board st = Some g → wf g →
  h !! fresh (dom h) = None ∧
  ∃ r g',
    result st move h = (r, <[fresh (dom h):=g']> h) ∧
    (<[fresh (dom h):=g']> h) !! GameState.board st = Some g ∧
    match r with
    | Return st' =>
        GameState.board st' = fresh (dom h) ∧
        play move g = (Return true, g') ∧
        GameState.to_move st' = current_player g' ∧
        GameState.utility st' =
          cell (board g') (_p1_mancala g') - cell (board g') (_p2_mancala g') ∧
        get_valid_moves g' = Return (GameState.moves st')
    | Raise e =>
        play move g = (Raise e, g) ∧ g' = g ∧
        (is_terminal g = true ∨ is_valid_move move g = (Return false, g))
    | OutOfFuel => False
    end.
Proof.
  intros Hl Hwf. destruct (copy_spec _ h g Hl) as [Hcopy Hfresh].
  split; [done|].
  assert (fresh (dom h) ≠ GameState.board st) as Hne by (intros Heq; congruence).
  cbn [result MancalaAI.game sbind sret store_monad]. unfold hbind.
  rewrite Hcopy. unfold on_object. rewrite lookup_insert_eq.
  assert (∀ e, play move g = (Raise e, g) →
            MancalaAI.result_body move g = (Raise e, g)) as Hraise.
  { intros e Hp. unfold MancalaAI.result_body. unfold bind at 1. by rewrite Hp. }
  destruct (is_terminal g) eqn:Ht.
  { rewrite (Hraise _ (play_terminal move g Ht)). rewrite insert_insert_eq.
    eexists _, g. split; [done|]. split; [by rewrite lookup_insert_ne|].
    split; [by apply play_terminal|]. split; [done|by left]. }
  destruct (is_valid_move_cases move g Hwf) as [Hv|Hv].
  - destruct (result_body_spec move g Hwf Ht Hv) as (f & g' & Hbody & Hwf' & Hplay).
    destruct (result_body_inv move g f g' Hwf Hbody) as (_ & Hf1 & Hf2 & Hf3).
    rewrite Hbody, insert_insert_eq.
    eexists _, g'. split; [done|]. split; [by rewrite lookup_insert_ne|].
    cbn. done.
  - rewrite (Hraise _ (play_invalid move g Ht Hv)). rewrite insert_insert_eq.
    eexists _, g. split; [done|]. split; [by rewrite lookup_insert_ne|].
    split; [by apply play_invalid|]. split; [done|by right].
Qed.

Lemma result_works_on_a_copy_witness :
  store_3x2 !! fresh (dom store_3x2) = None ∧
  ∃ r g',
    result root_3x2 1 store_3x2 = (r, <[fresh (dom store_3x2):=g']> store_3x2) ∧
    (<[fresh (dom store_3x2):=g']> store_3x2) !! GameState.board root_3x2
      = Some (mkGame 3 2 [2;2;2;0;2;2;2;0] 1 []) ∧
    match r with
    | Return st' =>
        GameState.board st' = fresh (dom store_3x2) ∧
        play 1 (mkGame 3 2 [2;2;2;0;2;2;2;0] 1 []) = (Return true, g') ∧
        GameState.to_move st' = current_player g' ∧
        GameState.utility st' =
          cell (board g') (_p1_mancala g') - cell (board g') (_p2_mancala g') ∧
        get_valid_moves g' = Return (GameState.moves st')
    | Raise e =>
        play 1 (mkGame 3 2 [2;2;2;0;2;2;2;0] 1 [])
          = (Raise e, mkGame 3 2 [2;2;2;0;2;2;2;0] 1 []) ∧
        g' = mkGame 3 2 [2;2;2;0;2;2;2;0] 1 [] ∧
        (is_terminal (mkGame 3 2 [2;2;2;0;2;2;2;0] 1 []) = true ∨
         is_valid_move 1 (mkGame 3 2 [2;2;2;0;2;2;2;0] 1 [])
           = (Return false, mkGame 3 2 [2;2;2;0;2;2;2;0] 1 []))
    | OutOfFuel => False
    end.
Proof.
  apply (result_works_on_a_copy root_3x2 1 store_3x2 (mkGame 3 2 [2;2;2;0;2;2;2;0] 1 [])).
  - reflexivity.
  - split; [|split]; [vm_compute; discriminate|reflexivity|].
    repeat constructor; vm_compute; discriminate.
Defined.
(** * Ties at the root *)

Lemma ext_lt_trans a b c : ext_lt a b = true → ext_lt b c = true → ext_lt a c = true.
Proof. intros. ext_solve [a; b; c]. Qed.

Lemma ext_le_lt_trans a b c : ext_le a b = true → ext_lt b c = true → ext_lt a c = true.
Proof. intros. ext_solve [a; b; c]. Qed.

Section FirstBest.
Context {St A : Type} {G : Game outcome St A}.
Variables depth player : Z.

(** The root loop of [minimax_search] keeps the first move of greatest
    backed-up value: a later move replaces it only with a strictly
    greater value. *)
Lemma mm_root_loop_first fuel s acts :
  (∀ a, a ∈ acts → ∃ s' y, result s a = Return s' ∧
                           mm_min_value depth player fuel s' 1 = Return y) →
  ∀ best_action best_value, ∃ r,
    mm_root_loop depth player fuel s acts best_action best_value = Return r ∧
    ((r = best_action ∧
      ∀ a, a ∈ acts → ∃ s' y, result s a = Return s' ∧
                              mm_min_value depth player fuel s' 1 = Return y ∧
                              ext_le y best_value = true) ∨
     (∃ pre m post sm top,
        acts = pre ++ m :: post ∧ r = Some m ∧
        result s m = Return sm ∧ mm_min_value depth player fuel sm 1 = Return top ∧
        ext_lt best_value top = true ∧
        (∀ a, a ∈ pre → ∃ s' y, result s a = Return s' ∧
                                mm_min_value depth player fuel s' 1 = Return y ∧
                                ext_lt y top = true) ∧
        (∀ a, a ∈ post → ∃ s' y, result s a = Return s' ∧
                                 mm_min_value depth player fuel s' 1 = Return y ∧
                                 ext_le y top = true))).
Proof.
  induction acts as [|a acts IH]; intros Hch best_action best_value.
  - exists best_action. split; [done|]. left. split; [done|].
    intros a Ha. by apply elem_of_nil in Ha.
  - destruct (Hch a ltac:(left)) as (s' & y & Hr & Hy).
    assert (∀ a', a' ∈ acts → ∃ s' y, result s a' = Return s' ∧
              mm_min_value depth player fuel s' 1 = Return y) as Hch'.
    { intros a' Ha'. apply Hch. by right. }
    cbn [mm_root_loop sbind sret outcome_monad]. rewrite Hr. cbn [obind].
    rewrite Hy. cbn [obind].
    destruct (ext_lt best_value y) eqn:Hlt.
    + destruct (IH Hch' (Some a) y) as (r & Hrun & Hcase).
      exists r. split; [done|]. right.
      destruct Hcase as [[-> Hall]|(pre & m & post & sm & top & -> & -> & Hrm & Hvm & Hbt & Hpre & Hpost)].
      * exists [], a, acts, s', y. repeat split; try done.
        intros a' Ha'. by apply elem_of_nil in Ha'.
      * exists (a :: pre), m, post, sm, top. repeat split; try done.
        -- by eapply ext_lt_trans.
        -- intros a' [->|Ha']%elem_of_cons; [|by apply Hpre].
           exists s', y. done.
    + destruct (IH Hch' best_action best_value) as (r & Hrun & Hcase).
      exists r. split; [done|].
      destruct Hcase as [[-> Hall]|(pre & m & post & sm & top & -> & -> & Hrm & Hvm & Hbt & Hpre & Hpost)].
      * left. split; [done|]. intros a' [->|Ha']%elem_of_cons; [|by apply Hall].
        exists s', y. repeat split; [done..|]. by apply ext_not_lt_le.
      * right. exists (a :: pre), m, post, sm, top. repeat split; try done.
        intros a' [->|Ha']%elem_of_cons; [|by apply Hpre].
        exists s', y. repeat split; [done..|].
        eapply ext_le_lt_trans; [|done]. by apply ext_not_lt_le.
Qed.

End FirstBest.

(** X21. Ties go to the first move.  On a well-formed board, with a
    budget that covers the depth, the move [minimax_search] returns, and
    [get_alpha_beta_move] with it, is the first move of [actions] whose
    backed-up value is greatest: every move listed before it has a
    strictly smaller value, every move listed after it a value that is
    not greater.  The searches return [None] only when there is no
    action. *)
Theorem minimax_takes_first_best (st : GameState.t MancalaGame) (depth : Z) (fuel : nat) :
  wf (GameState.board st) → (1 <= fuel)%nat → depth <= Z.of_nat fuel →
  ∃ acts r,
    actions st = Return acts ∧
    minimax_search fuel st depth = Return r ∧
    get_alpha_beta_move fuel st depth = Return r ∧
    match r with
    | None => acts = []
    | Some m =>
        ∃ pre post top,
          acts = pre ++ m :: post ∧
          backed_up_value fuel st depth m = Return top ∧
          (∀ a, a ∈ pre → ∃ y, backed_up_value fuel st depth a = Return y ∧
                               ext_lt y top = true) ∧
          (∀ a, a ∈ post → ∃ y, backed_up_value fuel st depth a = Return y ∧
                                ext_le y top = true)
    end.
Proof.
  intros Hwf Hf Hd.
  destruct (searches_agree_by_value st depth fuel Hwf Hf Hd) as (r & _ & Hmm & Hab & _).
  destruct (mancala_ok_actions st Hwf) as (acts & Hacts & Hres).
  exists acts, r. split; [done|]. split; [done|]. split; [done|].
  unfold minimax_search in Hmm.
  cbn [sbind outcome_monad to_move MancalaAI.game_by_value obind] in Hmm.
  rewrite Hacts in Hmm. cbn [obind] in Hmm.
  destruct (mm_root_loop_first depth (GameState.to_move st) fuel st acts) with
    (best_action := @None Z) (best_value := NegInf) as (r' & Hrun & Hcase).
  { intros m Hm. destruct (Hres m Hm) as (s' & Hr & Hok').
    destruct (values_agree (λ s, wf (GameState.board s)) mancala_ok_actions
                mancala_ok_terminal_test mancala_ok_utility depth (GameState.to_move st)
                fuel s' 1 Hok' Hf ltac:(lia)) as [_ Hmin].
    destruct (Hmin NegInf PosInf) as (_ & y & _ & Hy & _). eauto. }
  rewrite Hmm in Hrun. injection Hrun as <-.
  assert (∀ a s' y, result st a = Return s' →
            mm_min_value depth (GameState.to_move st) fuel s' 1 = Return y →
            backed_up_value fuel st depth a = Return y) as Hbv.
  { intros a s' y Hr Hy. unfold backed_up_value.
    cbn [sbind outcome_monad to_move MancalaAI.game_by_value obind].
    rewrite Hr. cbn [obind]. done. }
  destruct Hcase as [[-> Hall]|(pre & m & post & sm & top & Happ & -> & Hrm & Hvm & _ & Hpre & Hpost)].
  - destruct acts as [|a acts]; [done|]. exfalso.
    destruct (Hall a ltac:(left)) as (s' & y & Hr & Hy & Hle).
    destruct (Hres a ltac:(left)) as (s'' & Hr' & Hok').
    rewrite Hr in Hr'. injection Hr' as <-.
    destruct (mancala_values_within depth (GameState.to_move st) fuel _ s' 1 Hok' eq_refl
                Hf ltac:(lia)) as (y' & Hy' & (u & -> & _)).
    rewrite Hy in Hy'. injection Hy' as ->. done.
  - exists pre, post, top. split; [done|]. split; [by eapply Hbv|]. split.
    + intros a Ha. destruct (Hpre a Ha) as (s' & y & Hr & Hy & Hlt). exists y.
      split; [by eapply Hbv|done].
    + intros a Ha. destruct (Hpost a Ha) as (s' & y & Hr & Hy & Hle). exists y.
      split; [by eapply Hbv|done].
Qed.

Lemma minimax_takes_first_best_witness :
  ∃ acts r,
    actions state_3x2 = Return acts ∧
    minimax_search 3 state_3x2 3 = Return r ∧
    get_alpha_beta_move 3 state_3x2 3 = Return r ∧
    match r with
    | None => acts = []
    | Some m =>
        ∃ pre post top,
          acts = pre ++ m :: post ∧
          backed_up_value 3 state_3x2 3 m = Return top ∧
          (∀ a, a ∈ pre → ∃ y, backed_up_value 3 state_3x2 3 a = Return y ∧
                               ext_lt y top = true) ∧
          (∀ a, a ∈ post → ∃ y, backed_up_value 3 state_3x2 3 a = Return y ∧
                                ext_le y top = true)
    end.
Proof.
  apply (minimax_takes_first_best state_3x2 3 3).
  - split; [|split]; [vm_compute; discriminate|reflexivity|].
    repeat constructor; vm_compute; discriminate.
  - lia.
  - lia.
Defined.
(** * The layout of the board *)

(** X22. Opposite pits.  On a well-formed game [_get_opposite_pit] pairs
    the pits of the two sides: it is its own inverse, and an index is on
    player 1's side exactly when its opposite is on player 2's side, and
    the other way round.  So for a landing index on a player's side the
    bounds check of the capture block, [0 <= opposite_index < len(board)],
    always holds, and the opposite cell is a pit, never a store. *)
Theorem opposite_pit_pairs g i :
  wf g →
  _get_opposite_pit g (_get_opposite_pit g i) = i ∧
  _is_on_player_side g (_get_opposite_pit g i) 2 = _is_on_player_side g i 1 ∧
  _is_on_player_side g (_get_opposite_pit g i) 1 = _is_on_player_side g i 2 ∧
  (∀ p, _is_on_player_side g i p = true →
        (0 <=? _get_opposite_pit g i) && (_get_opposite_pit g i <? Py.len (board g)) = true ∧
        is_pit g (_get_opposite_pit g i) ∧
        _get_opposite_pit g i ≠ i).
Proof.
  intros (HP & Hlen & _). rewrite Hlen.
  unfold _get_opposite_pit, _is_on_player_side, _p1_pits_start, _p1_pits_end,
    _p2_pits_start, _p2_pits_end, is_pit, is_store, _p1_mancala, _p2_mancala, board_size_of.
  cbn [Z.eqb Pos.eqb].
  split; [lia|]. split; [|split].
  - apply eq_true_iff_eq. rewrite !andb_true_iff, !Z.leb_le. lia.
  - apply eq_true_iff_eq. rewrite !andb_true_iff, !Z.leb_le. lia.
  - intros p. destruct (p =? 1); rewrite !andb_true_iff, !Z.leb_le, Z.ltb_lt; lia.
Qed.

Lemma opposite_pit_pairs_witness :
  _get_opposite_pit game_6x4 (_get_opposite_pit game_6x4 2) = 2 ∧
  _is_on_player_side game_6x4 (_get_opposite_pit game_6x4 2) 2
    = _is_on_player_side game_6x4 2 1 ∧
  _is_on_player_side game_6x4 (_get_opposite_pit game_6x4 2) 1
    = _is_on_player_side game_6x4 2 2 ∧
  (∀ p, _is_on_player_side game_6x4 2 p = true →
        (0 <=? _get_opposite_pit game_6x4 2)
        && (_get_opposite_pit game_6x4 2 <? Py.len (board game_6x4)) = true ∧
        is_pit game_6x4 (_get_opposite_pit game_6x4 2) ∧
        _get_opposite_pit game_6x4 2 ≠ 2).
Proof.
  apply (opposite_pit_pairs game_6x4 2).
  split; [|split]; [vm_compute; discriminate|reflexivity|].
  repeat constructor; vm_compute; discriminate.
Defined.

Lemma take_drop_cell (b : list Z) (k : nat) :
  (k < length b)%nat → drop k b = cell b (Z.of_nat k) :: drop (S k) b.
Proof.
  intros Hk. destruct (lookup_lt_is_Some_2 b k Hk) as [x Hx].
  rewrite (drop_S b x k Hx). f_equal. unfold cell.
  destruct (Z.leb_spec 0 (Z.of_nat k)); [|lia]. by rewrite Nat2Z.id, Hx.
Qed.

(** X23. The four views of the board.  On a well-formed game the board
    is [p1_pits], then [p1_score], then [p2_pits], then [p2_score], and
    each side has [P] pits. *)
Theorem board_layout g :
  wf g →
  ∃ s1 s2,
    p1_score g = Return s1 ∧ p2_score g = Return s2 ∧
    board g = p1_pits g ++ s1 :: p2_pits g ++ [s2] ∧
    Py.len (p1_pits g) = pits_per_player g ∧
    Py.len (p2_pits g) = pits_per_player g.
Proof.
  intros Hwf. destruct (score_cells g Hwf) as [H1 H2].
  pose proof Hwf as (HP & Hlen & _).
  exists (cell (board g) (_p1_mancala g)), (cell (board g) (_p2_mancala g)).
  split; [done|]. split; [done|].
  unfold p1_pits, p2_pits, Py.slice, Py.clamp, _p1_pits_start, _p1_pits_end,
    _p2_pits_start, _p2_pits_end, _p1_mancala, _p2_mancala. rewrite Hlen.
  unfold board_size_of in *. set (P := pits_per_player g) in *.
  assert (length (board g) = (Z.to_nat P + S (Z.to_nat P + 1))%nat) as Hl
    by (unfold Py.len in Hlen; lia).
  destruct (Z.ltb_spec (P - 1 + 1) 0); [lia|]. destruct (Z.ltb_spec 0 0); [lia|].
  destruct (Z.ltb_spec ((P + 1) * 2 - 2 + 1) 0); [lia|].
  destruct (Z.ltb_spec (P + 1) 0); [lia|].
  rewrite !Z.min_l by lia.
  replace (Z.to_nat (P - 1 + 1 - 0)) with (Z.to_nat P) by lia.
  replace (Z.to_nat ((P + 1) * 2 - 2 + 1 - (P + 1))) with (Z.to_nat P) by lia.
  replace (Z.to_nat (P + 1)) with (S (Z.to_nat P)) by lia.
  change (Z.to_nat 0) with 0%nat. rewrite drop_0.
  split; [|split].
  - rewrite <- (take_drop (Z.to_nat P) (board g)) at 1. f_equal.
    rewrite (take_drop_cell (board g) (Z.to_nat P)) by lia.
    rewrite Z2Nat.id by lia. f_equal.
    rewrite <- (take_drop (Z.to_nat P) (drop (S (Z.to_nat P)) (board g))) at 1. f_equal.
    rewrite drop_drop.
    rewrite (take_drop_cell (board g) (S (Z.to_nat P) + Z.to_nat P)) by lia.
    replace (Z.of_nat (S (Z.to_nat P) + Z.to_nat P)) with ((P + 1) * 2 - 1) by lia.
    f_equal. apply drop_ge. lia.
  - unfold Py.len. rewrite length_take. lia.
  - unfold Py.len. rewrite length_take, length_drop. lia.
Qed.

Lemma board_layout_witness :
  ∃ s1 s2,
    p1_score game_6x4 = Return s1 ∧ p2_score game_6x4 = Return s2 ∧
    board game_6x4 = p1_pits game_6x4 ++ s1 :: p2_pits game_6x4 ++ [s2] ∧
    Py.len (p1_pits game_6x4) = pits_per_player game_6x4 ∧
    Py.len (p2_pits game_6x4) = pits_per_player game_6x4.
Proof.
  apply (board_layout game_6x4).
  split; [|split]; [vm_compute; discriminate|reflexivity|].
  repeat constructor; vm_compute; discriminate.
Defined.

(** * Whose turn it is *)

(** The cell the last stone is dropped into has received a stone. *)
Lemma sown_last pit g :
  wf g → 1 <= pit <= pits_per_player g →
  0 < cell (board g) (mover_pit_index g pit) →
  ∀ final,
    round_pos g final =
      (pit - 1 + cell (board g) (mover_pit_index g pit)) `mod` (2 * pits_per_player g + 1) →
    1 <= (cell (board g) (mover_pit_index g pit) + 2 * pits_per_player g
          - (round_pos g final - pit) `mod` (2 * pits_per_player g + 1))
           `div` (2 * pits_per_player g + 1).
Proof.
  intros (HP & _) Hpit Hs final ->.
  set (s := cell (board g) (mover_pit_index g pit)) in *.
  set (m := 2 * pits_per_player g + 1).
  rewrite Zminus_mod_idemp_l. replace (pit - 1 + s - pit) with (s - 1) by lia.
  pose proof (Z.mod_le (s - 1) m ltac:(lia) ltac:(lia)).
  pose proof (Z.mod_pos_bound (s - 1) m ltac:(lia)).
  apply Z.div_le_lower_bound; lia.
Qed.

(** C5. Whose turn it is after a move, stated on the board.  In a
    successful [play] of a pit holding [s] stones, the sowing empties the
    pit and then drops the stones one by one round the [2P + 1] cells
    that are not the opponent's store: every cell of the board it leaves
    holds what it held (nothing, for the chosen pit) plus one stone for
    every time the hand passed it, and the last stone is dropped into
    the cell at place [(pit - 1 + s) mod (2P + 1)] of that round, the
    landing index, which has a stone more for it.  After a move that
    does not end the game the player to move is the same as before
    exactly when that cell is the mover's own store, whose score the
    move has then raised, and is the other player otherwise.  (When the
    move ends the game, [play] leaves [current_player] as it was.)
    From the initial 6x4 board, player 1 playing pit 3 sows the cells 3,
    4, 5 and 6: the last stone lands in the store at index 6, which holds
    one stone afterwards, and player 1 stays the player to move. *)
Theorem extra_turn_rule :
  (∀ pit g g',
     wf g → play pit g = (Return true, g') →
     ∃ final gs,
       sow pit g = (Return final, gs) ∧
       0 <= final < board_size_of g ∧
       final ≠ opponent_mancala g ∧
       round_pos g final =
         (pit - 1 + cell (board g) (mover_pit_index g pit))
           `mod` (2 * pits_per_player g + 1) ∧
       (∀ i, 0 <= i < board_size_of g →
          cell (board gs) i =
            (if i =? mover_pit_index g pit then 0 else cell (board g) i)
            + (if i =? opponent_mancala g then 0
               else (cell (board g) (mover_pit_index g pit) + 2 * pits_per_player g
                     - (round_pos g i - pit) `mod` (2 * pits_per_player g + 1))
                      `div` (2 * pits_per_player g + 1))) ∧
       (if final =? mover_pit_index g pit then 0 else cell (board g) final) + 1
         <= cell (board gs) final ∧
       (final = mover_mancala g →
        cell (board g) (mover_mancala g) + 1 <= cell (board gs) (mover_mancala g) ∧
        cell (board g) (mover_mancala g) + 1 <= cell (board g') (mover_mancala g)) ∧
       (is_terminal g' = false →
        (current_player g' = current_player g ↔ final = mover_mancala g) ∧
        (final ≠ mover_mancala g →
         current_player g' = if current_player g =? 1 then 2 else 1)) ∧
       (is_terminal g' = true → current_player g' = current_player g)) ∧
  (new_game 6 4 = Return game_6x4 ∧
   board game_6x4 = [4;4;4;4;4;4;0;4;4;4;4;4;4;0] ∧ current_player game_6x4 = 1 ∧
   mover_pit_index game_6x4 3 = 2 ∧ mover_mancala game_6x4 = 6 ∧
   sow 3 game_6x4 = (Return 6, mkGame 6 4 [4;4;0;5;5;5;1;4;4;4;4;4;4;0] 1 [(1,3)]) ∧
   play 3 game_6x4 = (Return true, mkGame 6 4 [4;4;0;5;5;5;1;4;4;4;4;4;4;0] 1 [(1,3)]) ∧
   p1_score (mkGame 6 4 [4;4;0;5;5;5;1;4;4;4;4;4;4;0] 1 [(1,3)]) = Return 1 ∧
   current_player (mkGame 6 4 [4;4;0;5;5;5;1;4;4;4;4;4;4;0] 1 [(1,3)]) = 1).
Proof.
  split.
  - intros pit g g' Hwf Hp.
    destruct (play_success_inv pit g true g' Hwf Hp) as [Ht Hv].
    destruct (play_stages pit g Hwf Ht Hv) as (final & gs & Hsow & Hplay).
    rewrite Hplay in Hp. injection Hp as <-.
    destruct (sow_visits pit g Hwf Hv)
      as (final' & b' & Hsow' & Hpit & Hpos & Hf & Hfo & Hland & Hcells).
    rewrite Hsow in Hsow'. injection Hsow' as <- ->.
    destruct (sow_spec pit g Hwf Hv) as (final' & b'' & Hsow' & Hl & _ & _ & _ & _ & Hnn & _).
    rewrite Hsow in Hsow'. injection Hsow' as _ Hb. subst b''.
    set (gs := set_board b' _) in *.
    assert (wf gs) as Hwfs.
    { apply wf_set_board; [|done..]. by destruct Hwf as (? & ? & ?). }
    pose proof (wf_capture_stage final gs Hwfs) as Hwfc.
    destruct (capture_stage_frame final gs) as [bc Hbc].
    destruct (sweep_stage_frame _ Hwfc) as [bw Hbw].
    destruct (mover_pit_index_range g pit Hwf Hpit) as (Hidx & Him & Hio).
    replace (board_size_of g - 1) with (2 * pits_per_player g + 1) in Hland
      by (unfold board_size_of; lia).
    assert (∀ i, 0 <= i < board_size_of g →
              cell (board gs) i =
                (if i =? mover_pit_index g pit then 0 else cell (board g) i)
                + (if i =? opponent_mancala g then 0
                   else (cell (board g) (mover_pit_index g pit) + 2 * pits_per_player g
                         - (round_pos g i - pit) `mod` (2 * pits_per_player g + 1))
                          `div` (2 * pits_per_player g + 1))) as Hboard.
    { intros i Hi. cbn [gs board set_board]. rewrite Hcells by done.
      by rewrite (sown_unfold g pit _ Hwf Hpit). }
    assert ((if final =? mover_pit_index g pit then 0 else cell (board g) final) + 1
            <= cell (board gs) final) as Hlast.
    { rewrite (Hboard final Hf). destruct (Z.eqb_spec final (opponent_mancala g)); [done|].
      pose proof (sown_last pit g Hwf Hpit Hpos final Hland). lia. }
    exists final, gs. split; [done|]. split; [done|]. split; [done|]. split; [done|].
    split; [done|]. split; [done|]. split.
    { intros ->. destruct (Z.eqb_spec (mover_mancala g) (mover_pit_index g pit)); [congruence|].
      split; [lia|].
      rewrite turn_stage_board.
      assert (is_store gs (mover_mancala g)) as Hst by (apply is_store_mover; by left).
      pose proof (capture_stage_store (mover_mancala g) gs (mover_mancala g) Hwfs Hst) as H1.
      assert (is_store (capture_stage (mover_mancala g) gs) (mover_mancala g)) as Hst'
        by (rewrite Hbc; done).
      pose proof (sweep_stage_store _ (mover_mancala g) Hwfc Hst') as H2. lia. }
    rewrite is_terminal_turn_stage. unfold turn_stage.
    assert (mover_mancala (sweep_stage (capture_stage final gs)) = mover_mancala g) as ->.
    { rewrite Hbw, Hbc. done. }
    assert (current_player (sweep_stage (capture_stage final gs)) = current_player g) as Hcp.
    { rewrite Hbw, Hbc. done. }
    split.
    + intros ->. simpl. rewrite andb_true_r.
      destruct (Z.eqb_spec final (mover_mancala g)) as [Heq|Hne]; simpl.
      * rewrite Hcp. split; [done|]. intros H. done.
      * rewrite Hcp. split; [|done].
        destruct (Z.eqb_spec (current_player g) 1) as [->|]; split; (done || lia).
    + intros ->. rewrite andb_false_r. done.
  - repeat split; vm_compute; reflexivity.
Qed.

Lemma extra_turn_rule_witness :
  ∃ final gs,
    sow 3 game_6x4 = (Return final, gs) ∧
    0 <= final < board_size_of game_6x4 ∧
    final ≠ opponent_mancala game_6x4 ∧
    round_pos game_6x4 final =
      (3 - 1 + cell (board game_6x4) (mover_pit_index game_6x4 3))
        `mod` (2 * pits_per_player game_6x4 + 1) ∧
    (∀ i, 0 <= i < board_size_of game_6x4 →
       cell (board gs) i =
         (if i =? mover_pit_index game_6x4 3 then 0 else cell (board game_6x4) i)
         + (if i =? opponent_mancala game_6x4 then 0
            else (cell (board game_6x4) (mover_pit_index game_6x4 3)
                  + 2 * pits_per_player game_6x4
                  - (round_pos game_6x4 i - 3) `mod` (2 * pits_per_player game_6x4 + 1))
                   `div` (2 * pits_per_player game_6x4 + 1))) ∧
    (if final =? mover_pit_index game_6x4 3 then 0 else cell (board game_6x4) final) + 1
      <= cell (board gs) final ∧
    (final = mover_mancala game_6x4 →
     cell (board game_6x4) (mover_mancala game_6x4) + 1
       <= cell (board gs) (mover_mancala game_6x4) ∧
     cell (board game_6x4) (mover_mancala game_6x4) + 1
       <= cell (board (mkGame 6 4 [4;4;0;5;5;5;1;4;4;4;4;4;4;0] 1 [(1,3)]))
            (mover_mancala game_6x4)) ∧
    (is_terminal (mkGame 6 4 [4;4;0;5;5;5;1;4;4;4;4;4;4;0] 1 [(1,3)]) = false →
     (current_player (mkGame 6 4 [4;4;0;5;5;5;1;4;4;4;4;4;4;0] 1 [(1,3)])
        = current_player game_6x4 ↔ final = mover_mancala game_6x4) ∧
     (final ≠ mover_mancala game_6x4 →
      current_player (mkGame 6 4 [4;4;0;5;5;5;1;4;4;4;4;4;4;0] 1 [(1,3)])
        = if current_player game_6x4 =? 1 then 2 else 1)) ∧
    (is_terminal (mkGame 6 4 [4;4;0;5;5;5;1;4;4;4;4;4;4;0] 1 [(1,3)]) = true →
     current_player (mkGame 6 4 [4;4;0;5;5;5;1;4;4;4;4;4;4;0] 1 [(1,3)])
       = current_player game_6x4).
Proof.
  destruct extra_turn_rule as [H _].
  apply (H 3 game_6x4 (mkGame 6 4 [4;4;0;5;5;5;1;4;4;4;4;4;4;0] 1 [(1,3)])).
  - repeat split; [simpl; lia|]. simpl. repeat constructor; lia.
  - vm_compute. reflexivity.
Defined.
